(** * MarbleBlast: rollback state history, affection flood, sweep-and-prune
      broadphase and marble reconciliation smoothing.

    Shallow embedding of
      - client/ts/game/game_state.ts   (class GameState),
      - the HUD message queues of the Hud class (helpMessages, alerts),
      - the SweepAndPruneBroadphase class,
      - Marble.pickUpPowerUp / afterReconciliation / postUpdate.

    JavaScript numbers that the modelled code only counts with or compares
    (frames, ids, array indices, bounding-box coordinates) are integers [Z];
    the values [Infinity] and [-Infinity] appear where the code uses them. *)

From stdpp Require Import gmap list.
From Stdlib Require Import ZArith Lia Sorting.Sorted.

Local Open Scope Z_scope.

(* ===================================================================== *)
(** ** JavaScript helpers *)
(* ===================================================================== *)

Module Js.

(** A JS number that is an integer, [Infinity] or [-Infinity]. *)
Inductive num : Type :=
| NegInf
| Fin (z : Z)
| PosInf.

(** [a < b] on such numbers. *)
Definition num_ltb (a b : num) : bool :=
  match a, b with
  | NegInf, NegInf => false
  | NegInf, _ => true
  | Fin _, NegInf => false
  | Fin x, Fin y => x <? y
  | Fin _, PosInf => true
  | PosInf, _ => false
  end.

(** [Math.min(a, k)] and [Math.max(a, k)] with a finite second argument. *)
Definition min_fin (a : num) (k : Z) : Z :=
  match a with
  | NegInf => k   (* never met: the code takes Math.min of a start bound *)
  | Fin x => Z.min x k
  | PosInf => k
  end.

Definition max_fin (a : num) (k : Z) : Z :=
  match a with
  | NegInf => k
  | Fin x => Z.max x k
  | PosInf => k   (* never met: the code takes Math.max of an end bound *)
  end.

(** [while (arr.length > 0 && p(Util.last(arr))) { arr.pop(); popped = true; }]
    The loop runs at most [length arr] times, which is the fuel. *)
Fixpoint pop_loop {A} (fuel : nat) (p : A -> bool) (arr : list A) (popped : bool)
  : list A * bool :=
  match fuel with
  | O => (arr, popped)
  | S fuel' =>
      match last arr with
      | Some x => if p x then pop_loop fuel' p (removelast arr) true
                  else (arr, popped)
      | None => (arr, popped)
      end
  end.

Definition pop_while {A} (p : A -> bool) (arr : list A) : list A * bool :=
  pop_loop (length arr) p arr false.

(** [Util.findLast(arr, p)]: the last element of [arr] that satisfies [p],
    [undefined] when there is none (util.ts is not among the sources; the
    helper is the usual one, as its two call sites use it). *)
Fixpoint findLast {A} (p : A -> bool) (arr : list A) : option A :=
  match arr with
  | [] => None
  | x :: rest =>
      match findLast p rest with
      | Some y => Some y
      | None => if p x then Some x else None
      end
  end.

(** *** Facts about the helpers *)

Lemma pop_loop_popped {A} (p : A -> bool) (n : nat) (arr : list A) (b : bool) :
  pop_loop n p arr b
  = (fst (pop_loop n p arr false), b || snd (pop_loop n p arr false)).
Proof.
  revert arr b. induction n as [|n IH]; intros arr b; simpl.
  - by rewrite orb_false_r.
  - destruct (last arr) as [x|]; [|by rewrite orb_false_r].
    destruct (p x); [|by rewrite orb_false_r].
    rewrite (IH _ true). simpl. by rewrite orb_true_r.
Qed.

Lemma pop_while_nil {A} (p : A -> bool) : pop_while p [] = ([], false).
Proof. reflexivity. Qed.

Lemma pop_while_snoc {A} (p : A -> bool) (arr : list A) (x : A) :
  pop_while p (arr ++ [x])
  = if p x then (fst (pop_while p arr), true) else (arr ++ [x], false).
Proof.
  unfold pop_while. rewrite length_app, Nat.add_1_r. simpl.
  rewrite last_snoc, removelast_last.
  destruct (p x); [|done]. by rewrite pop_loop_popped.
Qed.

(** What the loop leaves: a prefix that does not end in an element
    satisfying [p], all of the removed suffix satisfying [p]. *)
Lemma pop_while_spec {A} (p : A -> bool) (arr : list A) :
  exists removed,
    arr = fst (pop_while p arr) ++ removed
    /\ Forall (fun x => p x = true) removed
    /\ (forall x, last (fst (pop_while p arr)) = Some x -> p x = false)
    /\ (snd (pop_while p arr) = true <-> removed <> []).
Proof.
  induction arr as [|x arr IH] using rev_ind.
  - exists []. rewrite pop_while_nil. simpl. split_and!; try done.
  - rewrite pop_while_snoc. destruct (p x) eqn:Hp; simpl.
    + destruct IH as (removed & Heq & Hall & Hlast & _).
      exists (removed ++ [x]). split_and!.
      * rewrite app_assoc. by rewrite <- Heq.
      * apply Forall_app. split; [done|]. by constructor.
      * done.
      * split; [|done]. intros _. by destruct removed.
    + exists []. rewrite app_nil_r. split_and!; try done.
      intros y. rewrite last_snoc. by intros [= <-].
Qed.

Lemma findLast_snoc {A} (p : A -> bool) (arr : list A) (x : A) :
  findLast p (arr ++ [x]) = if p x then Some x else findLast p arr.
Proof.
  induction arr as [|y arr IH]; simpl.
  - by destruct (p x).
  - rewrite IH. destruct (p x); [done|]. done.
Qed.

(** [findLast] splits the array at the last element that satisfies [p]. *)
Lemma findLast_Some {A} (p : A -> bool) (arr : list A) (x : A) :
  findLast p arr = Some x <->
  exists before after,
    arr = before ++ x :: after /\ p x = true /\ Forall (fun y => p y = false) after.
Proof.
  induction arr as [|y arr IH] using rev_ind.
  - simpl. split; [done|]. intros (b & a & Heq & _). by destruct b.
  - rewrite findLast_snoc. destruct (p y) eqn:Hy.
    + split.
      * intros [= <-]. exists arr, []. by split_and!.
      * intros (b & a & Heq & Hx & Hall).
        destruct a as [|a0 a _] using rev_ind.
        -- apply app_inj_tail in Heq as [_ ->]. done.
        -- rewrite app_comm_cons, app_assoc in Heq.
           apply app_inj_tail in Heq as [_ ->].
           apply Forall_app in Hall as [_ Hall].
           inversion Hall; subst. congruence.
    + rewrite IH. split.
      * intros (b & a & -> & Hx & Hall). exists b, (a ++ [y]).
        split_and!; [by rewrite <- app_assoc | done |].
        apply Forall_app. split; [done|]. by constructor.
      * intros (b & a & Heq & Hx & Hall).
        destruct a as [|a0 a _] using rev_ind.
        -- apply app_inj_tail in Heq as [_ ->]. congruence.
        -- rewrite app_comm_cons, app_assoc in Heq.
           apply app_inj_tail in Heq as [-> ->].
           apply Forall_app in Hall as [Hall _].
           by exists b, a.
Qed.

Lemma findLast_None {A} (p : A -> bool) (arr : list A) :
  findLast p arr = None <-> Forall (fun y => p y = false) arr.
Proof.
  induction arr as [|y arr IH]; simpl.
  - split; [by constructor | done].
  - destruct (findLast p arr) eqn:Hf.
    + split; [done|]. intros Hall. inversion Hall; subst.
      destruct IH as [_ IH]. by specialize (IH H2).
    + destruct IH as [IH _]. specialize (IH eq_refl).
      destruct (p y) eqn:Hy.
      * split; [done|]. intros Hall. inversion Hall; subst. congruence.
      * split; [by constructor | done].
Qed.

End Js.

(* ===================================================================== *)
(** ** game_state.ts *)
(* ===================================================================== *)

Module GameState.
Import Js.

Section WithEntities.

(** The entity classes (entity.ts and its subclasses) are not part of the
    modelled sources: an entity's serialisable state, its internal state and
    the rest of its fields are abstract, and its methods are parameters. *)
Context {EntityState InternalState Body Msg : Type}.

(** The fields of [Entity] that game_state.ts reads and writes. *)
Record Entity : Type := mkEntity {
  id : Z;
  restartable : bool;
  stateNeedsStore : bool;
  internalStateNeedsStore : bool;
  body : Body
}.

Variable getState : Entity -> EntityState.
Variable getInternalState : Entity -> InternalState.
Variable getInitialState : Entity -> option EntityState.
(** [entity.loadState(state, { frame, remote })] *)
Variable loadState : Entity -> EntityState -> Z -> bool -> Entity.
(** [entity.loadInternalState(state, frame)] *)
Variable loadInternalState : Entity -> InternalState -> Z -> Entity.

(** [EntityUpdate] of shared/game_server_format; [state = null] is [None]. *)
Record EntityUpdate : Type := mkUpdate {
  updateId : Z;
  entityId : Z;
  frame : Z;
  state : option EntityState
}.

Record InternalEntry : Type := mkInternal {
  i_frame : Z;
  i_state : InternalState
}.

(** [from] and [to] are entity references; an entity object is identified by
    its id, which is unique within a game. *)
Record AffectionEdge : Type := mkEdge {
  e_id : Z;
  e_from : Z;
  e_to : Z;
  e_frame : Z
}.

(** An element of [Hud.helpMessages] and of [Hud.alerts]. *)
Record HudMessage : Type := mkMessage {
  m_frame : Z;
  getMessage : Msg
}.

Record Hud : Type := mkHud {
  helpMessages : list HudMessage;
  alerts : list HudMessage
}.

(** A [DefaultMap<number, T[]>]: entries in insertion order. *)
Definition DefaultMap (T : Type) : Type := list (Z * list T).

Fixpoint dm_get {T} (k : Z) (m : DefaultMap T) : list T :=
  match m with
  | [] => []
  | (k', v) :: rest => if k' =? k then v else dm_get k rest
  end.

(** Writing the array stored under [k] (the array object is mutated in
    place; a key that was absent has been appended by [get]). *)
Fixpoint dm_set {T} (k : Z) (v : list T) (m : DefaultMap T) : DefaultMap T :=
  match m with
  | [] => [(k, v)]
  | (k', v') :: rest =>
      if k' =? k then (k', v) :: rest else (k', v') :: dm_set k v rest
  end.

(** The GameState object together with what it reaches through [this.game]
    and the global [G.menu.hud]. [affectedBy] holds the [affectedBy] set of
    every entity object, keyed by entity; players are numbered. *)
Record GameState : Type := mkGameState {
  gs_frame : Z;
  maxFrame : Z;
  restartFrames : list Z;
  stateHistory : DefaultMap EntityUpdate;
  internalStateHistory : DefaultMap InternalEntry;
  affectionGraph : list AffectionEdge;
  nextUpdateId : Z;
  nextAffectionEdgeId : Z;
  entities : list Entity;
  affectedBy : gmap Z (gset nat);
  hud : Hud
}.

Definition set_frame (v : Z) (s : GameState) : GameState :=
  mkGameState v (maxFrame s) (restartFrames s) (stateHistory s)
    (internalStateHistory s) (affectionGraph s) (nextUpdateId s)
    (nextAffectionEdgeId s) (entities s) (affectedBy s) (hud s).

Definition set_stateHistory (v : DefaultMap EntityUpdate) (s : GameState) : GameState :=
  mkGameState (gs_frame s) (maxFrame s) (restartFrames s) v
    (internalStateHistory s) (affectionGraph s) (nextUpdateId s)
    (nextAffectionEdgeId s) (entities s) (affectedBy s) (hud s).

Definition set_internalStateHistory (v : DefaultMap InternalEntry) (s : GameState) : GameState :=
  mkGameState (gs_frame s) (maxFrame s) (restartFrames s) (stateHistory s)
    v (affectionGraph s) (nextUpdateId s)
    (nextAffectionEdgeId s) (entities s) (affectedBy s) (hud s).

Definition set_affectionGraph (v : list AffectionEdge) (s : GameState) : GameState :=
  mkGameState (gs_frame s) (maxFrame s) (restartFrames s) (stateHistory s)
    (internalStateHistory s) v (nextUpdateId s)
    (nextAffectionEdgeId s) (entities s) (affectedBy s) (hud s).

Definition set_nextUpdateId (v : Z) (s : GameState) : GameState :=
  mkGameState (gs_frame s) (maxFrame s) (restartFrames s) (stateHistory s)
    (internalStateHistory s) (affectionGraph s) v
    (nextAffectionEdgeId s) (entities s) (affectedBy s) (hud s).

Definition set_nextAffectionEdgeId (v : Z) (s : GameState) : GameState :=
  mkGameState (gs_frame s) (maxFrame s) (restartFrames s) (stateHistory s)
    (internalStateHistory s) (affectionGraph s) (nextUpdateId s)
    v (entities s) (affectedBy s) (hud s).

Definition set_entities (v : list Entity) (s : GameState) : GameState :=
  mkGameState (gs_frame s) (maxFrame s) (restartFrames s) (stateHistory s)
    (internalStateHistory s) (affectionGraph s) (nextUpdateId s)
    (nextAffectionEdgeId s) v (affectedBy s) (hud s).

Definition set_affectedBy (v : gmap Z (gset nat)) (s : GameState) : GameState :=
  mkGameState (gs_frame s) (maxFrame s) (restartFrames s) (stateHistory s)
    (internalStateHistory s) (affectionGraph s) (nextUpdateId s)
    (nextAffectionEdgeId s) (entities s) v (hud s).

Definition set_hud (v : Hud) (s : GameState) : GameState :=
  mkGameState (gs_frame s) (maxFrame s) (restartFrames s) (stateHistory s)
    (internalStateHistory s) (affectionGraph s) (nextUpdateId s)
    (nextAffectionEdgeId s) (entities s) (affectedBy s) v.

(** *** recordEntityInteraction *)

(** [e.affectedBy] for the entity [e]; an entity starts with an empty set. *)
Definition affected (e : Z) (m : gmap Z (gset nat)) : gset nat :=
  default ∅ (m !! e).

(** One turn of [for (let player of e1.affectedBy)]. *)
Definition add_player (e : Z) (acc : gmap Z (gset nat) * bool) (player : nat)
  : gmap Z (gset nat) * bool :=
  let (m, keepGoing) := acc in
  if decide (player ∈ affected e m) then (m, keepGoing)
  else (<[e := {[player]} ∪ affected e m]> m, true).

Definition add_players (e1 e : Z) (m : gmap Z (gset nat)) : gmap Z (gset nat) * bool :=
  fold_left (add_player e) (elements (affected e1 m)) (m, false).

(** The closure [propagate]. Its recursion is not structural: [fuel] bounds
    the depth of the calls, and [None] means the bound was reached. *)
Fixpoint propagate (fuel : nat) (graph : list AffectionEdge) (e1 e : Z)
  (m : gmap Z (gset nat)) : option (gmap Z (gset nat)) :=
  match fuel with
  | O => None
  | S fuel' =>
      let (m1, keepGoing) := add_players e1 e m in
      if keepGoing then
        fold_left
          (fun acc edge =>
             match acc with
             | None => None
             | Some m' =>
                 if e_from edge =? e then propagate fuel' graph e1 (e_to edge) m'
                 else Some m'
             end)
          graph (Some m1)
      else Some m1
  end.

Definition recordEntityInteraction (fuel : nat) (e1 e2 : Z) (s : GameState)
  : option GameState :=
  let edge := mkEdge (nextAffectionEdgeId s) e1 e2 (gs_frame s) in
  let s := set_nextAffectionEdgeId (nextAffectionEdgeId s + 1) s in
  let s := set_affectionGraph (affectionGraph s ++ [edge]) s in
  match propagate fuel (affectionGraph s) e1 e2 (affectedBy s) with
  | Some m => Some (set_affectedBy m s)
  | None => None
  end.

(** *** get lastRestartFrame *)

(** The loop of the getter; [None] is [-Infinity]. *)
Fixpoint lastRestartFrame_loop (frames : list Z) (cur : Z) (restartFrame : option Z)
  : option Z :=
  match frames with
  | [] => restartFrame
  | r :: rest =>
      if r >? cur then restartFrame
      else lastRestartFrame_loop rest cur (Some r)
  end.

Definition lastRestartFrame (s : GameState) : option Z :=
  lastRestartFrame_loop (restartFrames s) (gs_frame s) None.

(** *** createInitialUpdate, getLastEntityUpdate *)

Definition createInitialUpdate (entity : Entity) : EntityUpdate :=
  mkUpdate (-1) (id entity) 0 None.

Definition getLastEntityUpdate (entity : Entity) (upToFrame : Z) (s : GameState)
  : EntityUpdate :=
  let history := dm_get (id entity) (stateHistory s) in
  let update :=
    match findLast (fun x => frame x <=? upToFrame) history with
    | Some u => u
    | None => createInitialUpdate entity
    end in
  match lastRestartFrame s with
  | Some r =>
      if restartable entity && (frame update <? r)
      then mkUpdate (-1) (id entity) r None
      else update
  | None => update   (* nothing is below -Infinity *)
  end.

(** *** saveStates *)

(** [if (Util.last(arr)?.frame === this.frame) arr.pop();] *)
Definition drop_same_frame {T} (fr : T -> Z) (cur : Z) (arr : list T) : list T :=
  match last arr with
  | Some x => if fr x =? cur then removelast arr else arr
  | None => arr
  end.

Definition set_stateNeedsStore (v : bool) (e : Entity) : Entity :=
  mkEntity (id e) (restartable e) v (internalStateNeedsStore e) (body e).

Definition set_internalStateNeedsStore (v : bool) (e : Entity) : Entity :=
  mkEntity (id e) (restartable e) (stateNeedsStore e) v (body e).

(** The two halves of the loop body of [saveStates], for [game.entities[i]]. *)
Definition save_state (i : nat) (s : GameState) : GameState :=
  match entities s !! i with
  | None => s
  | Some entity =>
      if stateNeedsStore entity then
        let arr := dm_get (id entity) (stateHistory s) in
        let arr := drop_same_frame frame (gs_frame s) arr in
        let stateUpdate :=
          mkUpdate (nextUpdateId s) (id entity) (gs_frame s) (Some (getState entity)) in
        let s := set_nextUpdateId (nextUpdateId s + 1) s in
        let s := set_stateHistory
                   (dm_set (id entity) (arr ++ [stateUpdate]) (stateHistory s)) s in
        set_entities (<[i := set_stateNeedsStore false entity]> (entities s)) s
      else s
  end.

Definition save_internal_state (i : nat) (s : GameState) : GameState :=
  match entities s !! i with
  | None => s
  | Some entity =>
      if internalStateNeedsStore entity then
        let arr := dm_get (id entity) (internalStateHistory s) in
        let arr := drop_same_frame i_frame (gs_frame s) arr in
        let entry :=
          mkInternal (if Z.of_nat (length arr) =? 0 then -1 else gs_frame s)
                     (getInternalState entity) in
        let s := set_internalStateHistory
                   (dm_set (id entity) (arr ++ [entry]) (internalStateHistory s)) s in
        set_entities (<[i := set_internalStateNeedsStore false entity]> (entities s)) s
      else s
  end.

Definition saveStates_entity (s : GameState) (i : nat) : GameState :=
  save_internal_state i (save_state i s).

Definition saveStates (s : GameState) : GameState :=
  fold_left saveStates_entity (seq 0 (length (entities s))) s.

(** *** rollBackEntityToFrame, rollBackToFrame *)

(** [game.getEntityById]: the index in [game.entities] and the entity. *)
Fixpoint getEntityById_from (i : nat) (k : Z) (es : list Entity) : option (nat * Entity) :=
  match es with
  | [] => None
  | e :: rest => if id e =? k then Some (i, e) else getEntityById_from (S i) k rest
  end.

Definition getEntityById (k : Z) (s : GameState) : option (nat * Entity) :=
  getEntityById_from 0 k (entities s).

(** [None] is the TypeError that the code raises when it dereferences
    [undefined] (an id without entity, an emptied internal history). *)
Definition rollBackEntityToFrame (ie : nat * Entity) (fr : Z) (s : GameState)
  : GameState :=
  let (i, entity) := ie in
  let history := dm_get (id entity) (stateHistory s) in
  let (history', popped) := pop_while (fun u => frame u >? fr) history in
  let s := set_stateHistory (dm_set (id entity) history' (stateHistory s)) s in
  if negb popped then s
  else
    let update := getLastEntityUpdate entity fr s in
    let st := match state update with
              | Some st => Some st
              | None => getInitialState entity
              end in
    match st with
    | None => s
    | Some st =>
        set_entities (<[i := loadState entity st (frame update) false]> (entities s)) s
    end.

Definition rollBack_internal (target : Z) (s : option GameState) (entityId : Z)
  : option GameState :=
  match s with
  | None => None
  | Some s =>
      let history := dm_get entityId (internalStateHistory s) in
      let (history', popped) := pop_while (fun x => i_frame x >? target) history in
      let s := set_internalStateHistory
                 (dm_set entityId history' (internalStateHistory s)) s in
      if negb popped then Some s
      else
        match getEntityById entityId s, last history' with
        | Some (i, entity), Some l =>
            Some (set_entities
                    (<[i := loadInternalState entity (i_state l) (i_frame l)]> (entities s)) s)
        | _, _ => None
        end
  end.

Definition rollBack_external (target : Z) (s : option GameState) (entityId : Z)
  : option GameState :=
  match s with
  | None => None
  | Some s =>
      match getEntityById entityId s with
      | Some ie => Some (rollBackEntityToFrame ie target s)
      | None => None
      end
  end.

Definition rollBackToFrame (target : Z) (s : GameState) : option GameState :=
  if target =? gs_frame s then Some s
  else
    let s := set_frame target s in
    let s := set_affectionGraph
               (fst (pop_while (fun e => e_frame e >? target) (affectionGraph s))) s in
    (* let helpMessages = G.menu.hud.alerts; *)
    let helpMessages' := alerts (hud s) in
    let s := set_hud (mkHud (helpMessages (hud s))
                            (fst (pop_while (fun m => m_frame m >? target) helpMessages'))) s in
    (* let alerts = G.menu.hud.alerts; *)
    let alerts' := alerts (hud s) in
    let s := set_hud (mkHud (helpMessages (hud s))
                            (fst (pop_while (fun m => m_frame m >? target) alerts'))) s in
    let s1 := fold_left (rollBack_internal target)
                (map fst (internalStateHistory s)) (Some s) in
    match s1 with
    | None => None
    | Some s1 =>
        match fold_left (rollBack_external target) (map fst (stateHistory s1)) (Some s1) with
        | None => None
        | Some s2 => Some (saveStates s2)
        end
    end.


(* --------------------------------------------------------------------- *)
(** *** Properties of the state history *)
(* --------------------------------------------------------------------- *)

Definition strictly_increasing (l : list Z) : Prop :=
  forall (i j : nat) (x y : Z),
    l !! i = Some x -> l !! j = Some y -> (i < j)%nat -> x < y.

(** The recorded frames of the entity [k]. *)
Definition history_frames (k : Z) (s : GameState) : list Z :=
  map frame (dm_get k (stateHistory s)).

Lemma strictly_increasing_nil : strictly_increasing [].
Proof. intros i j x y Hi. by rewrite lookup_nil in Hi. Qed.

Lemma strictly_increasing_app_l (l1 l2 : list Z) :
  strictly_increasing (l1 ++ l2) -> strictly_increasing l1.
Proof.
  intros H i j x y Hi Hj Hij.
  apply (H i j); [by apply lookup_app_l_Some | by apply lookup_app_l_Some | done].
Qed.

Lemma strictly_increasing_snoc (l : list Z) (x : Z) :
  strictly_increasing (l ++ [x]) <->
  strictly_increasing l /\ Forall (fun y => y < x) l.
Proof.
  split.
  - intros H. split; [by eapply strictly_increasing_app_l|].
    apply Forall_lookup_2. intros i y Hi.
    apply (H i (length l)); [by apply lookup_app_l_Some | |by eapply lookup_lt_Some].
    by rewrite list_lookup_middle.
  - intros [Hl Hall] i j a b Hi Hj Hij.
    assert (j < length (l ++ [x]))%nat as Hjlen by by eapply lookup_lt_Some.
    rewrite length_app in Hjlen. simpl in Hjlen.
    assert (l !! i = Some a) as Hi'.
    { rewrite lookup_app_l in Hi; [done | lia]. }
    destruct (decide (j = length l)) as [->|Hne].
    + rewrite list_lookup_middle in Hj; [|done]. injection Hj as <-.
      by eapply (Forall_lookup_1 _ _ _ _ Hall).
    + rewrite lookup_app_l in Hj; [|lia]. by eapply Hl.
Qed.

Lemma strictly_increasing_NoDup (l : list Z) : strictly_increasing l -> NoDup l.
Proof.
  intros H. apply NoDup_alt. intros i j x Hi Hj.
  destruct (Nat.lt_trichotomy i j) as [Hlt|[->|Hgt]]; [|done|].
  - specialize (H i j x x Hi Hj Hlt). lia.
  - specialize (H j i x x Hj Hi Hgt). lia.
Qed.

(** A history whose frames increase strictly and do not exceed [cur]. *)
Definition history_ok (cur : Z) (h : list EntityUpdate) : Prop :=
  strictly_increasing (map frame h) /\ Forall (fun u => frame u <= cur) h.

Lemma history_ok_nil (cur : Z) : history_ok cur [].
Proof. split; [apply strictly_increasing_nil | constructor]. Qed.

Lemma history_ok_below (cur : Z) (h : list EntityUpdate) (x : EntityUpdate) :
  history_ok cur (h ++ [x]) -> Forall (fun u => frame u < frame x) h.
Proof.
  intros [Hinc _]. rewrite map_app in Hinc. simpl in Hinc.
  apply strictly_increasing_snoc in Hinc as [_ Hall].
  by apply Forall_map in Hall.
Qed.

(** Recording an update for the current frame keeps the history in order:
    an entry of the same frame is replaced. *)
Lemma history_ok_push (cur : Z) (h : list EntityUpdate) (u : EntityUpdate) :
  frame u = cur ->
  history_ok cur h ->
  history_ok cur (drop_same_frame frame cur h ++ [u]).
Proof.
  intros Hu Hok. unfold drop_same_frame.
  destruct h as [|x h _] using rev_ind.
  - simpl. split.
    + simpl. intros i j a b Hi Hj Hij. destruct i, j; simpl in *; try done; lia.
    + constructor; [lia | constructor].
  - rewrite last_snoc.
    pose proof (history_ok_below _ _ _ Hok) as Hbelow.
    destruct Hok as [Hinc Hle].
    assert (frame x <= cur) as Hx.
    { apply Forall_app in Hle as [_ Hle]. by inversion Hle. }
    destruct (frame x =? cur) eqn:Heq.
    + apply Z.eqb_eq in Heq. rewrite removelast_last. split.
      * rewrite map_app. simpl. apply strictly_increasing_snoc. split.
        -- rewrite map_app in Hinc. by eapply strictly_increasing_app_l.
        -- apply Forall_map. eapply Forall_impl; [exact Hbelow|].
           simpl. intros; lia.
      * apply Forall_app. split.
        -- by apply Forall_app in Hle as [Hle _].
        -- constructor; [lia | constructor].
    + apply Z.eqb_neq in Heq. split.
      * rewrite map_app. simpl. apply strictly_increasing_snoc. split; [done|].
        apply Forall_map. apply Forall_app. split.
        -- eapply Forall_impl; [exact Hbelow|]. simpl. intros; lia.
        -- constructor; [simpl; lia | constructor].
      * apply Forall_app. split; [done|]. constructor; [lia | constructor].
Qed.

(** Popping the entries above [target] from an ordered history leaves an
    ordered history with no entry above [target]. *)
Lemma history_ok_truncate (target : Z) (h : list EntityUpdate) :
  strictly_increasing (map frame h) ->
  history_ok target (fst (pop_while (fun u => frame u >? target) h)).
Proof.
  intros Hinc.
  destruct (pop_while_spec (fun u => frame u >? target) h)
    as (removed & Heq & _ & Hlast & _).
  set (h' := fst (pop_while (fun u => frame u >? target) h)) in *.
  assert (strictly_increasing (map frame h')) as Hinc'.
  { rewrite Heq, map_app in Hinc. by eapply strictly_increasing_app_l. }
  split; [done|].
  destruct h' as [|x h' _] using rev_ind; [constructor|].
  specialize (Hlast x). rewrite last_snoc in Hlast. specialize (Hlast eq_refl).
  rewrite Z.gtb_ltb in Hlast. apply Z.ltb_ge in Hlast.
  rewrite map_app in Hinc'. simpl in Hinc'.
  apply strictly_increasing_snoc in Hinc' as [_ Hall].
  apply Forall_app. split.
  - apply Forall_map in Hall. eapply Forall_impl; [exact Hall|]. simpl. intros; lia.
  - constructor; [done | constructor].
Qed.

Lemma dm_get_set {T} (k k' : Z) (v : list T) (m : DefaultMap T) :
  dm_get k (dm_set k' v m) = if k' =? k then v else dm_get k m.
Proof.
  induction m as [|[k0 v0] m IH]; simpl; [done|].
  destruct (Z.eqb_spec k0 k') as [->|Hne]; simpl.
  - by destruct (k' =? k).
  - rewrite IH. destruct (Z.eqb_spec k0 k) as [->|Hne2]; [|done].
    destruct (Z.eqb_spec k' k); [congruence | done].
Qed.

Lemma dm_get_absent {T} (k : Z) (m : DefaultMap T) :
  k ∉ map fst m -> dm_get k m = [].
Proof.
  induction m as [|[k0 v0] m IH]; simpl; [done|].
  intros Hnot. apply not_elem_of_cons in Hnot as [Hne Hnot].
  destruct (k0 =? k) eqn:H0; [apply Z.eqb_eq in H0; congruence | by apply IH].
Qed.

Lemma dm_set_keys {T} (k : Z) (v : list T) (m : DefaultMap T) :
  k ∈ map fst m -> map fst (dm_set k v m) = map fst m.
Proof.
  induction m as [|[k0 v0] m IH]; simpl; [by intros ?%elem_of_nil|].
  intros Hin. destruct (k0 =? k) eqn:H0; simpl; [done|].
  apply elem_of_cons in Hin as [->|Hin]; [by rewrite Z.eqb_refl in H0|].
  by rewrite IH.
Qed.


(** Every history is ordered and lies at or below the current frame. *)
Definition histories_ok (s : GameState) : Prop :=
  forall k, history_ok (gs_frame s) (dm_get k (stateHistory s)).

Definition histories_ordered (s : GameState) : Prop :=
  forall k, strictly_increasing (history_frames k s).

Lemma fold_left_preserves {S I} (P : S -> Prop) (f : S -> I -> S) (l : list I) (s : S) :
  (forall s i, P s -> P (f s i)) -> P s -> P (fold_left f l s).
Proof.
  intros Hf. revert s. induction l as [|i l IH]; intros s Hs; simpl; [done|].
  apply IH. by apply Hf.
Qed.

Lemma fold_left_None {S I} (f : option S -> I -> option S) (l : list I) :
  (forall i, f None i = None) -> fold_left f l None = None.
Proof. intros Hf. induction l as [|i l IH]; simpl; [done|]. by rewrite Hf. Qed.

(** **** saveStates *)

Lemma save_state_frame (i : nat) (s : GameState) :
  gs_frame (save_state i s) = gs_frame s.
Proof.
  unfold save_state. destruct (entities s !! i) as [e|]; [|done].
  by destruct (stateNeedsStore e).
Qed.

Lemma save_internal_state_frame (i : nat) (s : GameState) :
  gs_frame (save_internal_state i s) = gs_frame s
  /\ stateHistory (save_internal_state i s) = stateHistory s
  /\ hud (save_internal_state i s) = hud s.
Proof.
  unfold save_internal_state. destruct (entities s !! i) as [e|]; [|done].
  by destruct (internalStateNeedsStore e).
Qed.

Lemma save_state_ok (i : nat) (s : GameState) :
  histories_ok s -> histories_ok (save_state i s).
Proof.
  intros Hok. unfold save_state.
  destruct (entities s !! i) as [e|]; [|done].
  destruct (stateNeedsStore e); [|done].
  intros k. simpl. rewrite dm_get_set.
  destruct (id e =? k); [|apply Hok].
  apply history_ok_push; [done | apply Hok].
Qed.

Lemma saveStates_entity_ok (s : GameState) (i : nat) :
  histories_ok s -> histories_ok (saveStates_entity s i).
Proof.
  intros Hok k. unfold saveStates_entity.
  destruct (save_internal_state_frame i (save_state i s)) as (-> & -> & _).
  by apply save_state_ok.
Qed.

Lemma saveStates_ok (s : GameState) : histories_ok s -> histories_ok (saveStates s).
Proof. apply fold_left_preserves. apply saveStates_entity_ok. Qed.

Lemma saveStates_entity_frame (s : GameState) (i : nat) :
  gs_frame (saveStates_entity s i) = gs_frame s.
Proof.
  unfold saveStates_entity.
  destruct (save_internal_state_frame i (save_state i s)) as (-> & _).
  apply save_state_frame.
Qed.

Lemma saveStates_frame (s : GameState) : gs_frame (saveStates s) = gs_frame s.
Proof.
  unfold saveStates.
  apply (fold_left_preserves (fun s' => gs_frame s' = gs_frame s)); [|done].
  intros s' i <-. apply saveStates_entity_frame.
Qed.

Lemma save_state_hud (i : nat) (s : GameState) : hud (save_state i s) = hud s.
Proof.
  unfold save_state. destruct (entities s !! i) as [e|]; [|done].
  by destruct (stateNeedsStore e).
Qed.

Lemma saveStates_hud (s : GameState) : hud (saveStates s) = hud s.
Proof.
  unfold saveStates.
  apply (fold_left_preserves (fun s' => hud s' = hud s)); [|done].
  intros s' i <-. unfold saveStates_entity.
  destruct (save_internal_state_frame i (save_state i s')) as (_ & _ & ->).
  apply save_state_hud.
Qed.

(** **** rollBackToFrame *)

Lemma getEntityById_from_id (i0 : nat) (k : Z) (es : list Entity) (i : nat) (e : Entity) :
  getEntityById_from i0 k es = Some (i, e) -> id e = k.
Proof.
  revert i0. induction es as [|e0 es IH]; intros i0; simpl; [done|].
  destruct (Z.eqb_spec (id e0) k); [by intros [= _ <-] | apply IH].
Qed.

Lemma rollBack_internal_keeps (target : Z) (ks : list Z) (s s' : GameState) :
  fold_left (rollBack_internal target) ks (Some s) = Some s' ->
  gs_frame s' = gs_frame s /\ stateHistory s' = stateHistory s /\ hud s' = hud s.
Proof.
  revert s. induction ks as [|k ks IH]; intros s; simpl.
  - by intros [= ->].
  - destruct (pop_while _ _) as [h' popped]. destruct popped; simpl.
    + destruct (getEntityById k _) as [[i e]|];
        [|by rewrite fold_left_None].
      destruct (last h') as [l|]; [|by rewrite fold_left_None].
      intros H. by apply IH in H.
    + intros H. by apply IH in H.
Qed.

Lemma rollBackEntityToFrame_keeps (i : nat) (e : Entity) (target : Z) (s : GameState) :
  let s' := rollBackEntityToFrame (i, e) target s in
  gs_frame s' = gs_frame s
  /\ hud s' = hud s
  /\ stateHistory s'
     = dm_set (id e)
         (fst (pop_while (fun u => frame u >? target) (dm_get (id e) (stateHistory s))))
         (stateHistory s).
Proof.
  unfold rollBackEntityToFrame.
  destruct (pop_while _ _) as [h' popped]. simpl.
  destruct popped; simpl; [|done].
  match goal with |- context [match ?x with Some _ => _ | None => _ end] =>
    destruct x end; done.
Qed.

Lemma rollBack_external_ok (target : Z) (ks : list Z) (s s' : GameState) :
  fold_left (rollBack_external target) ks (Some s) = Some s' ->
  histories_ordered s ->
  gs_frame s' = gs_frame s
  /\ hud s' = hud s
  /\ histories_ordered s'
  /\ forall k, k ∈ ks \/ Forall (fun u => frame u <= target) (dm_get k (stateHistory s)) ->
               history_ok target (dm_get k (stateHistory s')).
Proof.
  revert s. induction ks as [|k0 ks IH]; intros s; simpl.
  - intros [= ->] Hord. split_and!; try done.
    intros k [Hin|Hall]; [by apply elem_of_nil in Hin|].
    split; [apply Hord | done].
  - unfold getEntityById.
    destruct (getEntityById_from 0 k0 (entities s)) as [[i e]|] eqn:Hget;
      [|by rewrite fold_left_None].
    apply getEntityById_from_id in Hget.
    destruct (rollBackEntityToFrame_keeps i e target s) as (Hfr & Hhud & Hhist).
    set (s1 := rollBackEntityToFrame (i, e) target s) in *.
    intros Hfold Hord.
    assert (forall k, dm_get k (stateHistory s1)
                      = if k0 =? k
                        then fst (pop_while (fun u => frame u >? target)
                                    (dm_get k0 (stateHistory s)))
                        else dm_get k (stateHistory s)) as Hget1.
    { intros k. rewrite Hhist, dm_get_set, Hget. done. }
    assert (histories_ordered s1) as Hord1.
    { intros k. unfold history_frames. rewrite Hget1.
      destruct (k0 =? k); [|apply Hord].
      apply history_ok_truncate, Hord. }
    destruct (IH s1 Hfold Hord1) as (Hfr' & Hhud' & Hord' & Hall').
    split_and!; [congruence | congruence | done |].
    intros k Hk. apply Hall'.
    destruct (decide (k ∈ ks)) as [|Hnotin]; [by left | right].
    rewrite Hget1. destruct (Z.eqb_spec k0 k) as [->|Hne].
    + apply history_ok_truncate, Hord.
    + destruct Hk as [Hin|Hall]; [|done].
      apply elem_of_cons in Hin as [->|Hin]; done.
Qed.

Lemma rollBackToFrame_frame (target : Z) (s s' : GameState) :
  rollBackToFrame target s = Some s' -> gs_frame s' = target.
Proof.
  unfold rollBackToFrame.
  destruct (Z.eqb_spec target (gs_frame s)) as [->|Hne]; [by intros [= ->]|].
  match goal with |- context [fold_left (rollBack_internal target) ?ks (Some ?s0)] =>
    destruct (fold_left (rollBack_internal target) ks (Some s0)) as [s1|] eqn:H1;
    [|done]; apply rollBack_internal_keeps in H1 as (Hf1 & Hh1 & _) end.
  destruct (fold_left (rollBack_external target) _ _) as [s2|] eqn:H2; [|done].
  intros [= <-]. rewrite saveStates_frame.
  revert H2. generalize (map fst (stateHistory s1)). intros ks H2.
  assert (gs_frame s2 = gs_frame s1) as ->; [|done].
  clear -H2. revert s1 H2. induction ks as [|k ks IH]; intros s1; simpl.
  - by intros [= ->].
  - destruct (getEntityById k s1) as [[i e]|]; [|by rewrite fold_left_None].
    intros H. apply IH in H. rewrite H.
    by destruct (rollBackEntityToFrame_keeps i e target s1) as (-> & _).
Qed.

Lemma rollBackToFrame_ok (target : Z) (s s' : GameState) :
  rollBackToFrame target s = Some s' -> histories_ok s -> histories_ok s'.
Proof.
  unfold rollBackToFrame.
  destruct (Z.eqb_spec target (gs_frame s)) as [->|Hne]; [by intros [= ->]|].
  match goal with |- context [fold_left (rollBack_internal target) ?ks (Some ?s0)] =>
    destruct (fold_left (rollBack_internal target) ks (Some s0)) as [s1|] eqn:H1;
    [|done]; apply rollBack_internal_keeps in H1 as (Hf1 & Hh1 & _) end.
  simpl in Hf1, Hh1.
  destruct (fold_left (rollBack_external target) _ _) as [s2|] eqn:H2; [|done].
  intros [= <-] Hok. apply saveStates_ok.
  assert (histories_ordered s1) as Hord1.
  { intros k. unfold history_frames. rewrite Hh1. apply Hok. }
  destruct (rollBack_external_ok _ _ _ _ H2 Hord1) as (Hfr & _ & _ & Hall).
  intros k. rewrite Hfr, Hf1. apply Hall.
  destruct (decide (k ∈ map fst (stateHistory s1))) as [|Hnotin]; [by left | right].
  by rewrite dm_get_absent.
Qed.

(** The states the game can be in: it starts at frame -1 with no history;
    [saveStates] and [rollBackToFrame] are the methods that write the
    history; everything else (the simulator advancing the frame, entities
    ticking and asking for a store, the HUD, [recordEntityInteraction])
    leaves the history alone and does not move the frame backwards. *)
Inductive reachable : GameState -> Prop :=
| reach_init s :
    gs_frame s = -1 -> stateHistory s = [] -> reachable s
| reach_saveStates s :
    reachable s -> reachable (saveStates s)
| reach_rollBackToFrame s target s' :
    reachable s -> rollBackToFrame target s = Some s' -> reachable s'
| reach_other s s' :
    reachable s -> gs_frame s <= gs_frame s' -> stateHistory s' = stateHistory s ->
    reachable s'.

Lemma reachable_ok (s : GameState) : reachable s -> histories_ok s.
Proof.
  induction 1 as [s Hf Hh | s _ IH | s target s' _ IH Hrb | s s' _ IH Hle Hh].
  - intros k. rewrite Hh. apply history_ok_nil.
  - by apply saveStates_ok.
  - by eapply rollBackToFrame_ok.
  - intros k. rewrite Hh. destruct (IH k) as [Hinc Hall]. split; [done|].
    eapply Forall_impl; [exact Hall|]. simpl. intros; lia.
Qed.

(** **** What saveStates records *)

(** In an ordered history at or below the current frame, the entry that
    [saveStates] pops is the one of the current frame. *)
Lemma drop_same_frame_filter (cur : Z) (h : list EntityUpdate) :
  history_ok cur h ->
  drop_same_frame frame cur h = filter (fun u => frame u < cur) h.
Proof.
  intros Hok. unfold drop_same_frame.
  destruct h as [|x h _] using rev_ind; [done|].
  rewrite last_snoc, filter_app.
  pose proof (history_ok_below _ _ _ Hok) as Hbelow.
  destruct Hok as [_ Hle]. apply Forall_app in Hle as [_ Hx].
  rewrite Forall_singleton in Hx.
  assert (filter (fun u => frame u < cur) h = h) as ->.
  { clear -Hbelow Hx. induction Hbelow as [|u h Hu _ IH]; [done|].
    rewrite filter_cons_True by (simpl in *; lia). by rewrite IH. }
  destruct (Z.eqb_spec (frame x) cur) as [Heq|Hne].
  - rewrite removelast_last, filter_cons_False by (simpl; lia). by rewrite app_nil_r.
  - by rewrite filter_cons_True by (simpl; lia).
Qed.

Lemma map_id_insert (es : list Entity) (i : nat) (e e' : Entity) :
  es !! i = Some e -> id e' = id e -> map id (<[i := e']> es) = map id es.
Proof.
  intros He Hid. rewrite list_fmap_insert, Hid. apply list_insert_id.
  by rewrite list_lookup_fmap, He.
Qed.

(** One turn of the loop of [saveStates]. *)
Lemma saveStates_entity_step (st : GameState) (j : nat) :
  let st' := saveStates_entity st j in
  gs_frame st' = gs_frame st
  /\ map id (entities st') = map id (entities st)
  /\ (forall j', j' <> j -> entities st' !! j' = entities st !! j')
  /\ nextUpdateId st'
     = nextUpdateId st
       + match entities st !! j with
         | Some e => if stateNeedsStore e then 1 else 0
         | None => 0
         end
  /\ (forall k, map id (entities st) !! j <> Some k ->
                dm_get k (stateHistory st') = dm_get k (stateHistory st))
  /\ (forall e, entities st !! j = Some e -> stateNeedsStore e = true ->
        dm_get (id e) (stateHistory st')
        = drop_same_frame frame (gs_frame st) (dm_get (id e) (stateHistory st))
          ++ [mkUpdate (nextUpdateId st) (id e) (gs_frame st) (Some (getState e))]).
Proof.
  intros st'.
  assert (let s1 := save_state j st in
          gs_frame s1 = gs_frame st
          /\ map id (entities s1) = map id (entities st)
          /\ (forall j', j' <> j -> entities s1 !! j' = entities st !! j')
          /\ nextUpdateId s1
             = nextUpdateId st
               + match entities st !! j with
                 | Some e => if stateNeedsStore e then 1 else 0
                 | None => 0
                 end
          /\ (forall k, map id (entities st) !! j <> Some k ->
                        dm_get k (stateHistory s1) = dm_get k (stateHistory st))
          /\ (forall e, entities st !! j = Some e -> stateNeedsStore e = true ->
                dm_get (id e) (stateHistory s1)
                = drop_same_frame frame (gs_frame st) (dm_get (id e) (stateHistory st))
                  ++ [mkUpdate (nextUpdateId st) (id e) (gs_frame st)
                        (Some (getState e))])) as Hs1.
  { unfold save_state. rewrite list_lookup_fmap.
    destruct (entities st !! j) as [e|] eqn:He; simpl.
    - destruct (stateNeedsStore e) eqn:Hst; simpl.
      + split_and!; try done.
        * by apply (map_id_insert _ _ e).
        * intros j' Hj'. by rewrite list_lookup_insert_ne.
        * intros k Hk. rewrite dm_get_set.
          destruct (Z.eqb_spec (id e) k) as [Heq|]; [by rewrite Heq in Hk | done].
        * intros e' [= <-] _. by rewrite dm_get_set, Z.eqb_refl.
      + split_and!; try done; [lia | congruence].
    - split_and!; try done; lia. }
  assert (let s2 := save_internal_state j (save_state j st) in
          map id (entities s2) = map id (entities (save_state j st))
          /\ (forall j', j' <> j ->
                entities s2 !! j' = entities (save_state j st) !! j')
          /\ nextUpdateId s2 = nextUpdateId (save_state j st)) as Hs2.
  { unfold save_internal_state.
    destruct (entities (save_state j st) !! j) as [e|] eqn:He; [|done].
    destruct (internalStateNeedsStore e); [|done]. simpl.
    split_and!; [by apply (map_id_insert _ _ e) | | done].
    intros j' Hj'. by rewrite list_lookup_insert_ne. }
  destruct (save_internal_state_frame j (save_state j st)) as (Hf & Hh & _).
  unfold st', saveStates_entity. cbv zeta in Hs1, Hs2.
  destruct Hs1 as (F1 & I1 & E1 & N1 & K1 & R1). destruct Hs2 as (I2 & E2 & N2).
  rewrite Hf, Hh, I2, N2. split_and!; try done.
  intros j' Hj'. by rewrite E2, E1.
Qed.

(** The turns for entities other than the one with id [k]. *)
Lemma saveStates_fold_others (l : list nat) (k : Z) (st : GameState) :
  (forall j, j ∈ l -> map id (entities st) !! j <> Some k) ->
  let st' := fold_left saveStates_entity l st in
  dm_get k (stateHistory st') = dm_get k (stateHistory st)
  /\ gs_frame st' = gs_frame st
  /\ map id (entities st') = map id (entities st).
Proof.
  revert st. induction l as [|j l IH]; intros st Hl; [done|].
  cbn [fold_left].
  destruct (saveStates_entity_step st j) as (F & I & _ & _ & K & _).
  destruct (IH (saveStates_entity st j)) as (-> & -> & ->).
  - intros j' Hj'. rewrite I. apply Hl. by right.
  - split_and!; [|done|done]. apply K, Hl. by left.
Qed.

(** The turns before the one of the entity number [j]. *)
Lemma saveStates_fold_prefix (s : GameState) (j : nat) :
  (j <= length (entities s))%nat ->
  let st := fold_left saveStates_entity (seq 0 j) s in
  nextUpdateId st
  = nextUpdateId s
    + Z.of_nat (length (List.filter stateNeedsStore (take j (entities s))))
  /\ (forall j', (j <= j')%nat -> entities st !! j' = entities s !! j').
Proof.
  induction j as [|j IH]; intros Hj.
  - simpl. split; [lia | done].
  - rewrite seq_S, fold_left_app. cbn [fold_left Nat.add].
    destruct IH as [IHn IHe]; [lia|].
    destruct (saveStates_entity_step (fold_left saveStates_entity (seq 0 j) s) j)
      as (_ & _ & E & N & _).
    rewrite IHe in N by done.
    destruct (lookup_lt_is_Some_2 (entities s) j ltac:(lia)) as [e He].
    rewrite He in N. rewrite (take_S_r _ _ _ He), List.filter_app, length_app.
    split.
    + rewrite N, IHn. simpl. destruct (stateNeedsStore e); simpl; lia.
    + intros j' Hj'. rewrite E by lia. apply IHe. lia.
Qed.

(** What [saveStates] records for an entity that asks for a store, the ids
    of the entities being distinct: the entry of the current frame, if the
    history ends with one, is dropped, and the new update is appended; its
    [updateId] is the next id, after those given to the entities before. *)
Lemma saveStates_records (s : GameState) (i : nat) (entity : Entity) :
  NoDup (map id (entities s)) ->
  entities s !! i = Some entity -> stateNeedsStore entity = true ->
  dm_get (id entity) (stateHistory (saveStates s))
  = drop_same_frame frame (gs_frame s) (dm_get (id entity) (stateHistory s))
    ++ [mkUpdate
          (nextUpdateId s
           + Z.of_nat (length (List.filter stateNeedsStore (take i (entities s)))))
          (id entity) (gs_frame s) (Some (getState entity))].
Proof.
  intros Hnd He Hst.
  pose proof (lookup_lt_Some _ _ _ He) as Hi.
  assert (forall j, j <> i -> map id (entities s) !! j <> Some (id entity)) as Hother.
  { intros j Hj Hk. apply Hj. eapply (NoDup_lookup (map id (entities s))); [done..|].
    by rewrite list_lookup_fmap, He. }
  unfold saveStates.
  replace (length (entities s)) with (i + S (length (entities s) - S i))%nat by lia.
  rewrite seq_app, fold_left_app. cbn [seq fold_left Nat.add].
  destruct (saveStates_fold_prefix s i ltac:(lia)) as [N1 E1].
  destruct (saveStates_fold_others (seq 0 i) (id entity) s) as (H1 & F1 & I1).
  { intros j Hj%elem_of_seq. apply Hother. lia. }
  set (s1 := fold_left saveStates_entity (seq 0 i) s) in *.
  destruct (saveStates_entity_step s1 i) as (F2 & I2 & _ & _ & _ & R2).
  specialize (R2 entity). rewrite E1 in R2 by done. specialize (R2 He Hst).
  set (s2 := saveStates_entity s1 i) in *.
  destruct (saveStates_fold_others (seq (S i) (length (entities s) - S i))
              (id entity) s2) as (-> & _).
  { intros j Hj%elem_of_seq. rewrite I2, I1. apply Hother. lia. }
  by rewrite R2, H1, F1, N1.
Qed.

(** C4. In every reachable state the frames of an entity's recorded state
    history increase strictly, so no frame has two recorded updates; and
    [saveStates] replaces the entry of the current frame: for an entity
    that asks for a store (the ids of the entities being distinct) the
    history after [saveStates] is the entries of the earlier frames
    followed by the new update of the current frame. *)
Theorem history_frames_strictly_increasing (s : GameState) (k : Z) :
  reachable s ->
  strictly_increasing (history_frames k s)
  /\ NoDup (history_frames k s)
  /\ (forall i entity,
        NoDup (map id (entities s)) ->
        entities s !! i = Some entity -> stateNeedsStore entity = true ->
        dm_get (id entity) (stateHistory (saveStates s))
        = filter (fun u => frame u < gs_frame s)
            (dm_get (id entity) (stateHistory s))
          ++ [mkUpdate
                (nextUpdateId s
                 + Z.of_nat (length (List.filter stateNeedsStore
                                       (take i (entities s)))))
                (id entity) (gs_frame s) (Some (getState entity))]).
Proof.
  intros Hr. pose proof (reachable_ok s Hr) as Hok.
  destruct (Hok k) as [Hinc _].
  split_and!; [done | by apply strictly_increasing_NoDup |].
  intros i entity Hnd He Hst.
  rewrite (saveStates_records s i entity Hnd He Hst).
  by rewrite (drop_same_frame_filter _ _ (Hok (id entity))).
Qed.

(** C5. [rollBackToFrame(target)] does nothing when [target] is the current
    frame, and rolling back to the same frame twice in a row gives what
    rolling back once gives. *)
Theorem rollBackToFrame_idempotent (s : GameState) (target : Z) :
  rollBackToFrame (gs_frame s) s = Some s
  /\ (rollBackToFrame target s ≫= rollBackToFrame target) = rollBackToFrame target s.
Proof.
  split.
  - unfold rollBackToFrame. by rewrite Z.eqb_refl.
  - destruct (rollBackToFrame target s) as [s'|] eqn:H; simpl; [|done].
    apply rollBackToFrame_frame in H.
    unfold rollBackToFrame. by rewrite H, Z.eqb_refl.
Qed.


(* --------------------------------------------------------------------- *)
(** *** getLastEntityUpdate *)
(* --------------------------------------------------------------------- *)

(** The claim's wording, for comparison with the code: the restart that
    counts is the most recent one at or before [upToFrame]. *)
Definition lastRestartFrame_upTo (upToFrame : Z) (s : GameState) : option Z :=
  lastRestartFrame_loop (restartFrames s) upToFrame None.

Definition getLastEntityUpdate_claimed (entity : Entity) (upToFrame : Z) (s : GameState)
  : EntityUpdate :=
  let history := dm_get (id entity) (stateHistory s) in
  let update :=
    match findLast (fun x => frame x <=? upToFrame) history with
    | Some u => u
    | None => createInitialUpdate entity
    end in
  match lastRestartFrame_upTo upToFrame s with
  | Some r =>
      if restartable entity && (frame update <? r)
      then mkUpdate (-1) (id entity) r None
      else update
  | None => update
  end.

(** [found] is the most recently recorded update of [history] whose frame is
    at most [upToFrame], or the initial update when there is none. *)
Definition most_recent_upTo (history : list EntityUpdate) (upToFrame : Z)
  (entity : Entity) (found : EntityUpdate) : Prop :=
  (exists before after,
      history = before ++ found :: after
      /\ frame found <= upToFrame
      /\ Forall (fun x => upToFrame < frame x) after)
  \/ (Forall (fun x => upToFrame < frame x) history
      /\ found = createInitialUpdate entity).

(** [r] is the greatest restart frame that is at most [cur]. *)
Definition latest_restart (frames : list Z) (cur : Z) (r : Z) : Prop :=
  r ∈ frames /\ r <= cur /\ forall r', r' ∈ frames -> r' <= cur -> r' <= r.

Lemma lastRestartFrame_loop_findLast (frames : list Z) (cur : Z) (acc : option Z) :
  StronglySorted Z.le frames ->
  lastRestartFrame_loop frames cur acc
  = match findLast (fun r => r <=? cur) frames with
    | Some r => Some r
    | None => acc
    end.
Proof.
  intros Hs. revert acc. induction Hs as [|r rest Hs IH Hall]; intros acc; simpl; [done|].
  rewrite Z.gtb_ltb. destruct (Z.ltb_spec cur r) as [Hlt|Hge].
  - assert (findLast (fun r0 => r0 <=? cur) rest = None) as ->.
    { apply findLast_None. eapply Forall_impl; [exact Hall|].
      simpl. intros x Hx. apply Z.leb_gt. lia. }
    assert ((r <=? cur) = false) as -> by (apply Z.leb_gt; lia). done.
  - rewrite IH. destruct (findLast _ rest); [done|].
    assert ((r <=? cur) = true) as -> by (apply Z.leb_le; lia). done.
Qed.

Lemma StronglySorted_before (before after : list Z) (r x : Z) :
  StronglySorted Z.le (before ++ r :: after) -> x ∈ before -> x <= r.
Proof.
  induction before as [|b before IH]; simpl; intros Hs Hin.
  - by apply elem_of_nil in Hin.
  - inversion Hs as [|? ? Hs' Hall]; subst.
    apply elem_of_cons in Hin as [->|Hin]; [|by apply IH].
    rewrite Forall_forall in Hall. apply Hall. set_solver.
Qed.

Lemma lastRestartFrame_loop_latest (frames : list Z) (cur : Z) :
  Sorted Z.le frames ->
  match lastRestartFrame_loop frames cur None with
  | Some r => latest_restart frames cur r
  | None => Forall (fun r => cur < r) frames
  end.
Proof.
  intros Hs. apply Sorted_StronglySorted in Hs; [|intros x y z; lia].
  rewrite lastRestartFrame_loop_findLast by done.
  destruct (findLast _ frames) as [r|] eqn:Hf.
  - apply findLast_Some in Hf as (before & after & -> & Hr & Hafter).
    apply Z.leb_le in Hr. split_and!; [set_solver | done |].
    intros r' Hin Hle.
    apply elem_of_app in Hin as [Hin|Hin].
    + by eapply StronglySorted_before.
    + apply elem_of_cons in Hin as [->|Hin]; [lia|].
      rewrite Forall_forall in Hafter.
      specialize (Hafter _ Hin). simpl in Hafter. apply Z.leb_gt in Hafter. lia.
  - apply findLast_None in Hf. eapply Forall_impl; [exact Hf|].
    simpl. intros x Hx. by apply Z.leb_gt in Hx.
Qed.

Lemma findLast_most_recent (history : list EntityUpdate) (upToFrame : Z) (entity : Entity) :
  most_recent_upTo history upToFrame entity
    match findLast (fun x => frame x <=? upToFrame) history with
    | Some u => u
    | None => createInitialUpdate entity
    end.
Proof.
  destruct (findLast _ history) as [u|] eqn:Hf.
  - left. apply findLast_Some in Hf as (before & after & -> & Hu & Hafter).
    exists before, after. split_and!; [done | by apply Z.leb_le |].
    eapply Forall_impl; [exact Hafter|]. simpl. intros x Hx. by apply Z.leb_gt in Hx.
  - right. split; [|done]. apply findLast_None in Hf.
    eapply Forall_impl; [exact Hf|]. simpl. intros x Hx. by apply Z.leb_gt in Hx.
Qed.

(** C2, as the code has it. The update returned is the most recently
    recorded one with [frame <= upToFrame], or the initial update (updateId
    -1, frame 0, state null) when there is none; when the entity is
    restartable and that update's frame lies before the latest restart frame
    at or before the CURRENT frame of the game state, the result is the
    initial update with its frame set to that restart frame. *)
Theorem getLastEntityUpdate_current_restart
  (entity : Entity) (upToFrame : Z) (s : GameState) :
  Sorted Z.le (restartFrames s) ->
  exists found,
    most_recent_upTo (dm_get (id entity) (stateHistory s)) upToFrame entity found
    /\ ((exists r, latest_restart (restartFrames s) (gs_frame s) r
                   /\ restartable entity = true /\ frame found < r
                   /\ getLastEntityUpdate entity upToFrame s
                      = mkUpdate (-1) (id entity) r None)
        \/ ((restartable entity = false
             \/ forall r, r ∈ restartFrames s -> r <= gs_frame s -> r <= frame found)
            /\ getLastEntityUpdate entity upToFrame s = found)).
Proof.
  intros Hs. unfold getLastEntityUpdate.
  pose proof (findLast_most_recent (dm_get (id entity) (stateHistory s)) upToFrame entity)
    as Hfound.
  set (found := match findLast _ _ with Some u => u | None => _ end) in *.
  exists found. split; [done|].
  pose proof (lastRestartFrame_loop_latest _ (gs_frame s) Hs) as Hlatest.
  unfold lastRestartFrame. destruct (lastRestartFrame_loop _ _ None) as [r|].
  - destruct (restartable entity) eqn:Hre; simpl.
    + destruct (Z.ltb_spec (frame found) r) as [Hlt|Hge].
      * left. exists r. by split_and!.
      * right. split; [|done]. right. intros r' Hin Hle.
        destruct Hlatest as (_ & _ & Hmax). specialize (Hmax r' Hin Hle). lia.
    + right. split; [by left | done].
  - right. split; [|done]. right. intros r Hin Hle.
    rewrite Forall_forall in Hlatest.
    specialize (Hlatest r Hin). simpl in Hlatest. lia.
Qed.

(* --------------------------------------------------------------------- *)
(** *** recordEntityInteraction terminates *)
(* --------------------------------------------------------------------- *)

Lemma affected_insert (e n : Z) (X : gset nat) (m : gmap Z (gset nat)) :
  affected n (<[e := X]> m) = if decide (e = n) then X else affected n m.
Proof.
  unfold affected. destruct (decide (e = n)) as [->|Hne].
  - by rewrite lookup_insert_eq.
  - by rewrite lookup_insert_ne.
Qed.

Lemma add_player_fold (e : Z) (l : list nat) (m : gmap Z (gset nat)) (b : bool) :
  exists m' b',
    fold_left (add_player e) l (m, b) = (m', b')
    /\ affected e m' = affected e m ∪ list_to_set l
    /\ (forall n, n <> e -> affected n m' = affected n m)
    /\ (b' = true <-> b = true \/ ¬ (list_to_set l ⊆ affected e m))
    /\ (list_to_set l ⊆ affected e m -> m' = m).
Proof.
  revert m b. induction l as [|p l IH]; intros m b; simpl.
  - exists m, b. split_and!; [done | set_solver | done | | done].
    split; [by left | intros [?|H]; [done | set_solver]].
  - destruct (decide (p ∈ affected e m)) as [Hin|Hnotin].
    + destruct (IH m b) as (m' & b' & -> & Haff & Hoth & Hb & Hsame).
      exists m', b'. split_and!; [done | set_solver | done | | set_solver].
      rewrite Hb. split; (intros [?|H]; [by left | right; set_solver]).
    + destruct (IH (<[e := {[p]} ∪ affected e m]> m) true)
        as (m' & b' & -> & Haff & Hoth & Hb & Hsame).
      rewrite affected_insert in Haff, Hb. rewrite decide_True in Haff, Hb by done.
      exists m', b'. split_and!; [done | set_solver | | | set_solver].
      * intros n Hn. rewrite Hoth by done. rewrite affected_insert.
        by rewrite decide_False.
      * split; [intros _; right; set_solver | intros _; apply Hb; by left].
Qed.

Lemma add_players_spec (e1 e : Z) (m : gmap Z (gset nat)) :
  exists m' keepGoing,
    add_players e1 e m = (m', keepGoing)
    /\ affected e m' = affected e m ∪ affected e1 m
    /\ (forall n, n <> e -> affected n m' = affected n m)
    /\ (keepGoing = true <-> ¬ (affected e1 m ⊆ affected e m))
    /\ (keepGoing = false -> m' = m).
Proof.
  unfold add_players.
  destruct (add_player_fold e (elements (affected e1 m)) m false)
    as (m' & b' & Heq & Haff & Hoth & Hb & Hsame).
  rewrite list_to_set_elements_L in Haff, Hb, Hsame.
  exists m', b'. split_and!; try done.
  - rewrite Hb. split; [by intros [?|?] | by right].
  - intros ->. apply Hsame.
    destruct (decide (affected e1 m ⊆ affected e m)) as [|Hn]; [done|].
    assert (false = true) by (apply Hb; by right). done.
Qed.

(** The entities the flood can visit: the target of the interaction and the
    targets of the edges. *)
Definition flood_nodes (graph : list AffectionEdge) (e2 : Z) : list Z :=
  e2 :: map e_to graph.

(** How many of them do not yet hold all players of [P]. *)
Definition unsaturated (P : gset nat) (nodes : list Z) (m : gmap Z (gset nat)) : nat :=
  length (filter (fun n => ¬ (P ⊆ affected n m)) nodes).

Lemma unsaturated_mono (P : gset nat) (nodes : list Z) (m m' : gmap Z (gset nat)) :
  (forall n, affected n m ⊆ affected n m') ->
  (unsaturated P nodes m' <= unsaturated P nodes m)%nat.
Proof.
  intros Hsub. unfold unsaturated. induction nodes as [|n nodes IH]; simpl; [done|].
  rewrite !filter_cons.
  destruct (decide (¬ P ⊆ affected n m')) as [H'|H'];
    destruct (decide (¬ P ⊆ affected n m)) as [H|H]; simpl; try lia.
  exfalso. apply H'. apply dec_stable in H. specialize (Hsub n). set_solver.
Qed.

Lemma unsaturated_decrease (P : gset nat) (nodes : list Z) (m m' : gmap Z (gset nat)) (e : Z) :
  (forall n, affected n m ⊆ affected n m') ->
  e ∈ nodes -> ¬ (P ⊆ affected e m) -> P ⊆ affected e m' ->
  (unsaturated P nodes m' < unsaturated P nodes m)%nat.
Proof.
  intros Hsub Hin Hbefore Hafter. unfold unsaturated.
  induction nodes as [|n nodes IH]; [by apply elem_of_nil in Hin|].
  rewrite !filter_cons.
  pose proof (unsaturated_mono P nodes m m' Hsub) as Hmono. unfold unsaturated in Hmono.
  destruct (decide (n = e)) as [->|Hne].
  - rewrite decide_False by (intros H; by apply H).
    rewrite decide_True by done. simpl. lia.
  - apply elem_of_cons in Hin as [->|Hin]; [done|]. specialize (IH Hin).
    destruct (decide (¬ P ⊆ affected n m')) as [H'|H'];
      destruct (decide (¬ P ⊆ affected n m)) as [H|H]; simpl; try lia.
    exfalso. apply H'. apply dec_stable in H. specialize (Hsub n). set_solver.
Qed.

Lemma propagate_S (fuel : nat) (graph : list AffectionEdge) (e1 e : Z)
  (m : gmap Z (gset nat)) :
  propagate (S fuel) graph e1 e m
  = let (m1, keepGoing) := add_players e1 e m in
    if keepGoing then
      fold_left
        (fun acc edge =>
           match acc with
           | None => None
           | Some m' =>
               if e_from edge =? e then propagate fuel graph e1 (e_to edge) m'
               else Some m'
           end)
        graph (Some m1)
    else Some m1.
Proof. reflexivity. Qed.

Section Flood.

Variable graph : list AffectionEdge.
Variable e1 e2 : Z.
Variable P : gset nat.

Let nodes := flood_nodes graph e2.

Lemma propagate_terminates (k : nat) :
  forall e m,
    affected e1 m = P -> e ∈ nodes -> (unsaturated P nodes m <= k)%nat ->
    exists m',
      propagate (S k) graph e1 e m = Some m'
      /\ affected e1 m' = P
      /\ (forall n, affected n m ⊆ affected n m')
      /\ P ⊆ affected e m'.
Proof.
  induction k as [|k IH]; intros e m HP Hin Hk.
  - (* no unsaturated node: the visit adds nobody *)
    simpl. destruct (add_players_spec e1 e m)
      as (m1 & keepGoing & -> & Haff & Hoth & Hkg & Hsame).
    destruct keepGoing.
    + exfalso. destruct Hkg as [Hkg _]. specialize (Hkg eq_refl). rewrite HP in Hkg.
      assert (forall n, affected n m ⊆ affected n m1) as Hsub1.
      { intros n. destruct (decide (n = e)) as [->|Hne]; [set_solver|].
        by rewrite Hoth. }
      assert (P ⊆ affected e m1) as Hsat1 by set_solver.
      pose proof (unsaturated_decrease P nodes m m1 e Hsub1 Hin Hkg Hsat1). lia.
    + specialize (Hsame eq_refl) as ->. exists m. split_and!; try done.
      destruct (decide (P ⊆ affected e m)) as [|Hn]; [done|].
      destruct Hkg as [_ Hkg]. rewrite HP in Hkg. by specialize (Hkg Hn).
  - rewrite propagate_S. destruct (add_players_spec e1 e m)
      as (m1 & keepGoing & -> & Haff & Hoth & Hkg & Hsame).
    assert (forall n, affected n m ⊆ affected n m1) as Hsub1.
    { intros n. destruct (decide (n = e)) as [->|Hne]; [set_solver|].
      by rewrite Hoth. }
    assert (affected e1 m1 = P) as HP1.
    { destruct (decide (e1 = e)) as [<-|Hne]; [set_solver | by rewrite Hoth]. }
    assert (P ⊆ affected e m1) as Hsat1 by set_solver.
    destruct keepGoing; cbv beta iota.
    + destruct Hkg as [Hkg _]. specialize (Hkg eq_refl). rewrite HP in Hkg.
      pose proof (unsaturated_decrease P nodes m m1 e Hsub1 Hin Hkg Hsat1) as Hlt.
      assert (unsaturated P nodes m1 <= k)%nat as Hk1 by lia.
      clear Hlt Hk Hkg Hsame Haff Hoth.
      (* the loop over the edges *)
      assert (forall g m0,
                 Forall (fun edge => e_to edge ∈ nodes) g ->
                 affected e1 m0 = P ->
                 (unsaturated P nodes m0 <= k)%nat ->
                 exists m',
                   fold_left
                     (fun acc edge =>
                        match acc with
                        | None => None
                        | Some m' =>
                            if e_from edge =? e
                            then propagate (S k) graph e1 (e_to edge) m'
                            else Some m'
                        end) g (Some m0) = Some m'
                   /\ affected e1 m' = P
                   /\ (forall n, affected n m0 ⊆ affected n m')) as Hloop.
      { induction g as [|edge g IHg]; intros m0 Hg HP0 Hk0; cbn [fold_left].
        - by exists m0.
        - apply Forall_cons in Hg as [Hedge Hg'].
          destruct (e_from edge =? e).
          + destruct (IH (e_to edge) m0 HP0 Hedge Hk0) as (m2 & -> & HP2 & Hsub2 & _).
            destruct (IHg m2 Hg' HP2) as (m3 & -> & HP3 & Hsub3).
            { pose proof (unsaturated_mono P nodes m0 m2 Hsub2). lia. }
            exists m3. split_and!; [done | done |].
            intros n. specialize (Hsub2 n). specialize (Hsub3 n). set_solver.
          + by apply IHg. }
      destruct (Hloop graph m1) as (m' & -> & HP' & Hsub'); [|done|done|].
      { apply Forall_forall. intros edge Hedge. unfold nodes, flood_nodes.
        apply elem_of_cons. right. by apply list_elem_of_fmap_2. }
      exists m'. split_and!; [done | done | |].
      * intros n. specialize (Hsub1 n). specialize (Hsub' n). set_solver.
      * specialize (Hsub' e). set_solver.
    + specialize (Hsame eq_refl) as ->. by exists m.
Qed.

End Flood.

(** C8. [recordEntityInteraction] terminates on every affection graph,
    cyclic or not: a call depth of the number of edges plus three is never
    exceeded, and when it returns the target entity holds every player of
    the source entity. *)
Theorem recordEntityInteraction_terminates (e1 e2 : Z) (s : GameState) :
  exists bound : nat,
    forall fuel, (bound <= fuel)%nat ->
      exists s',
        recordEntityInteraction fuel e1 e2 s = Some s'
        /\ affected e1 (affectedBy s) ⊆ affected e2 (affectedBy s').
Proof.
  exists (length (affectionGraph s) + 3)%nat. intros fuel Hfuel.
  destruct fuel as [|k]; [lia|].
  unfold recordEntityInteraction.
  cbn [affectionGraph affectedBy set_affectionGraph set_nextAffectionEdgeId].
  set (graph := affectionGraph s ++ [_]).
  destruct (propagate_terminates graph e1 e2 (affected e1 (affectedBy s)) k e2 (affectedBy s))
    as (m' & -> & _ & _ & Hsat); [done | | |].
  - unfold flood_nodes. apply elem_of_cons. by left.
  - unfold unsaturated. etrans; [apply length_filter|].
    unfold flood_nodes, graph. simpl. rewrite length_map, length_app. simpl. lia.
  - by exists (set_affectedBy m' (set_affectionGraph graph
                 (set_nextAffectionEdgeId (nextAffectionEdgeId s + 1) s))).
Qed.

(** The help messages are never touched by a rollback: the variable
    [helpMessages] of [rollBackToFrame] is bound to [G.menu.hud.alerts]. *)
Lemma rollBack_external_hud (target : Z) (ks : list Z) (s s' : GameState) :
  fold_left (rollBack_external target) ks (Some s) = Some s' -> hud s' = hud s.
Proof.
  revert s. induction ks as [|k ks IH]; intros s; simpl.
  - by intros [= ->].
  - destruct (getEntityById k s) as [[i e]|]; [|by rewrite fold_left_None].
    intros H. apply IH in H. rewrite H.
    by destruct (rollBackEntityToFrame_keeps i e target s) as (_ & -> & _).
Qed.

Lemma rollBackToFrame_keeps_helpMessages (target : Z) (s s' : GameState) :
  rollBackToFrame target s = Some s' ->
  helpMessages (hud s') = helpMessages (hud s).
Proof.
  unfold rollBackToFrame.
  destruct (Z.eqb_spec target (gs_frame s)) as [->|Hne]; [by intros [= ->]|].
  match goal with |- context [fold_left (rollBack_internal target) ?ks (Some ?s0)] =>
    destruct (fold_left (rollBack_internal target) ks (Some s0)) as [s1|] eqn:H1;
    [|done]; apply rollBack_internal_keeps in H1 as (_ & _ & Hh1) end.
  destruct (fold_left (rollBack_external target) _ _) as [s2|] eqn:H2; [|done].
  apply rollBack_external_hud in H2.
  intros [= <-]. by rewrite saveStates_hud, H2, Hh1.
Qed.


(* --------------------------------------------------------------------- *)
(** *** Further properties of rollBackToFrame, saveStates and
        recordEntityInteraction *)
(* --------------------------------------------------------------------- *)

(** An array that does not end in an element to pop is left as it is. *)
Lemma pop_while_stable {A} (p : A -> bool) (arr : list A) :
  (forall x, last arr = Some x -> p x = false) -> pop_while p arr = (arr, false).
Proof.
  destruct arr as [|x arr _] using rev_ind; [done|].
  intros Hlast. rewrite pop_while_snoc, (Hlast x); [done|]. by rewrite last_snoc.
Qed.

Lemma pop_while_idempotent {A} (p : A -> bool) (arr : list A) :
  fst (pop_while p (fst (pop_while p arr))) = fst (pop_while p arr).
Proof.
  destruct (pop_while_spec p arr) as (removed & _ & _ & Hlast & _).
  by rewrite (pop_while_stable p _ Hlast).
Qed.

(** What [pop_while] leaves of an array, and of an array in order. *)
Lemma pop_while_frames {A} (fr : A -> Z) (target : Z) (arr : list A) :
  let kept := fst (pop_while (fun x => fr x >? target) arr) in
  (exists removed,
      arr = kept ++ removed /\ Forall (fun x => target < fr x) removed)
  /\ (forall x, last kept = Some x -> fr x <= target)
  /\ ((forall i j a b, arr !! i = Some a -> arr !! j = Some b -> (i < j)%nat ->
                       fr a <= fr b) ->
      Forall (fun x => fr x <= target) kept).
Proof.
  intros kept.
  destruct (pop_while_spec (fun x => fr x >? target) arr)
    as (removed & Heq & Hall & Hlast & _).
  fold kept in Heq, Hlast.
  assert (forall x, last kept = Some x -> fr x <= target) as Hlast'.
  { intros x Hx. specialize (Hlast x Hx). simpl in Hlast. lia. }
  split_and!.
  - exists removed. split; [done|].
    eapply Forall_impl; [exact Hall|]. simpl. intros; lia.
  - done.
  - intros Hsorted. apply Forall_lookup_2. intros i a Ha.
    destruct kept as [|l kept' _] using rev_ind; [by rewrite lookup_nil in Ha|].
    specialize (Hlast' l). rewrite last_snoc in Hlast'. specialize (Hlast' eq_refl).
    destruct (decide (i = length kept')) as [->|Hne].
    + rewrite list_lookup_middle in Ha by done. by injection Ha as <-.
    + pose proof (lookup_lt_Some _ _ _ Ha) as Hi.
      rewrite length_app in Hi. simpl in Hi.
      assert (fr a <= fr l); [|lia].
      apply (Hsorted i (length kept') a l); [| |lia].
      * rewrite Heq. by apply lookup_app_l_Some.
      * rewrite Heq. apply lookup_app_l_Some. by rewrite list_lookup_middle.
Qed.

Lemma rollBack_internal_graph (target : Z) (ks : list Z) (s s' : GameState) :
  fold_left (rollBack_internal target) ks (Some s) = Some s' ->
  affectionGraph s' = affectionGraph s.
Proof.
  revert s. induction ks as [|k ks IH]; intros s; simpl.
  - by intros [= ->].
  - destruct (pop_while _ _) as [h' popped]. destruct popped; simpl.
    + destruct (getEntityById k _) as [[i e]|];
        [|by rewrite fold_left_None].
      destruct (last h') as [l|]; [|by rewrite fold_left_None].
      intros H. by apply IH in H.
    + intros H. by apply IH in H.
Qed.

Lemma rollBackEntityToFrame_graph (i : nat) (e : Entity) (target : Z) (s : GameState) :
  affectionGraph (rollBackEntityToFrame (i, e) target s) = affectionGraph s.
Proof.
  unfold rollBackEntityToFrame.
  destruct (pop_while _ _) as [h' popped]. simpl.
  destruct popped; simpl; [|done].
  match goal with |- context [match ?x with Some _ => _ | None => _ end] =>
    destruct x end; done.
Qed.

Lemma rollBack_external_graph (target : Z) (ks : list Z) (s s' : GameState) :
  fold_left (rollBack_external target) ks (Some s) = Some s' ->
  affectionGraph s' = affectionGraph s.
Proof.
  revert s. induction ks as [|k ks IH]; intros s; simpl.
  - by intros [= ->].
  - destruct (getEntityById k s) as [[i e]|]; [|by rewrite fold_left_None].
    intros H. apply IH in H. rewrite H. apply rollBackEntityToFrame_graph.
Qed.

Lemma saveStates_graph (s : GameState) :
  affectionGraph (saveStates s) = affectionGraph s.
Proof.
  unfold saveStates.
  apply (fold_left_preserves (fun s' => affectionGraph s' = affectionGraph s)); [|done].
  intros s' i <-. unfold saveStates_entity, save_internal_state, save_state.
  destruct (entities s' !! i) as [e|] eqn:He; rewrite ?He.
  - destruct (stateNeedsStore e); simpl.
    + rewrite list_lookup_insert_eq by (by eapply lookup_lt_Some). simpl.
      by destruct (internalStateNeedsStore e).
    + rewrite He. by destruct (internalStateNeedsStore e).
  - done.
Qed.

(** A completed rollback to another frame sets the frame, pops from the
    affection graph and from the alerts the entries above the target at
    their ends (all entries above the target, when the frames are in
    order), and leaves the help messages as they are. *)
Theorem rollBackToFrame_truncates (target : Z) (s s' : GameState) :
  rollBackToFrame target s = Some s' -> target <> gs_frame s ->
  gs_frame s' = target
  /\ affectionGraph s'
     = fst (pop_while (fun e => e_frame e >? target) (affectionGraph s))
  /\ alerts (hud s') = fst (pop_while (fun m => m_frame m >? target) (alerts (hud s)))
  /\ helpMessages (hud s') = helpMessages (hud s)
  /\ (exists removed,
         affectionGraph s = affectionGraph s' ++ removed
         /\ Forall (fun e => target < e_frame e) removed)
  /\ (forall e, last (affectionGraph s') = Some e -> e_frame e <= target)
  /\ ((forall i j a b,
          affectionGraph s !! i = Some a -> affectionGraph s !! j = Some b ->
          (i < j)%nat -> e_frame a <= e_frame b) ->
      Forall (fun e => e_frame e <= target) (affectionGraph s'))
  /\ (exists removed,
         alerts (hud s) = alerts (hud s') ++ removed
         /\ Forall (fun m => target < m_frame m) removed)
  /\ (forall m, last (alerts (hud s')) = Some m -> m_frame m <= target)
  /\ ((forall i j a b,
          alerts (hud s) !! i = Some a -> alerts (hud s) !! j = Some b ->
          (i < j)%nat -> m_frame a <= m_frame b) ->
      Forall (fun m => m_frame m <= target) (alerts (hud s'))).
Proof.
  intros Hrb Hne.
  pose proof (rollBackToFrame_frame _ _ _ Hrb) as Hframe.
  pose proof (rollBackToFrame_keeps_helpMessages _ _ _ Hrb) as Hhelp.
  assert (affectionGraph s'
          = fst (pop_while (fun e => e_frame e >? target) (affectionGraph s))
          /\ alerts (hud s')
             = fst (pop_while (fun m => m_frame m >? target) (alerts (hud s))))
    as [Hgraph Halerts].
  { revert Hrb. unfold rollBackToFrame.
    destruct (Z.eqb_spec target (gs_frame s)) as [|_]; [done|].
    match goal with |- context [fold_left (rollBack_internal target) ?ks (Some ?s0)] =>
      destruct (fold_left (rollBack_internal target) ks (Some s0)) as [s1|] eqn:H1;
      [|done];
      pose proof (rollBack_internal_graph _ _ _ _ H1) as Hg1;
      apply rollBack_internal_keeps in H1 as (_ & _ & Hh1) end.
    destruct (fold_left (rollBack_external target) _ _) as [s2|] eqn:H2; [|done].
    pose proof (rollBack_external_graph _ _ _ _ H2) as Hg2.
    apply rollBack_external_hud in H2.
    intros [= <-]. rewrite saveStates_graph, saveStates_hud, Hg2, H2, Hg1, Hh1.
    cbn [affectionGraph hud alerts helpMessages set_hud set_affectionGraph set_frame].
    by rewrite pop_while_idempotent. }
  destruct (pop_while_frames e_frame target (affectionGraph s)) as (G1 & G2 & G3).
  destruct (pop_while_frames m_frame target (alerts (hud s))) as (A1 & A2 & A3).
  cbv zeta in G1, G2, G3, A1, A2, A3.
  rewrite <- Hgraph in G1, G2, G3. rewrite <- Halerts in A1, A2, A3.
  by split_and!.
Qed.

(** **** saveStates, twice *)

Definition nothing_to_store (s : GameState) : Prop :=
  Forall (fun e => stateNeedsStore e = false /\ internalStateNeedsStore e = false)
    (entities s).

Lemma saveStates_entity_nothing (s : GameState) (i : nat) :
  nothing_to_store s -> saveStates_entity s i = s.
Proof.
  intros Hs. unfold saveStates_entity, save_internal_state, save_state.
  destruct (entities s !! i) as [e|] eqn:He; rewrite ?He; [|done].
  destruct (Forall_lookup_1 _ _ _ _ Hs He) as [-> Hint]. by rewrite He, Hint.
Qed.

Lemma saveStates_nothing (s : GameState) : nothing_to_store s -> saveStates s = s.
Proof.
  intros Hs. unfold saveStates. generalize (seq 0 (length (entities s))).
  intros l. induction l as [|i l IH]; [done|].
  cbn [fold_left]. by rewrite saveStates_entity_nothing.
Qed.

Lemma saveStates_entity_flags (st : GameState) (j : nat) (e' : Entity) :
  entities (saveStates_entity st j) !! j = Some e' ->
  stateNeedsStore e' = false /\ internalStateNeedsStore e' = false.
Proof.
  unfold saveStates_entity, save_internal_state, save_state.
  destruct (entities st !! j) as [e|] eqn:He; rewrite ?He; [|done].
  pose proof (lookup_lt_Some _ _ _ He) as Hj.
  destruct (stateNeedsStore e) eqn:Hst; simpl.
  - rewrite list_lookup_insert_eq by done. simpl.
    destruct (internalStateNeedsStore e) eqn:Hint; simpl.
    + rewrite list_lookup_insert_eq by (by rewrite length_insert).
      by intros [= <-].
    + rewrite list_lookup_insert_eq by done. by intros [= <-].
  - rewrite He. destruct (internalStateNeedsStore e) eqn:Hint; simpl.
    + rewrite list_lookup_insert_eq by done. by intros [= <-].
    + rewrite He. by intros [= <-].
Qed.

Lemma saveStates_fold_flags (s : GameState) (j : nat) :
  (j <= length (entities s))%nat ->
  let st := fold_left saveStates_entity (seq 0 j) s in
  length (entities st) = length (entities s)
  /\ forall i e, (i < j)%nat -> entities st !! i = Some e ->
                 stateNeedsStore e = false /\ internalStateNeedsStore e = false.
Proof.
  induction j as [|j IH]; intros Hj.
  - simpl. split; [done | intros; lia].
  - rewrite seq_S, fold_left_app. cbn [fold_left Nat.add].
    destruct IH as [IHl IHf]; [lia|].
    set (st := fold_left saveStates_entity (seq 0 j) s) in *.
    destruct (saveStates_entity_step st j) as (_ & I & E & _).
    split.
    + rewrite <- IHl. rewrite <- (length_map id), I. apply length_map.
    + intros i e Hi He. destruct (decide (i = j)) as [->|Hne].
      * by apply (saveStates_entity_flags st j).
      * rewrite E in He by done. apply (IHf i); [lia | done].
Qed.

(** After [saveStates] no entity asks for a store, and a second
    [saveStates] (nothing having asked for a store in between) changes
    nothing: no update id is used up and no history is touched. *)
Theorem saveStates_idempotent (s : GameState) :
  nothing_to_store (saveStates s)
  /\ saveStates (saveStates s) = saveStates s
  /\ (nothing_to_store s -> saveStates s = s).
Proof.
  assert (nothing_to_store (saveStates s)) as Hdone.
  { destruct (saveStates_fold_flags s (length (entities s)) ltac:(lia)) as [Hlen Hflags].
    apply Forall_lookup_2. intros i e He. apply (Hflags i e); [|done].
    apply lookup_lt_Some in He. unfold saveStates in He. lia. }
  split_and!; [done | by apply saveStates_nothing | apply saveStates_nothing].
Qed.

(** **** recordEntityInteraction *)


End WithEntities.

(* --------------------------------------------------------------------- *)
(** *** getHuntPoints *)

(** An element of [game.shapes]: a gem, with the marbles that picked it up
    (by id, in the order of [pickUpHistory]) and its point value, or a shape
    of another class. *)
Inductive Shape : Type :=
| Gem (pickUpHistory : list Z) (pointValue : Z)
| OtherShape.

(** [points.get(marble)] on the [DefaultMap<Marble, number>(() => 0)]. *)
Definition points_get (marble : Z) (points : gmap Z Z) : Z :=
  default 0 (points !! marble).

(** [for (let marble of gem.pickUpHistory)
       points.set(marble, points.get(marble) + gem.pointValue);] *)
Definition add_points (pointValue : Z) (points : gmap Z Z) (marble : Z) : gmap Z Z :=
  <[marble := points_get marble points + pointValue]> points.

(** [isHunt] is [this.game.mode === GameMode.Hunt]. *)
Definition getHuntPoints (isHunt : bool) (shapes : list Shape) : gmap Z Z :=
  if negb isHunt then ∅
  else
    fold_left
      (fun points shape =>
         match shape with
         | Gem pickUpHistory pointValue =>
             fold_left (add_points pointValue) pickUpHistory points
         | OtherShape => points
         end)
      shapes ∅.

(** How often [marble] picked up the gem, times the value of the gem. *)
Definition gem_points (marble : Z) (shape : Shape) : Z :=
  match shape with
  | Gem pickUpHistory pointValue =>
      Z.of_nat (length (filter (fun m => m = marble) pickUpHistory)) * pointValue
  | OtherShape => 0
  end.

Fixpoint total_points (marble : Z) (shapes : list Shape) : Z :=
  match shapes with
  | [] => 0
  | shape :: rest => gem_points marble shape + total_points marble rest
  end.

Lemma add_points_fold (pointValue : Z) (history : list Z) (points : gmap Z Z) (marble : Z) :
  points_get marble (fold_left (add_points pointValue) history points)
  = points_get marble points
    + Z.of_nat (length (filter (fun m => m = marble) history)) * pointValue.
Proof.
  revert points. induction history as [|m history IH]; intros points.
  - simpl. lia.
  - cbn [fold_left]. rewrite IH, filter_cons.
    assert (points_get marble (add_points pointValue points m)
            = points_get marble points + (if decide (m = marble) then pointValue else 0))
      as ->.
    { unfold add_points, points_get. destruct (decide (m = marble)) as [->|Hne].
      - by rewrite lookup_insert_eq.
      - rewrite lookup_insert_ne by done. lia. }
    destruct (decide (m = marble)); cbn [length]; lia.
Qed.

Lemma getHuntPoints_fold (shapes : list Shape) (points : gmap Z Z) (marble : Z) :
  points_get marble
    (fold_left
       (fun points shape =>
          match shape with
          | Gem pickUpHistory pointValue =>
              fold_left (add_points pointValue) pickUpHistory points
          | OtherShape => points
          end)
       shapes points)
  = points_get marble points + total_points marble shapes.
Proof.
  revert points. induction shapes as [|shape shapes IH]; intros points.
  - simpl. lia.
  - cbn [fold_left total_points]. rewrite IH. destruct shape as [history value|].
    + rewrite add_points_fold. unfold gem_points. lia.
    + unfold gem_points. lia.
Qed.

(** In hunt mode the points of a marble are the sum, over the gems, of the
    value of the gem for each time the marble picked it up; shapes that are
    not gems count for nothing, and outside hunt mode every marble has 0
    points. *)
Theorem getHuntPoints_total (isHunt : bool) (shapes : list Shape) (marble : Z) :
  points_get marble (getHuntPoints isHunt shapes)
  = if isHunt then total_points marble shapes else 0.
Proof.
  unfold getHuntPoints. destruct isHunt; simpl; [|done].
  rewrite getHuntPoints_fold. unfold points_get. rewrite lookup_empty. simpl. lia.
Qed.

(* --------------------------------------------------------------------- *)
(** *** A concrete game: entities whose state is a number *)
(* --------------------------------------------------------------------- *)

Definition num_getState (e : @Entity Z) : Z := body e.
Definition num_getInternalState (e : @Entity Z) : Z := body e.
Definition num_getInitialState (e : @Entity Z) : option Z := Some 0.
Definition num_loadState (e : @Entity Z) (st : Z) (fr : Z) (remote : bool) : @Entity Z :=
  mkEntity (id e) (restartable e) (stateNeedsStore e) (internalStateNeedsStore e) st.
Definition num_loadInternalState (e : @Entity Z) (st : Z) (fr : Z) : @Entity Z := e.

Definition num_saveStates : @GameState Z Z Z nat -> @GameState Z Z Z nat :=
  saveStates num_getState num_getInternalState.

Definition num_rollBackToFrame : Z -> @GameState Z Z Z nat -> option (@GameState Z Z Z nat) :=
  rollBackToFrame num_getState num_getInternalState num_getInitialState
    num_loadState num_loadInternalState.

(** A marble (restartable) with one update recorded at frame 3; the game
    is at frame 10 and was restarted at frame 8. *)
Definition marble1 : @Entity Z := mkEntity 1 true false false 42.

Definition restarted_game : @GameState Z Z Z nat :=
  mkGameState 10 10 [8] [(1, [mkUpdate 0 1 3 (Some 42)])] [] [] 1 0
    [marble1] ∅ (mkHud [] []).

(** C2, counterexample. At frame 10, after a restart at frame 8, asking for
    the update of the marble up to frame 5 gives the initial update pinned
    to frame 8, although no restart lies at or before frame 5; the claim's
    reading gives the update recorded at frame 3. *)
Lemma getLastEntityUpdate_restart_counterexample :
  getLastEntityUpdate marble1 5 restarted_game = mkUpdate (-1) 1 8 None
  /\ getLastEntityUpdate_claimed marble1 5 restarted_game = mkUpdate 0 1 3 (Some 42).
Proof. split; reflexivity. Qed.

Lemma getLastEntityUpdate_current_restart_witness :
  exists found,
    most_recent_upTo (dm_get (id marble1) (stateHistory restarted_game)) 5 marble1 found
    /\ ((exists r, latest_restart (restartFrames restarted_game) (gs_frame restarted_game) r
                   /\ restartable marble1 = true /\ frame found < r
                   /\ getLastEntityUpdate marble1 5 restarted_game
                      = mkUpdate (-1) (id marble1) r None)
        \/ ((restartable marble1 = false
             \/ forall r, r ∈ restartFrames restarted_game ->
                          r <= gs_frame restarted_game -> r <= frame found)
            /\ getLastEntityUpdate marble1 5 restarted_game = found)).
Proof.
  apply (getLastEntityUpdate_current_restart marble1 5 restarted_game).
  simpl. repeat constructor.
Defined.

(** A game at frame 5 with help messages of frames 2 and 5, alerts of frames
    1 and 4 and affection edges of frames 1 and 5. *)
Definition game_with_messages : @GameState Z Z Z nat :=
  mkGameState 5 5 [] [] []
    [mkEdge 0 1 2 1; mkEdge 1 2 1 5] 0 2 []
    ∅ (mkHud [mkMessage 2 20%nat; mkMessage 5 50%nat]
             [mkMessage 1 10%nat; mkMessage 4 40%nat]).

(** C3, at the failing input. [rollBackToFrame(3)] removes the affection
    edge of frame 5 and the alert of frame 4, and leaves the help message of
    frame 5 in [hud.helpMessages]. *)
Theorem rollBackToFrame_leaves_help_message :
  exists s',
    num_rollBackToFrame 3 game_with_messages = Some s'
    /\ affectionGraph s' = [mkEdge 0 1 2 1]
    /\ alerts (hud s') = [mkMessage 1 10%nat]
    /\ helpMessages (hud s') = [mkMessage 2 20%nat; mkMessage 5 50%nat].
Proof. eexists. split; [reflexivity|]. by split_and!. Qed.

(** The game above after [rollBackToFrame(3)]. *)
Definition rolled_back : @GameState Z Z Z nat :=
  mkGameState 3 5 [] [] []
    [mkEdge 0 1 2 1] 0 2 []
    ∅ (mkHud [mkMessage 2 20%nat; mkMessage 5 50%nat]
             [mkMessage 1 10%nat]).

Lemma rollBackToFrame_truncates_witness :
  let s := game_with_messages in
  let s' := rolled_back in
  let target := 3 in
  (num_rollBackToFrame target s = Some s' /\ target <> gs_frame s)
  /\ gs_frame s' = target
  /\ affectionGraph s'
     = fst (pop_while (fun e => e_frame e >? target) (affectionGraph s))
  /\ alerts (hud s') = fst (pop_while (fun m => m_frame m >? target) (alerts (hud s)))
  /\ helpMessages (hud s') = helpMessages (hud s)
  /\ (exists removed,
         affectionGraph s = affectionGraph s' ++ removed
         /\ Forall (fun e => target < e_frame e) removed)
  /\ (forall e, last (affectionGraph s') = Some e -> e_frame e <= target)
  /\ ((forall i j a b,
          affectionGraph s !! i = Some a -> affectionGraph s !! j = Some b ->
          (i < j)%nat -> e_frame a <= e_frame b) ->
      Forall (fun e => e_frame e <= target) (affectionGraph s'))
  /\ (exists removed,
         alerts (hud s) = alerts (hud s') ++ removed
         /\ Forall (fun m => target < m_frame m) removed)
  /\ (forall m, last (alerts (hud s')) = Some m -> m_frame m <= target)
  /\ ((forall i j a b,
          alerts (hud s) !! i = Some a -> alerts (hud s) !! j = Some b ->
          (i < j)%nat -> m_frame a <= m_frame b) ->
      Forall (fun m => m_frame m <= target) (alerts (hud s'))).
Proof.
  split; [split; [reflexivity | discriminate]|].
  apply (rollBackToFrame_truncates num_getState num_getInternalState
           num_getInitialState num_loadState num_loadInternalState
           3 game_with_messages rolled_back); [reflexivity | discriminate].
Defined.

(** A run that saves twice in frame 0: the marble asks for a store, the
    states are saved, it asks again in the same frame, they are saved again. *)
Definition fresh_game : @GameState Z Z Z nat :=
  mkGameState (-1) (-1) [] [] [] [] 0 0
    [mkEntity 1 true true true 42] ∅ (mkHud [] []).

Definition ask_again (s : @GameState Z Z Z nat) : @GameState Z Z Z nat :=
  set_entities [mkEntity 1 true true true 43] s.

Definition saved_twice : @GameState Z Z Z nat :=
  num_saveStates (ask_again (num_saveStates (set_frame 0 fresh_game))).

(** The state before the second save. *)
Definition asked_again : @GameState Z Z Z nat :=
  ask_again (num_saveStates (set_frame 0 fresh_game)).

Lemma asked_again_reachable :
  reachable num_getState num_getInternalState num_getInitialState
    num_loadState num_loadInternalState asked_again.
Proof.
  apply (reach_other _ _ _ _ _ (num_saveStates (set_frame 0 fresh_game)));
    [|done|done].
  apply reach_saveStates.
  apply (reach_other _ _ _ _ _ fresh_game); [|done|done].
  by apply reach_init.
Defined.

Lemma history_frames_strictly_increasing_witness :
  (dm_get 1 (stateHistory asked_again) = [mkUpdate 0 1 0 (Some 42)]
   /\ dm_get 1 (stateHistory saved_twice) = [mkUpdate 1 1 0 (Some 43)])
  /\ strictly_increasing (history_frames 1 asked_again)
  /\ NoDup (history_frames 1 asked_again)
  /\ (forall i entity,
        NoDup (map id (entities asked_again)) ->
        entities asked_again !! i = Some entity -> stateNeedsStore entity = true ->
        dm_get (id entity) (stateHistory (num_saveStates asked_again))
        = filter (fun u => frame u < gs_frame asked_again)
            (dm_get (id entity) (stateHistory asked_again))
          ++ [mkUpdate
                (nextUpdateId asked_again
                 + Z.of_nat (length (List.filter stateNeedsStore
                                       (take i (entities asked_again)))))
                (id entity) (gs_frame asked_again) (Some (num_getState entity))]).
Proof.
  split; [split; reflexivity|].
  apply (history_frames_strictly_increasing num_getState num_getInternalState
           num_getInitialState num_loadState num_loadInternalState asked_again 1).
  exact asked_again_reachable.
Defined.

End GameState.

(* ===================================================================== *)
(** ** marble.ts: power-up pick-up and reconciliation smoothing *)
(* ===================================================================== *)

Module Marble.

(** A power-up object: its identity and its class ([powerUp.constructor]). *)
Record PowerUp : Type := mkPowerUp {
  pu_id : Z;
  pu_constructor : nat
}.

Section WithVectors.

(** Positions, orientations and the interpolation strength are floating
    point values; the code modelled here only copies and blends them, so the
    types and the blending operations are parameters. *)
Context {Vector3 Quaternion Strength : Type}.

(** [a.distanceTo(b) === 0] *)
Variable distance_is_zero : Vector3 -> Vector3 -> bool.
(** [1 - Math.pow(1 - 0.99, 1 / frames)] *)
Variable strength_for : Z -> Strength.
(** [p.addScaledVector(v, 1 / GAME_UPDATE_RATE)] *)
Variable addScaledVelocity : Vector3 -> Vector3 -> Vector3.
Variable lerp : Vector3 -> Vector3 -> Strength -> Vector3.
Variable slerp : Quaternion -> Quaternion -> Strength -> Quaternion.

Record RigidBody : Type := mkBody {
  position : Vector3;
  orientation : Quaternion;
  linearVelocity : Vector3
}.

(** The fields of [Marble] used by the modelled methods, and the state of
    the HUD's power-up button ([G.menu.hud.setPowerupButtonState]). *)
Record Marble : Type := mkMarble {
  body : RigidBody;
  heldPowerUp : option PowerUp;
  reconciliationPosition : Vector3;
  interpolatedPosition : Vector3;
  interpolatedOrientation : Quaternion;
  interpolationRemaining : Z;
  interpolationStrength : Strength;
  powerupButtonState : bool
}.

Definition set_body (b : RigidBody) (m : Marble) : Marble :=
  mkMarble b (heldPowerUp m) (reconciliationPosition m) (interpolatedPosition m)
    (interpolatedOrientation m) (interpolationRemaining m) (interpolationStrength m)
    (powerupButtonState m).

(** *** pickUpPowerUp *)

Definition pickUpPowerUp (powerUp : option PowerUp) (m : Marble) : bool * Marble :=
  match powerUp with
  | None => (false, m)
  | Some p =>
      match heldPowerUp m with
      | Some held =>
          if Nat.eqb (pu_constructor p) (pu_constructor held) then (false, m)
          else
            (true,
             mkMarble (body m) (Some p) (reconciliationPosition m)
               (interpolatedPosition m) (interpolatedOrientation m)
               (interpolationRemaining m) (interpolationStrength m) true)
      | None =>
          (true,
           mkMarble (body m) (Some p) (reconciliationPosition m)
             (interpolatedPosition m) (interpolatedOrientation m)
             (interpolationRemaining m) (interpolationStrength m) true)
      end
  end.

(** *** unequipPowerUp *)


(** *** beforeReconciliation, afterReconciliation, postUpdate *)

Definition beforeReconciliation (m : Marble) : Marble :=
  mkMarble (body m) (heldPowerUp m) (position (body m)) (interpolatedPosition m)
    (interpolatedOrientation m) (interpolationRemaining m) (interpolationStrength m)
    (powerupButtonState m).

(** [frameGap] is [game.state.frameGap]. *)
Definition afterReconciliation (frameGap : Z) (m : Marble) : Marble :=
  let frames := frameGap * 2 in
  let frames := Z.max frames 20 in
  if interpolationRemaining m >? frames then m
  else if distance_is_zero (reconciliationPosition m) (position (body m)) then m
  else
    mkMarble (body m) (heldPowerUp m) (reconciliationPosition m)
      (interpolatedPosition m) (interpolatedOrientation m)
      frames (strength_for frames) (powerupButtonState m).

Definition cancelInterpolation (m : Marble) : Marble :=
  mkMarble (body m) (heldPowerUp m) (position (body m)) (interpolatedPosition m)
    (interpolatedOrientation m) 0 (interpolationStrength m) (powerupButtonState m).

(** [isReconciling] is [game.simulator.isReconciling]. *)
Definition postUpdate (isReconciling : bool) (m : Marble) : Marble :=
  if isReconciling then m
  else
    let remaining := interpolationRemaining m in
    (* interpolationRemaining-- <= 0 *)
    if remaining <=? 0 then
      mkMarble (body m) (heldPowerUp m) (reconciliationPosition m)
        (position (body m)) (orientation (body m))
        (remaining - 1) (interpolationStrength m) (powerupButtonState m)
    else
      mkMarble (body m) (heldPowerUp m) (reconciliationPosition m)
        (lerp (addScaledVelocity (interpolatedPosition m) (linearVelocity (body m)))
              (position (body m)) (interpolationStrength m))
        (slerp (interpolatedOrientation m) (orientation (body m))
               (interpolationStrength m))
        (remaining - 1) (interpolationStrength m) (powerupButtonState m).

(** The ticks that follow a reconciliation: before each [postUpdate] the
    physics has moved the body. *)
Fixpoint ticks (bodies : list RigidBody) (m : Marble) : Marble :=
  match bodies with
  | [] => m
  | b :: rest => ticks rest (postUpdate false (set_body b m))
  end.

(** The length of the smoothing window for a frame gap. *)
Definition correction_window (frameGap : Z) : Z := Z.max (frameGap * 2) 20.

(** The claim's wording, for comparison: a window proportional to the gap,
    longer for a larger gap. *)
Definition window_grows_with_gap (m : Marble) : Prop :=
  forall gap1 gap2, 0 <= gap1 < gap2 ->
    interpolationRemaining (afterReconciliation gap1 m)
    < interpolationRemaining (afterReconciliation gap2 m).

(* --------------------------------------------------------------------- *)
(** *** Properties *)
(* --------------------------------------------------------------------- *)

(** C10. [pickUpPowerUp(p)] returns false and changes nothing when [p] is
    null or when the held power-up has the class of [p], even when it is
    another object; otherwise it returns true and [p] is the held power-up,
    replacing one of another class. *)
Theorem pickUpPowerUp_spec (m : Marble) :
  pickUpPowerUp None m = (false, m)
  /\ (forall p held,
        heldPowerUp m = Some held ->
        pu_constructor p = pu_constructor held ->
        pickUpPowerUp (Some p) m = (false, m))
  /\ (forall p,
        (heldPowerUp m = None
         \/ exists held, heldPowerUp m = Some held
                         /\ pu_constructor p <> pu_constructor held) ->
        fst (pickUpPowerUp (Some p) m) = true
        /\ heldPowerUp (snd (pickUpPowerUp (Some p) m)) = Some p).
Proof.
  split_and!.
  - done.
  - intros p held Hheld Hclass. unfold pickUpPowerUp.
    rewrite Hheld, Hclass, Nat.eqb_refl. done.
  - intros p [Hnone | (held & Hheld & Hclass)]; unfold pickUpPowerUp.
    + by rewrite Hnone.
    + rewrite Hheld. apply Nat.eqb_neq in Hclass. by rewrite Hclass.
Qed.

Lemma ticks_snoc (bodies : list RigidBody) (b : RigidBody) (m : Marble) :
  ticks (bodies ++ [b]) m = postUpdate false (set_body b (ticks bodies m)).
Proof. revert m. induction bodies as [|b0 bodies IH]; intros m; simpl; [done | apply IH]. Qed.

Lemma ticks_interpolation (bodies : list RigidBody) (m : Marble) :
  interpolationRemaining (ticks bodies m)
  = interpolationRemaining m - Z.of_nat (length bodies)
  /\ interpolationStrength (ticks bodies m) = interpolationStrength m.
Proof.
  revert m. induction bodies as [|b bodies IH]; intros m; cbn [ticks length].
  - split; [lia | done].
  - destruct (IH (postUpdate false (set_body b m))) as [-> ->].
    unfold postUpdate. simpl.
    destruct (interpolationRemaining m <=? 0); simpl; split; (lia || done).
Qed.

(** C9, as the code has it. When the position after the reconciliation
    differs from the one noted before it, and no longer interpolation is
    under way, the marble interpolates for [max(2 * frameGap, 20)] ticks
    towards the body's pose and snaps to it on the tick after; that window
    never shrinks when the gap grows and is twice the gap from a gap of 10. *)
Theorem afterReconciliation_window (frameGap : Z) (m : Marble) :
  distance_is_zero (reconciliationPosition m) (position (body m)) = false ->
  interpolationRemaining m <= correction_window frameGap ->
  let m' := afterReconciliation frameGap m in
  interpolationRemaining m' = correction_window frameGap
  /\ (forall bodies b,
        let mk := ticks bodies m' in
        let next := postUpdate false (set_body b mk) in
        (Z.of_nat (length bodies) < correction_window frameGap ->
         interpolatedPosition next
         = lerp (addScaledVelocity (interpolatedPosition mk) (linearVelocity b))
                (position b) (strength_for (correction_window frameGap))
         /\ interpolatedOrientation next
            = slerp (interpolatedOrientation mk) (orientation b)
                    (strength_for (correction_window frameGap)))
        /\ (Z.of_nat (length bodies) = correction_window frameGap ->
            interpolatedPosition next = position b
            /\ interpolatedOrientation next = orientation b))
  /\ (forall larger, frameGap <= larger ->
        correction_window frameGap <= correction_window larger)
  /\ (10 <= frameGap -> correction_window frameGap = 2 * frameGap).
Proof.
  intros Hdiff Hrem m'.
  assert (interpolationRemaining m' = correction_window frameGap
          /\ interpolationStrength m' = strength_for (correction_window frameGap))
    as [Hwin Hstr].
  { unfold m', afterReconciliation. fold (correction_window frameGap).
    rewrite Z.gtb_ltb.
    destruct (Z.ltb_spec (correction_window frameGap) (interpolationRemaining m));
      [lia|].
    by rewrite Hdiff. }
  split_and!.
  - done.
  - intros bodies b mk next.
    destruct (ticks_interpolation bodies m') as [Hk Hs].
    fold mk in Hk, Hs. rewrite Hwin in Hk. rewrite Hstr in Hs.
    unfold next, postUpdate. simpl. rewrite Hk, Hs. split.
    + intros Hlt. destruct (Z.leb_spec (correction_window frameGap - Z.of_nat (length bodies)) 0);
        [lia | done].
    + intros Heq. destruct (Z.leb_spec (correction_window frameGap - Z.of_nat (length bodies)) 0);
        [done | lia].
  - intros larger Hle. unfold correction_window. lia.
  - intros Hge. unfold correction_window. lia.
Qed.


(** A reconciliation that leaves the body where it was starts no
    interpolation, and neither does one that follows [cancelInterpolation]
    without a move; after [cancelInterpolation] the next [postUpdate] shows
    the marble at the pose of its body. *)
Theorem reconciliation_without_move (frameGap : Z) (m : Marble) :
  (forall p, distance_is_zero p p = true) ->
  afterReconciliation frameGap (beforeReconciliation m) = beforeReconciliation m
  /\ afterReconciliation frameGap (cancelInterpolation m) = cancelInterpolation m
  /\ interpolationRemaining (cancelInterpolation m) = 0
  /\ (forall b,
        let next := postUpdate false (set_body b (cancelInterpolation m)) in
        interpolatedPosition next = position b
        /\ interpolatedOrientation next = orientation b).
Proof.
  intros Hzero. split_and!.
  - unfold afterReconciliation, beforeReconciliation. cbn.
    rewrite Hzero. by destruct (_ >? _).
  - unfold afterReconciliation, cancelInterpolation. cbn.
    rewrite Hzero. by destruct (_ >? _).
  - done.
  - done.
Qed.

End WithVectors.

(** *** A marble on a line: positions are numbers *)

Definition line_distance_is_zero (a b : Z) : bool := a =? b.
Definition line_strength (frames : Z) : Z := frames.
Definition line_add (p v : Z) : Z := p + v.
Definition line_lerp (a b : Z) (t : Z) : Z := b.
Definition line_slerp (a b : unit) (t : Z) : unit := b.

(** The body was predicted at 0 and corrected to 5. *)
Definition corrected_marble : @Marble Z unit Z :=
  mkMarble (mkBody 5 tt 1) None 0 0 tt 0 0 false.

Lemma reconciliation_without_move_witness :
  (forall p, line_distance_is_zero p p = true)
  /\ afterReconciliation line_distance_is_zero line_strength 3
       (beforeReconciliation corrected_marble)
     = beforeReconciliation corrected_marble
  /\ afterReconciliation line_distance_is_zero line_strength 3
       (cancelInterpolation corrected_marble)
     = cancelInterpolation corrected_marble
  /\ interpolationRemaining (cancelInterpolation corrected_marble) = 0
  /\ (forall b,
        let next := postUpdate line_add line_lerp line_slerp false
                      (set_body b (cancelInterpolation corrected_marble)) in
        interpolatedPosition next = position b
        /\ interpolatedOrientation next = orientation b).
Proof.
  split; [intros p; apply Z.eqb_refl|].
  apply (reconciliation_without_move line_distance_is_zero line_strength
           line_add line_lerp line_slerp 3 corrected_marble).
  intros p. apply Z.eqb_refl.
Defined.

(** C9, counterexample. Frame gaps of 1 and of 2 give the same window of 20
    ticks: the window is not proportional to the gap, and the larger gap
    does not give the longer window. *)
Lemma window_not_proportional :
  interpolationRemaining
    (afterReconciliation line_distance_is_zero line_strength 1 corrected_marble) = 20
  /\ interpolationRemaining
       (afterReconciliation line_distance_is_zero line_strength 2 corrected_marble) = 20
  /\ ~ window_grows_with_gap line_distance_is_zero line_strength corrected_marble.
Proof.
  split_and!; [reflexivity | reflexivity |].
  intros H. specialize (H 1 2 ltac:(lia)). vm_compute in H. discriminate.
Qed.

Lemma afterReconciliation_window_witness :
  let m' := afterReconciliation line_distance_is_zero line_strength 15 corrected_marble in
  interpolationRemaining m' = correction_window 15
  /\ (forall bodies b,
        let mk := ticks line_add line_lerp line_slerp bodies m' in
        let next := postUpdate line_add line_lerp line_slerp false (set_body b mk) in
        (Z.of_nat (length bodies) < correction_window 15 ->
         interpolatedPosition next
         = line_lerp (line_add (interpolatedPosition mk) (linearVelocity b))
                (position b) (line_strength (correction_window 15))
         /\ interpolatedOrientation next
            = line_slerp (interpolatedOrientation mk) (orientation b)
                    (line_strength (correction_window 15)))
        /\ (Z.of_nat (length bodies) = correction_window 15 ->
            interpolatedPosition next = position b
            /\ interpolatedOrientation next = orientation b))
  /\ (forall larger, 15 <= larger -> correction_window 15 <= correction_window larger)
  /\ (10 <= 15 -> correction_window 15 = 2 * 15).
Proof.
  apply (afterReconciliation_window line_distance_is_zero line_strength
           line_add line_lerp line_slerp 15 corrected_marble).
  - reflexivity.
  - vm_compute. discriminate.
Defined.

End Marble.

(* ===================================================================== *)
(** ** SweepAndPruneBroadphase *)
(* ===================================================================== *)

Module Broadphase.
Import Js.

Record Vector3 : Type := mkVector3 { vx : Z; vy : Z; vz : Z }.

(** [v.getComponent(dim)], for the three dimensions the broadphase uses. *)
Definition getComponent (v : Vector3) (dim : nat) : Z :=
  match dim with
  | O => vx v
  | S O => vy v
  | _ => vz v
  end.

Record Box3 : Type := mkBox3 { box_min : Vector3; box_max : Vector3 }.

(** A [BroadphaseObject] (world.ts): [oid] stands for the identity of the JS
    object, which [!==], the WeakMap and the intersections list go by. *)
Record BroadphaseObject : Type := mkObject {
  oid : nat;
  boundingBox : Box3;
  collisionDetectionMask : Z;
  o_dynamic : bool
}.

(** [intersections], the array shared by the six proxies of an object, is
    only read by commented-out code and is left out. *)
Record ObjectProxy : Type := mkProxy {
  objectIndex : Z;
  object : nat;
  min : bool;
  value : Z;
  index : Z;
  mask : Z;
  dynamic : bool
}.

(** The proxies are objects shared between [lists] and [objectToProxies]:
    [heap] holds them in the order of their creation, and both refer to a
    proxy by its position in [heap]. *)
Record Broadphase : Type := mkBroadphase {
  lists : list (list nat);
  heap : list ObjectProxy;
  objectToProxies : gmap nat (list nat);
  objectCount : Z;
  flags : list Z;
  anyFlagSet : bool;
  needsSort : bool;
  sortStarts : list num;
  sortEnds : list num;
  intersections : list nat
}.

Definition empty : Broadphase :=
  mkBroadphase [[]; []; []] [] ∅ 0 [] false false
    [PosInf; PosInf; PosInf] [NegInf; NegInf; NegInf] [].

Definition set_lists (v : list (list nat)) (s : Broadphase) : Broadphase :=
  mkBroadphase v (heap s) (objectToProxies s) (objectCount s) (flags s)
    (anyFlagSet s) (needsSort s) (sortStarts s) (sortEnds s) (intersections s).
Definition set_heap (v : list ObjectProxy) (s : Broadphase) : Broadphase :=
  mkBroadphase (lists s) v (objectToProxies s) (objectCount s) (flags s)
    (anyFlagSet s) (needsSort s) (sortStarts s) (sortEnds s) (intersections s).
Definition set_objectToProxies (v : gmap nat (list nat)) (s : Broadphase) : Broadphase :=
  mkBroadphase (lists s) (heap s) v (objectCount s) (flags s)
    (anyFlagSet s) (needsSort s) (sortStarts s) (sortEnds s) (intersections s).
Definition set_objectCount (v : Z) (s : Broadphase) : Broadphase :=
  mkBroadphase (lists s) (heap s) (objectToProxies s) v (flags s)
    (anyFlagSet s) (needsSort s) (sortStarts s) (sortEnds s) (intersections s).
Definition set_flags (v : list Z) (s : Broadphase) : Broadphase :=
  mkBroadphase (lists s) (heap s) (objectToProxies s) (objectCount s) v
    (anyFlagSet s) (needsSort s) (sortStarts s) (sortEnds s) (intersections s).
Definition set_anyFlagSet (v : bool) (s : Broadphase) : Broadphase :=
  mkBroadphase (lists s) (heap s) (objectToProxies s) (objectCount s) (flags s)
    v (needsSort s) (sortStarts s) (sortEnds s) (intersections s).
Definition set_needsSort (v : bool) (s : Broadphase) : Broadphase :=
  mkBroadphase (lists s) (heap s) (objectToProxies s) (objectCount s) (flags s)
    (anyFlagSet s) v (sortStarts s) (sortEnds s) (intersections s).
Definition set_sortStarts (v : list num) (s : Broadphase) : Broadphase :=
  mkBroadphase (lists s) (heap s) (objectToProxies s) (objectCount s) (flags s)
    (anyFlagSet s) (needsSort s) v (sortEnds s) (intersections s).
Definition set_sortEnds (v : list num) (s : Broadphase) : Broadphase :=
  mkBroadphase (lists s) (heap s) (objectToProxies s) (objectCount s) (flags s)
    (anyFlagSet s) (needsSort s) (sortStarts s) v (intersections s).
Definition set_intersections (v : list nat) (s : Broadphase) : Broadphase :=
  mkBroadphase (lists s) (heap s) (objectToProxies s) (objectCount s) (flags s)
    (anyFlagSet s) (needsSort s) (sortStarts s) (sortEnds s) v.

(** *** Reading and writing the arrays *)

Definition no_proxy : ObjectProxy := mkProxy 0 0 false 0 0 0 false.

(** The proxy object behind a reference. *)
Definition proxy (s : Broadphase) (ref : nat) : ObjectProxy :=
  default no_proxy (heap s !! ref).

(** [this.lists[dim]] *)
Definition list_at (dim : nat) (s : Broadphase) : list nat :=
  default [] (lists s !! dim).

(** [list[i]] for a per-axis list: a proxy reference. *)
Definition ref_at (l : list nat) (i : nat) : nat := default O (l !! i).

Definition set_value (v : Z) (p : ObjectProxy) : ObjectProxy :=
  mkProxy (objectIndex p) (object p) (min p) v (index p) (mask p) (dynamic p).
Definition set_index (v : Z) (p : ObjectProxy) : ObjectProxy :=
  mkProxy (objectIndex p) (object p) (min p) (value p) v (mask p) (dynamic p).

(** [proxy.value = v] and [proxy.index = v] through a reference. *)
Definition write_value (ref : nat) (v : Z) (s : Broadphase) : Broadphase :=
  set_heap (<[ref := set_value v (proxy s ref)]> (heap s)) s.
Definition write_index (ref : nat) (v : Z) (s : Broadphase) : Broadphase :=
  set_heap (<[ref := set_index v (proxy s ref)]> (heap s)) s.

(** A [Uint8Array]: reading outside the array gives [undefined], which the
    bit operations and the store into another Uint8Array turn into 0;
    writing outside the array does nothing; a stored value is taken modulo
    256. *)
Definition u8_get (a : list Z) (i : Z) : Z :=
  if i <? 0 then 0 else default 0 (a !! Z.to_nat i).
Definition u8_set (a : list Z) (i : Z) (v : Z) : list Z :=
  if i <? 0 then a else <[Z.to_nat i := v mod 256]> a.

(** [ToInt32], and [a & b] on numbers. *)
Definition to_int32 (a : Z) : Z := (a + 2147483648) mod 4294967296 - 2147483648.
Definition js_and (a b : Z) : Z := Z.land (to_int32 a) (to_int32 b).

(** The index of the pair [(i1, i2)] in the flattened triangular matrix. *)
Definition flagIndex (n i1 i2 : Z) : Z :=
  (n * (n - 1) / 2) - (n - i2) * ((n - i2) - 1) / 2 + i1 - i2 - 1.

(** *** insert *)

(** The proxy created in turn [i], [dim] of the two nested loops. *)
Definition new_proxy (objectIndex : Z) (object : BroadphaseObject) (i dim : nat)
  : ObjectProxy :=
  let min := Nat.eqb i 0 in
  let box := boundingBox object in
  mkProxy objectIndex (oid object) min
    (getComponent (if min then box_min box else box_max box) dim)
    (-1) (collisionDetectionMask object) (o_dynamic object).

Definition new_proxies (objectIndex : Z) (object : BroadphaseObject) : list ObjectProxy :=
  i ← [0; 1]%nat; dim ← [0; 1; 2]%nat; [new_proxy objectIndex object i dim].

(** One turn of [for (let i = 0; i < proxies.length; i++)]: the proxy
    [proxies[i]], whose reference is [ref], is pushed to [lists[i % 3]]. *)
Definition push_proxy (s : Broadphase) (ir : nat * nat) : Broadphase :=
  let (i, ref) := ir in
  let dim := (i mod 3)%nat in
  let list := list_at dim s ++ [ref] in
  let s := set_lists (<[dim := list]> (lists s)) s in
  write_index ref (Z.of_nat (length list) - 1) s.

(** The loops that copy the old flags, run when [anyFlagSet]:
    [n] is [objectCount - 1] after the increment. *)
Definition copy_flag (oldFlags : list Z) (n : Z) (newFlags : list Z) (o : Z * Z)
  : list Z :=
  let (o1, o2) := o in
  let oldN := n - 1 in
  let oldIndex := flagIndex oldN o1 o2 in
  let newIndex := flagIndex n o1 o2 in
  u8_set newFlags newIndex (u8_get oldFlags oldIndex).

(** The integers [lo], [lo + 1], ..., below [hi]. *)
Definition range (lo hi : Z) : list Z :=
  map (fun k => lo + Z.of_nat k) (seq 0 (Z.to_nat (hi - lo))).

Definition copy_flags (oldFlags : list Z) (count : Z) (newFlags : list Z) : list Z :=
  let n := count - 1 in
  fold_left (copy_flag oldFlags n)
    (o1 ← range 0 (count - 1); o2 ← range (o1 + 1) (count - 2); [(o1, o2)])
    newFlags.

(** The first half of [insert]: the six proxies are created, registered
    in [objectToProxies] and pushed to the three lists. *)
Definition allocate (object : BroadphaseObject) (s : Broadphase) : Broadphase :=
  let s := set_objectCount (objectCount s + 1) s in
  let objectIndex := objectCount s - 1 in
  let proxies := new_proxies objectIndex object in
  let base := length (heap s) in
  let refs := seq base (length proxies) in
  let s := set_heap (heap s ++ proxies) s in
  let s := set_objectToProxies (<[oid object := refs]> (objectToProxies s)) s in
  fold_left push_proxy (zip (seq 0 (length refs)) refs) s.

(** The second half: the flag array for the new number of objects. *)
Definition grow_flags (s : Broadphase) : Broadphase :=
  let oldFlags := flags s in
  let n := objectCount s - 1 in
  let s := set_flags (replicate (Z.to_nat ((n * n + n) / 2)) 0) s in
  if anyFlagSet s
  then set_flags (copy_flags oldFlags (objectCount s) (flags s)) s
  else s.

Definition insert (object : BroadphaseObject) (s : Broadphase) : Broadphase :=
  let s := grow_flags (allocate object s) in
  let s := set_needsSort true s in
  let s := set_sortStarts [Fin 0; Fin 0; Fin 0] s in
  let last := Z.of_nat (length (list_at 0 s)) - 1 in
  set_sortEnds [Fin last; Fin last; Fin last] s.

(** *** sort *)

(** [for (k = 0; k < intersections.length - 1; k += 2)
       if (intersections[k] === a && intersections[k+1] === b)
         { intersections.splice(k, 2); break; }] *)
Fixpoint remove_pair (a b : nat) (l : list nat) : list nat :=
  match l with
  | x :: y :: rest =>
      if Nat.eqb x a && Nat.eqb y b then rest
      else x :: y :: remove_pair a b rest
  | _ => l
  end.

(** The part of the loop body after [j--]: [a] and [b] are the proxies now
    at [j-1] and [j]. *)
Definition toggle (dimension : nat) (ra rb : nat) (s : Broadphase) : Broadphase :=
  let a := proxy s ra in
  let b := proxy s rb in
  let toggle := negb (Nat.eqb (object a) (object b))
                && negb (eqb (min a) (min b))
                && negb (js_and (mask a) (mask b) =? 0)
                && (dynamic a || dynamic b) in
  if negb toggle then s
  else
    let (a, b) := if objectIndex b >? objectIndex a then (b, a) else (a, b) in
    let i1 := objectIndex a in
    let i2 := objectIndex b in
    let n := objectCount s in
    let flagIndex := flagIndex n i1 i2 in
    let flags0 := u8_get (flags s) flagIndex in
    let bit := Z.shiftl 1 (Z.of_nat dimension) in
    let s :=
      if negb (Z.land flags0 bit =? 0) then
        let needsDelete := flags0 =? 7 in
        let flags1 := Z.land flags0 (Z.lnot bit) in
        let s := set_flags (u8_set (flags s) flagIndex flags1) s in
        if needsDelete
        then set_intersections (remove_pair (object a) (object b) (intersections s)) s
        else s
      else
        let flags1 := Z.lor flags0 bit in
        let s := set_flags (u8_set (flags s) flagIndex flags1) s in
        if flags1 =? 7
        then set_intersections (intersections s ++ [object a; object b]) s
        else s in
    set_anyFlagSet true s.

(** The body of the [while] loop for [j = S j']: swap [list[j-1]] and
    [list[j]], set their [index], and toggle. *)
Definition swap_step (dimension : nat) (j' : nat) (s : Broadphase) : Broadphase :=
  let list := list_at dimension s in
  let temp := ref_at list j' in
  let list := <[j' := ref_at list (S j')]> list in
  let list := <[S j' := temp]> list in
  let s := set_lists (<[dimension := list]> (lists s)) s in
  let ra := ref_at list j' in
  let rb := ref_at list (S j') in
  let s := write_index ra (Z.of_nat j') s in
  let s := write_index rb (Z.of_nat (S j')) s in
  toggle dimension ra rb s.

(** [j > start && list[j-1].value > list[j].value] *)
Definition out_of_order (dimension : nat) (start : Z) (j : nat) (s : Broadphase) : bool :=
  let list := list_at dimension s in
  (Z.of_nat j >? start)
  && (value (proxy s (ref_at list (j - 1))) >? value (proxy s (ref_at list j))).

(** The [while] loop; [j] decreases at every turn. *)
Fixpoint sort_inner (dimension : nat) (start : Z) (j : nat) (s : Broadphase) : Broadphase :=
  match j with
  | O => s
  | S j' =>
      if out_of_order dimension start j s
      then sort_inner dimension start j' (swap_step dimension j' s)
      else s
  end.

(** [sort(dimension)], for the dimensions 0, 1 and 2 that [recompute], its
    only caller, passes (for another [dimension] the last two assignments
    of the code would extend the arrays of three elements; here they are
    left as they are). *)
Definition sort (dimension : nat) (s : Broadphase) : Broadphase :=
  let last := Z.of_nat (length (list_at 0 s)) - 1 in
  let s := set_sortStarts [Fin 0; Fin 0; Fin 0] s in
  let s := set_sortEnds [Fin last; Fin last; Fin last] s in
  let s :=
    match sortStarts s !! dimension, sortEnds s !! dimension with
    | Some (Fin start), Some (Fin end_) =>
        fold_left
          (fun s i => sort_inner dimension start (Z.to_nat i) s)
          (range (start + 1) (end_ + 1)) s
    | _, _ => s
    end in
  let s := set_sortStarts (<[dimension := PosInf]> (sortStarts s)) s in
  set_sortEnds (<[dimension := NegInf]> (sortEnds s)) s.

(** *** update, recompute *)

(** [while (start > 0 && list[start - 1].value > minProxy.value) start--;] *)
Fixpoint widen_start (fuel : nat) (s : Broadphase) (list : list nat) (minValue : Z)
  (start : Z) : Z :=
  match fuel with
  | O => start
  | S fuel' =>
      if (start >? 0)
         && (value (proxy s (ref_at list (Z.to_nat (start - 1)))) >? minValue)
      then widen_start fuel' s list minValue (start - 1)
      else start
  end.

(** [while (end < list.length - 2 && list[end + 1].value < maxProxy.value) end++;] *)
Fixpoint widen_end (fuel : nat) (s : Broadphase) (list : list nat) (maxValue : Z)
  (end_ : Z) : Z :=
  match fuel with
  | O => end_
  | S fuel' =>
      if (end_ <? Z.of_nat (length list) - 2)
         && (value (proxy s (ref_at list (Z.to_nat (end_ + 1)))) <? maxValue)
      then widen_end fuel' s list maxValue (end_ + 1)
      else end_
  end.

(** One turn of [for (let dim = 0; dim < 3; dim++)] in [update]. *)
Definition update_dim (object : BroadphaseObject) (proxies : list nat)
  (s : Broadphase) (dim : nat) : Broadphase :=
  let minProxy := ref_at proxies (dim + 0) in
  let maxProxy := ref_at proxies (dim + 3) in
  let s := write_value minProxy (getComponent (box_min (boundingBox object)) dim) s in
  let s := write_value maxProxy (getComponent (box_max (boundingBox object)) dim) s in
  let start := min_fin (default PosInf (sortStarts s !! dim)) (index (proxy s minProxy)) in
  let end_ := max_fin (default NegInf (sortEnds s !! dim)) (index (proxy s maxProxy)) in
  let list := list_at dim s in
  let start := widen_start (Z.to_nat start) s list (value (proxy s minProxy)) start in
  let end_ := widen_end (length list) s list (value (proxy s maxProxy)) end_ in
  let s := set_sortStarts (<[dim := Fin start]> (sortStarts s)) s in
  set_sortEnds (<[dim := Fin end_]> (sortEnds s)) s.

Definition update (object : BroadphaseObject) (s : Broadphase) : Broadphase :=
  match objectToProxies s !! oid object with
  | None => insert object s
  | Some proxies =>
      set_needsSort true (fold_left (update_dim object proxies) [0; 1; 2]%nat s)
  end.

Definition recompute (s : Broadphase) : Broadphase :=
  if needsSort s
  then set_needsSort false (fold_left (fun s i => sort i s) [0; 1; 2]%nat s)
  else s.

(* --------------------------------------------------------------------- *)
(** ** Verification of the broadphase *)
(* --------------------------------------------------------------------- *)

(** *** Adjacent swaps in a list without duplicates *)

Definition swap_adj (l : list nat) (j : nat) : list nat :=
  <[S j := ref_at l j]> (<[j := ref_at l (S j)]> l).

Lemma swap_adj_length (l : list nat) (j : nat) : length (swap_adj l j) = length l.
Proof. unfold swap_adj. by rewrite !length_insert. Qed.

Lemma swap_adj_lookup (l : list nat) (j : nat) (x y : nat) (i : nat) :
  l !! j = Some x -> l !! S j = Some y ->
  swap_adj l j !! i
  = if decide (i = j) then Some y else if decide (i = S j) then Some x else l !! i.
Proof.
  intros Hx Hy. unfold swap_adj, ref_at. rewrite Hx, Hy. simpl.
  pose proof (lookup_lt_Some _ _ _ Hx). pose proof (lookup_lt_Some _ _ _ Hy).
  destruct (decide (i = j)) as [->|Hij].
  - rewrite list_lookup_insert_ne by lia. rewrite list_lookup_insert_eq by lia. done.
  - destruct (decide (i = S j)) as [->|Hij'].
    + rewrite list_lookup_insert_eq; [done|]. rewrite length_insert. lia.
    + rewrite !list_lookup_insert_ne by lia. done.
Qed.

Lemma swap_adj_perm (l : list nat) (j : nat) (x y : nat) :
  l !! j = Some x -> l !! S j = Some y -> swap_adj l j ≡ₚ l.
Proof.
  intros Hx Hy.
  assert (l = take j l ++ x :: y :: drop (S (S j)) l) as Hl.
  { rewrite <- (drop_S l y (S j)) by done. by rewrite take_drop_middle. }
  assert (swap_adj l j = take j l ++ y :: x :: drop (S (S j)) l) as ->.
  { apply list_eq. intros i. rewrite (swap_adj_lookup l j x y) by done.
    pose proof (lookup_lt_Some _ _ _ Hx) as Hlen.
    assert (length (take j l) = j) as Htake by (rewrite length_take; lia).
    destruct (decide (i = j)) as [->|Hij].
    - rewrite lookup_app_r by lia. rewrite Htake, Nat.sub_diag. done.
    - destruct (decide (i = S j)) as [->|Hij'].
      + rewrite lookup_app_r by lia. rewrite Htake.
        replace (S j - j)%nat with 1%nat by lia. done.
      + rewrite Hl at 1. destruct (decide (i < j)%nat).
        * rewrite !lookup_app_l by lia. done.
        * rewrite !lookup_app_r by lia. rewrite Htake.
          destruct (i - j)%nat as [|[|k]] eqn:Hk; [lia | lia | done]. }
  rewrite Hl at 3. apply Permutation_app_head. apply Permutation_swap.
Qed.

(** [a] stands before [b] in [l]. *)
Definition before (l : list nat) (a b : nat) : Prop :=
  exists i j : nat, l !! i = Some a /\ l !! j = Some b /\ (i < j)%nat.

Lemma before_swap (l : list nat) (j : nat) (x y a b : nat) :
  NoDup l -> l !! j = Some x -> l !! S j = Some y ->
  before (swap_adj l j) a b <->
  (a = y /\ b = x) \/ (before l a b /\ ¬ (a = x /\ b = y)).
Proof.
  intros Hnd Hx Hy. split.
  - intros (i & i' & Hi & Hi' & Hlt).
    rewrite (swap_adj_lookup l j x y) in Hi, Hi' by done.
    destruct (decide (i = j)) as [->|Hij].
    + injection Hi as <-.
      destruct (decide (i' = j)); [lia|].
      destruct (decide (i' = S j)) as [->|Hne].
      * injection Hi' as <-. by left.
      * right. split.
        -- exists (S j), i'. split_and!; [done | done | lia].
        -- intros [-> _]. pose proof (NoDup_lookup _ _ _ _ Hnd Hx Hy). lia.
    + destruct (decide (i = S j)) as [->|Hij'].
      * injection Hi as <-.
        destruct (decide (i' = j)); [lia|].
        destruct (decide (i' = S j)); [lia|].
        right. split.
        -- exists j, i'. split_and!; [done | done | lia].
        -- intros [_ ->]. pose proof (NoDup_lookup _ _ _ _ Hnd Hy Hi'). lia.
      * destruct (decide (i' = j)) as [->|Hi'j].
        -- injection Hi' as <-. right. split.
           ++ exists i, (S j). split_and!; [done | done | lia].
           ++ intros [-> _]. pose proof (NoDup_lookup _ _ _ _ Hnd Hx Hi). lia.
        -- destruct (decide (i' = S j)) as [->|Hi'j'].
           ++ injection Hi' as <-. right. split.
              ** exists i, j. split_and!; [done | done | lia].
              ** intros [-> ->]. pose proof (NoDup_lookup _ _ _ _ Hnd Hx Hi). lia.
           ++ right. split.
              ** exists i, i'. by split_and!.
              ** intros [-> ->].
                 pose proof (NoDup_lookup _ _ _ _ Hnd Hx Hi).
                 pose proof (NoDup_lookup _ _ _ _ Hnd Hy Hi'). lia.
  - intros [[-> ->] | [(p & q & Hp & Hq & Hlt) Hnot]].
    + exists j, (S j). rewrite !(swap_adj_lookup l j x y) by done.
      rewrite decide_True by done. rewrite decide_False by lia.
      rewrite decide_True by done. split_and!; [done | done | lia].
    + (* positions of a and b after the swap *)
      set (sigma := fun i : nat => if decide (i = j) then S j
                                   else if decide (i = S j) then j else i).
      assert (forall i v, l !! i = Some v -> swap_adj l j !! sigma i = Some v) as Hs.
      { intros i v Hv. rewrite (swap_adj_lookup l j x y) by done. unfold sigma.
        destruct (decide (i = j)) as [->|Hij].
        - rewrite decide_False by lia. rewrite decide_True by done. congruence.
        - destruct (decide (i = S j)) as [->|Hij'].
          + rewrite decide_True by done. congruence.
          + rewrite decide_False by done. rewrite decide_False by done. done. }
      exists (sigma p), (sigma q). split_and!; [by apply Hs | by apply Hs |].
      unfold sigma.
      destruct (decide (p = j)) as [Hpj|Hpj]; destruct (decide (q = j)) as [Hqj|Hqj];
        try lia;
        destruct (decide (p = S j)) as [Hpj'|Hpj']; destruct (decide (q = S j)) as [Hqj'|Hqj'];
        try lia.
      exfalso. apply Hnot. subst. split; congruence.
Qed.

(** *** The triangular index *)

Lemma consecutive_even (k : Z) : 2 * (k * (k - 1) / 2) = k * (k - 1).
Proof.
  destruct (Z.Even_or_Odd k) as [[m ->]|[m ->]].
  - replace (2 * m * (2 * m - 1)) with (m * (2 * m - 1) * 2) by ring.
    rewrite Z.div_mul by lia. ring.
  - replace ((2 * m + 1) * (2 * m + 1 - 1)) with (m * (2 * m + 1) * 2) by ring.
    rewrite Z.div_mul by lia. ring.
Qed.

Lemma flagIndex_double (n i1 i2 : Z) :
  2 * flagIndex n i1 i2
  = n * (n - 1) - (n - i2) * (n - i2 - 1) + 2 * i1 - 2 * i2 - 2.
Proof.
  unfold flagIndex.
  pose proof (consecutive_even n). pose proof (consecutive_even (n - i2)). lia.
Qed.

Lemma flagIndex_bounds (n hi lo : Z) :
  0 <= lo < hi -> hi < n ->
  0 <= flagIndex n hi lo < n * (n - 1) / 2.
Proof.
  intros Hlo Hhi.
  pose proof (flagIndex_double n hi lo). pose proof (consecutive_even n).
  nia.
Qed.

Lemma flagIndex_inj (n hi lo hi' lo' : Z) :
  0 <= lo < hi -> hi < n -> 0 <= lo' < hi' -> hi' < n ->
  flagIndex n hi lo = flagIndex n hi' lo' -> hi = hi' /\ lo = lo'.
Proof.
  intros Hlo Hhi Hlo' Hhi' Heq.
  pose proof (flagIndex_double n hi lo). pose proof (flagIndex_double n hi' lo').
  assert (lo = lo') as <-; [|split; [lia | done]].
  destruct (Z.lt_trichotomy lo lo') as [Hlt|[?|Hlt]]; [|done|]; exfalso.
  - assert (exists d, lo' = lo + 1 + d /\ 0 <= d) as (d & -> & Hd)
      by (exists (lo' - lo - 1); lia).
    nia.
  - assert (exists d, lo = lo' + 1 + d /\ 0 <= d) as (d & -> & Hd)
      by (exists (lo - lo' - 1); lia).
    nia.
Qed.

(** *** The three bits of a pair flag *)

Lemma flag_cases (f : Z) :
  0 <= f < 8 -> f = 0 \/ f = 1 \/ f = 2 \/ f = 3 \/ f = 4 \/ f = 5 \/ f = 6 \/ f = 7.
Proof. lia. Qed.

Lemma dim_cases (d : nat) : (d < 3)%nat -> d = 0%nat \/ d = 1%nat \/ d = 2%nat.
Proof. lia. Qed.

Ltac flag_brute f d :=
  let Hf := fresh in let Hd := fresh in
  intros Hf Hd;
  apply flag_cases in Hf; apply dim_cases in Hd;
  destruct Hf as [->|[->|[->|[->|[->|[->|[->| ->]]]]]]];
  destruct Hd as [->|[->| ->]].

Lemma flag_land_test (f : Z) (d : nat) :
  0 <= f < 8 -> (d < 3)%nat ->
  (Z.land f (Z.shiftl 1 (Z.of_nat d)) =? 0) = negb (Z.testbit f (Z.of_nat d)).
Proof. flag_brute f d; reflexivity. Qed.

Lemma flag_clear (f : Z) (d : nat) :
  0 <= f < 8 -> (d < 3)%nat ->
  let f' := Z.land f (Z.lnot (Z.shiftl 1 (Z.of_nat d))) mod 256 in
  0 <= f' < 8
  /\ Z.testbit f' (Z.of_nat d) = false
  /\ forall d' : nat, (d' < 3)%nat -> d' <> d ->
       Z.testbit f' (Z.of_nat d') = Z.testbit f (Z.of_nat d').
Proof.
  flag_brute f d; cbv zeta; split_and!;
    try (vm_compute; congruence);
    intros d' Hd' Hne; apply dim_cases in Hd'; destruct Hd' as [->|[->| ->]];
    (done || reflexivity).
Qed.

Lemma flag_set (f : Z) (d : nat) :
  0 <= f < 8 -> (d < 3)%nat ->
  let f' := Z.lor f (Z.shiftl 1 (Z.of_nat d)) mod 256 in
  0 <= f' < 8
  /\ Z.testbit f' (Z.of_nat d) = true
  /\ forall d' : nat, (d' < 3)%nat -> d' <> d ->
       Z.testbit f' (Z.of_nat d') = Z.testbit f (Z.of_nat d').
Proof.
  flag_brute f d; cbv zeta; split_and!;
    try (vm_compute; congruence);
    intros d' Hd' Hne; apply dim_cases in Hd'; destruct Hd' as [->|[->| ->]];
    (done || reflexivity).
Qed.

Lemma flag_seven (f : Z) :
  0 <= f < 8 ->
  (f = 7 <-> forall d : nat, (d < 3)%nat -> Z.testbit f (Z.of_nat d) = true).
Proof.
  intros Hf. apply flag_cases in Hf.
  destruct Hf as [->|[->|[->|[->|[->|[->|[->| ->]]]]]]]; split; try done;
    try (intros H; first [ specialize (H 0%nat ltac:(lia)); discriminate H
                         | specialize (H 1%nat ltac:(lia)); discriminate H
                         | specialize (H 2%nat ltac:(lia)); discriminate H ]).
  intros _ d Hd. apply dim_cases in Hd. by destruct Hd as [->|[->| ->]].
Qed.

(** *** Reading the state after a write *)

(** Two proxies that agree on everything but [index]. *)
Definition same_static (p q : ObjectProxy) : Prop :=
  objectIndex p = objectIndex q /\ object p = object q /\ min p = min q
  /\ value p = value q /\ mask p = mask q /\ dynamic p = dynamic q.

Lemma same_static_refl (p : ObjectProxy) : same_static p p.
Proof. by repeat split. Qed.

Lemma same_static_trans (p q r : ObjectProxy) :
  same_static p q -> same_static q r -> same_static p r.
Proof. unfold same_static. intros (?&?&?&?&?&?) (?&?&?&?&?&?). split_and!; congruence. Qed.

Lemma proxy_write_index (r : nat) (v : Z) (s : Broadphase) (a : nat) :
  same_static (proxy (write_index r v s) a) (proxy s a).
Proof.
  unfold write_index, proxy. simpl.
  destruct (decide (a = r)) as [->|Hne].
  - destruct (heap s !! r) as [p|] eqn:Hp.
    + rewrite list_lookup_insert_eq by (by eapply lookup_lt_Some). simpl.
      by repeat split.
    + rewrite list_insert_ge by (by apply lookup_ge_None). rewrite Hp.
      apply same_static_refl.
  - rewrite list_lookup_insert_ne by done. apply same_static_refl.
Qed.

Lemma list_at_set_lists (d d' : nat) (l : list nat) (s : Broadphase) :
  (d < length (lists s))%nat ->
  list_at d' (set_lists (<[d := l]> (lists s)) s)
  = if decide (d' = d) then l else list_at d' s.
Proof.
  intros Hd. unfold list_at. simpl. destruct (decide (d' = d)) as [->|Hne].
  - by rewrite list_lookup_insert_eq.
  - by rewrite list_lookup_insert_ne.
Qed.

Lemma u8_get_set (fl : list Z) (i i' v : Z) :
  0 <= i < Z.of_nat (length fl) -> 0 <= i' ->
  u8_get (u8_set fl i v) i' = if decide (i' = i) then v mod 256 else u8_get fl i'.
Proof.
  intros Hi Hi'. unfold u8_get, u8_set.
  destruct (Z.ltb_spec i 0); [lia|]. destruct (Z.ltb_spec i' 0); [lia|].
  destruct (decide (i' = i)) as [->|Hne].
  - rewrite list_lookup_insert_eq by lia. done.
  - rewrite list_lookup_insert_ne by lia. done.
Qed.

Lemma u8_set_length (fl : list Z) (i v : Z) : length (u8_set fl i v) = length fl.
Proof. unfold u8_set. destruct (i <? 0); [done|]. by rewrite length_insert. Qed.

Lemma u8_set_range (fl : list Z) (i v : Z) :
  0 <= v mod 256 < 8 ->
  (forall k f, fl !! k = Some f -> 0 <= f < 8) ->
  forall k f, u8_set fl i v !! k = Some f -> 0 <= f < 8.
Proof.
  intros Hv Hfl k f. unfold u8_set. destruct (i <? 0); [apply Hfl|].
  destruct (decide (k = Z.to_nat i)) as [->|Hne].
  - destruct (decide (Z.to_nat i < length fl)%nat).
    + rewrite list_lookup_insert_eq by done. by intros [= <-].
    + rewrite list_insert_ge by lia. apply Hfl.
  - rewrite list_lookup_insert_ne by done. apply Hfl.
Qed.

Lemma u8_get_range (fl : list Z) (i : Z) :
  (forall k f, fl !! k = Some f -> 0 <= f < 8) -> 0 <= u8_get fl i < 8.
Proof.
  intros Hfl. unfold u8_get. destruct (i <? 0); [lia|].
  destruct (fl !! Z.to_nat i) as [f|] eqn:Hf; simpl; [by eapply Hfl | lia].
Qed.

(** *** Pairs in the intersections array *)

Definition unpairs (ps : list (nat * nat)) : list nat :=
  flat_map (fun p => [fst p; snd p]) ps.

Fixpoint pairs_of (l : list nat) : list (nat * nat) :=
  match l with
  | x :: y :: rest => (x, y) :: pairs_of rest
  | _ => []
  end.

Fixpoint remove_first (p : nat * nat) (ps : list (nat * nat)) : list (nat * nat) :=
  match ps with
  | [] => []
  | q :: rest => if decide (q = p) then rest else q :: remove_first p rest
  end.

Lemma pairs_of_unpairs (ps : list (nat * nat)) : pairs_of (unpairs ps) = ps.
Proof. induction ps as [|[x y] ps IH]; simpl; [done | by rewrite IH]. Qed.

Lemma unpairs_snoc (ps : list (nat * nat)) (x y : nat) :
  unpairs ps ++ [x; y] = unpairs (ps ++ [(x, y)]).
Proof. unfold unpairs. rewrite flat_map_app. simpl. done. Qed.

Lemma remove_pair_unpairs (x y : nat) (ps : list (nat * nat)) :
  remove_pair x y (unpairs ps) = unpairs (remove_first (x, y) ps).
Proof.
  induction ps as [|[a b] ps IH]; simpl; [done|].
  destruct (decide ((a, b) = (x, y))) as [[= -> ->]|Hne].
  - by rewrite !Nat.eqb_refl.
  - assert (Nat.eqb a x && Nat.eqb b y = false) as ->.
    { apply andb_false_iff.
      destruct (Nat.eqb_spec a x) as [->|]; [|by left].
      destruct (Nat.eqb_spec b y) as [->|]; [done | by right]. }
    simpl. by rewrite <- IH.
Qed.

Lemma remove_first_elem (p q : nat * nat) (ps : list (nat * nat)) :
  NoDup ps -> (q ∈ remove_first p ps <-> q ∈ ps /\ q <> p).
Proof.
  induction ps as [|r ps IH]; simpl; intros Hnd.
  - set_solver.
  - apply NoDup_cons in Hnd as [Hr Hnd]. destruct (decide (r = p)) as [->|Hne].
    + set_solver.
    + rewrite elem_of_cons, IH by done. set_solver.
Qed.

Lemma remove_first_NoDup (p : nat * nat) (ps : list (nat * nat)) :
  NoDup ps -> NoDup (remove_first p ps).
Proof.
  induction ps as [|r ps IH]; simpl; intros Hnd; [done|].
  apply NoDup_cons in Hnd as [Hr Hnd]. destruct (decide (r = p)); [done|].
  apply NoDup_cons. split; [|by apply IH].
  rewrite remove_first_elem by done. tauto.
Qed.

(** *** The invariant of the broadphase *)

(** The references of the min and of the max proxy of the object with index
    [o] on axis [d]: an insert creates six proxies in a row. *)
Definition min_ref (o d : nat) : nat := (6 * o + d)%nat.
Definition max_ref (o d : nat) : nat := (6 * o + 3 + d)%nat.
Definition ref_of (o : nat) (is_min : bool) (d : nat) : nat :=
  if is_min then min_ref o d else max_ref o d.

Definition refs_of_dim (n d : nat) : list nat :=
  flat_map (fun o => [min_ref o d; max_ref o d]) (seq 0 n).

Definition valid_box (obj : BroadphaseObject) : Prop :=
  forall d : nat, (d < 3)%nat ->
    getComponent (box_min (boundingBox obj)) d
    <= getComponent (box_max (boundingBox obj)) d.

(** What the proxy of [obj], inserted as number [o], holds on axis [d]. *)
Definition proxy_of (o : nat) (obj : BroadphaseObject) (is_min : bool) (d : nat)
  (p : ObjectProxy) : Prop :=
  objectIndex p = Z.of_nat o
  /\ object p = oid obj
  /\ min p = is_min
  /\ value p = getComponent (if is_min then box_min (boundingBox obj)
                             else box_max (boundingBox obj)) d
  /\ mask p = collisionDetectionMask obj
  /\ dynamic p = o_dynamic obj.

(** The test of [sort] on two objects: the masks intersect and one of the
    two is dynamic. *)
Definition eligible (a b : BroadphaseObject) : bool :=
  negb (js_and (collisionDetectionMask a) (collisionDetectionMask b) =? 0)
  && (o_dynamic a || o_dynamic b).

(** The intervals of [lo] and [hi] overlap in the order of the list. *)
Definition pos_overlap (l : list nat) (d lo hi : nat) : Prop :=
  before l (min_ref lo d) (max_ref hi d) /\ before l (min_ref hi d) (max_ref lo d).

(** The flag of the pair [lo < hi]. *)
Definition flag_of (s : Broadphase) (hi lo : nat) : Z :=
  u8_get (flags s) (flagIndex (objectCount s) (Z.of_nat hi) (Z.of_nat lo)).

Record Inv (objs : list BroadphaseObject) (s : Broadphase) : Prop := mkInv {
  inv_count : objectCount s = Z.of_nat (length objs);
  inv_oids : NoDup (map oid objs);
  inv_boxes : Forall valid_box objs;
  inv_lists : length (lists s) = 3%nat;
  inv_heap_len : length (heap s) = (6 * length objs)%nat;
  inv_heap : forall o obj d m,
      objs !! o = Some obj -> (d < 3)%nat ->
      proxy_of o obj m d (proxy s (ref_of o m d));
  inv_map : forall o obj,
      objs !! o = Some obj -> objectToProxies s !! oid obj = Some (seq (6 * o) 6);
  inv_perm : forall d, (d < 3)%nat -> list_at d s ≡ₚ refs_of_dim (length objs) d;
  inv_pos : forall d o, (d < 3)%nat -> (o < length objs)%nat ->
      before (list_at d s) (min_ref o d) (max_ref o d);
  inv_flags_len :
      Z.of_nat (length (flags s))
      = Z.of_nat (length objs) * (Z.of_nat (length objs) - 1) / 2;
  inv_flags_range : forall k f, flags s !! k = Some f -> 0 <= f < 8;
  inv_flags : forall lo hi a b d,
      (lo < hi)%nat -> objs !! lo = Some a -> objs !! hi = Some b -> (d < 3)%nat ->
      (Z.testbit (flag_of s hi lo) (Z.of_nat d) = true
       <-> eligible a b = true /\ pos_overlap (list_at d s) d lo hi);
  inv_inter : exists ps,
      intersections s = unpairs ps
      /\ NoDup ps
      /\ forall x y, (x, y) ∈ ps <->
           exists lo hi a b,
             (lo < hi)%nat /\ objs !! lo = Some a /\ objs !! hi = Some b
             /\ x = oid b /\ y = oid a /\ flag_of s hi lo = 7
}.

(** *** Facts about the references *)

Lemma elem_of_refs_of_dim (n d r : nat) :
  r ∈ refs_of_dim n d <-> exists o m, (o < n)%nat /\ r = ref_of o m d.
Proof.
  unfold refs_of_dim. rewrite list_elem_of_In, in_flat_map. split.
  - intros (o & Ho & Hr). apply in_seq in Ho. simpl in Hr.
    destruct Hr as [<-|[<-|[]]]; [exists o, true | exists o, false]; split; (lia || done).
  - intros (o & m & Ho & ->). exists o. split; [apply in_seq; lia|].
    destruct m; simpl; tauto.
Qed.

Lemma NoDup_refs_of_dim (n d : nat) : (d < 3)%nat -> NoDup (refs_of_dim n d).
Proof.
  intros Hd. unfold refs_of_dim. induction n as [|n IH]; [constructor|].
  rewrite seq_S, flat_map_app. simpl.
  apply NoDup_app. split_and!; [done | |].
  - intros r Hr. fold (refs_of_dim n d) in Hr.
    apply elem_of_refs_of_dim in Hr as (o & m & Ho & ->).
    unfold ref_of, min_ref, max_ref. destruct m; set_solver by lia.
  - apply NoDup_cons. split; [|apply NoDup_singleton].
    unfold min_ref, max_ref. set_solver by lia.
Qed.

Lemma length_refs_of_dim (n d : nat) : length (refs_of_dim n d) = (2 * n)%nat.
Proof.
  unfold refs_of_dim. induction n as [|n IH]; [done|].
  rewrite seq_S, flat_map_app, length_app, IH. simpl. lia.
Qed.

Lemma ref_of_inj (o o' : nat) (m m' : bool) (d : nat) :
  (d < 3)%nat -> ref_of o m d = ref_of o' m' d -> o = o' /\ m = m'.
Proof.
  unfold ref_of, min_ref, max_ref. intros Hd. destruct m, m'; intros; split; (lia || done).
Qed.

Lemma before_irrefl_pair (l : list nat) (a b : nat) :
  NoDup l -> before l a b -> before l b a -> False.
Proof.
  intros Hnd (i & j & Hi & Hj & Hlt) (i' & j' & Hi' & Hj' & Hlt').
  pose proof (NoDup_lookup _ _ _ _ Hnd Hi Hj').
  pose proof (NoDup_lookup _ _ _ _ Hnd Hj Hi'). lia.
Qed.

Lemma before_total (l : list nat) (a b : nat) :
  a ∈ l -> b ∈ l -> a <> b -> before l a b \/ before l b a.
Proof.
  intros (i & Hi)%list_elem_of_lookup (j & Hj)%list_elem_of_lookup Hne.
  destruct (Nat.lt_trichotomy i j) as [?|[->|?]].
  - left. by exists i, j.
  - congruence.
  - right. by exists j, i.
Qed.

Lemma before_trans (l : list nat) (a b c : nat) :
  NoDup l -> before l a b -> before l b c -> before l a c.
Proof.
  intros Hnd (i & j & Hi & Hj & Hlt) (j' & k & Hj' & Hk & Hlt').
  pose proof (NoDup_lookup _ _ _ _ Hnd Hj Hj'). exists i, k. split_and!; [done|done|lia].
Qed.

(** *** The effect of [toggle] *)

Lemma toggle_frame (d ra rb : nat) (s : Broadphase) :
  heap (toggle d ra rb s) = heap s
  /\ lists (toggle d ra rb s) = lists s
  /\ objectToProxies (toggle d ra rb s) = objectToProxies s
  /\ objectCount (toggle d ra rb s) = objectCount s
  /\ needsSort (toggle d ra rb s) = needsSort s
  /\ sortStarts (toggle d ra rb s) = sortStarts s
  /\ sortEnds (toggle d ra rb s) = sortEnds s.
Proof.
  unfold toggle.
  repeat match goal with
         | |- context [if ?c then _ else _] => destruct c; simpl
         end; done.
Qed.

Lemma oid_differ (objs : list BroadphaseObject) (oa ob : nat) (A B : BroadphaseObject) :
  NoDup (map oid objs) -> objs !! oa = Some A -> objs !! ob = Some B ->
  oa <> ob -> oid A <> oid B.
Proof.
  intros Hoids HA HB Hne Heq. apply Hne.
  eapply (NoDup_lookup (map oid objs)); [done | |].
  - rewrite list_lookup_fmap, HA. done.
  - rewrite list_lookup_fmap, HB. simpl. by rewrite Heq.
Qed.

Lemma toggle_none (s : Broadphase) (d ra rb oa ob : nat) (ma mb : bool)
  (A B : BroadphaseObject) :
  proxy_of oa A ma d (proxy s ra) ->
  proxy_of ob B mb d (proxy s rb) ->
  ma = mb \/ eligible A B = false -> toggle d ra rb s = s.
Proof.
  intros Hpa Hpb Hcase. unfold toggle.
  destruct Hpa as (_ & HoA & HmA & _ & HkA & HdA).
  destruct Hpb as (_ & HoB & HmB & _ & HkB & HdB).
  rewrite HoA, HoB, HmA, HmB, HkA, HkB, HdA, HdB.
  unfold eligible in Hcase.
  destruct Hcase as [->|Hel].
  - rewrite eqb_reflx. simpl. rewrite andb_false_r. done.
  - rewrite <- !andb_assoc. rewrite Hel. rewrite !andb_false_r. done.
Qed.

(** The objects of the pair, the one inserted later first. *)
Definition later (oa ob : nat) (A B : BroadphaseObject) : BroadphaseObject :=
  if (oa <? ob)%nat then B else A.
Definition earlier (oa ob : nat) (A B : BroadphaseObject) : BroadphaseObject :=
  if (oa <? ob)%nat then A else B.

Lemma toggle_some (objs : list BroadphaseObject) (s : Broadphase)
  (d ra rb oa ob : nat) (ma mb : bool) (A B : BroadphaseObject) :
  (d < 3)%nat ->
  objs !! oa = Some A -> objs !! ob = Some B -> oa <> ob ->
  proxy_of oa A ma d (proxy s ra) ->
  proxy_of ob B mb d (proxy s rb) ->
  NoDup (map oid objs) ->
  objectCount s = Z.of_nat (length objs) ->
  Z.of_nat (length (flags s))
  = Z.of_nat (length objs) * (Z.of_nat (length objs) - 1) / 2 ->
  (forall k f, flags s !! k = Some f -> 0 <= f < 8) ->
  ma <> mb -> eligible A B = true ->
  let lo := Nat.min oa ob in
  let hi := Nat.max oa ob in
  let f := flag_of s hi lo in
  let s' := toggle d ra rb s in
  exists f',
    0 <= f' < 8
    /\ Z.testbit f' (Z.of_nat d) = negb (Z.testbit f (Z.of_nat d))
    /\ (forall d' : nat, (d' < 3)%nat -> d' <> d ->
          Z.testbit f' (Z.of_nat d') = Z.testbit f (Z.of_nat d'))
    /\ flags s'
       = <[Z.to_nat (flagIndex (objectCount s) (Z.of_nat hi) (Z.of_nat lo)) := f']> (flags s)
    /\ intersections s'
       = (if f =? 7
          then remove_pair (oid (later oa ob A B)) (oid (earlier oa ob A B))
                 (intersections s)
          else if f' =? 7
               then intersections s ++ [oid (later oa ob A B); oid (earlier oa ob A B)]
               else intersections s).
Proof.
  intros Hd HA HB Hne Hpa Hpb Hoids Hcount Hflen Hfrange Hm Hel lo hi f s'.
  destruct Hpa as (HiA & HoA & HmA & _ & HkA & HdA).
  destruct Hpb as (HiB & HoB & HmB & _ & HkB & HdB).
  pose proof (oid_differ objs oa ob A B Hoids HA HB Hne) as Hoid.
  assert (0 <= f < 8) as Hf by (apply u8_get_range; exact Hfrange).
  assert (lo < hi)%nat as Hlohi by lia.
  assert (hi < length objs)%nat as Hhi.
  { apply lookup_lt_Some in HA, HB. lia. }
  pose proof (flagIndex_bounds (Z.of_nat (length objs)) (Z.of_nat hi) (Z.of_nat lo)
                ltac:(lia) ltac:(lia)) as Hidx.
  assert (toggle d ra rb s
          = let a := if (oa <? ob)%nat then proxy s rb else proxy s ra in
            let b := if (oa <? ob)%nat then proxy s ra else proxy s rb in
            let idx := flagIndex (objectCount s) (Z.of_nat hi) (Z.of_nat lo) in
            let bit := Z.shiftl 1 (Z.of_nat d) in
            set_anyFlagSet true
              (if negb (Z.land f bit =? 0) then
                 let s1 := set_flags (u8_set (flags s) idx (Z.land f (Z.lnot bit))) s in
                 if f =? 7
                 then set_intersections
                        (remove_pair (object a) (object b) (intersections s1)) s1
                 else s1
               else
                 let s1 := set_flags (u8_set (flags s) idx (Z.lor f bit)) s in
                 if Z.lor f bit =? 7
                 then set_intersections (intersections s1 ++ [object a; object b]) s1
                 else s1)) as Htog.
  { unfold toggle. rewrite HoA, HoB, HmA, HmB, HkA, HkB, HdA, HdB.
    assert (negb (Nat.eqb (oid A) (oid B)) = true) as ->
      by (apply negb_true_iff, Nat.eqb_neq; done).
    assert (negb (eqb ma mb) = true) as ->
      by (apply negb_true_iff, eqb_false_iff; done).
    unfold eligible in Hel. simpl. rewrite Hel. simpl.
    rewrite HiA, HiB. unfold f, flag_of, hi, lo.
    destruct (Z.gtb_spec (Z.of_nat ob) (Z.of_nat oa)) as [Hgt|Hle];
      destruct (Nat.ltb_spec oa ob) as [Hlt|Hge]; try lia.
    - rewrite HiA, HiB. rewrite Nat.max_r, Nat.min_l by lia. done.
    - rewrite HiA, HiB. rewrite Nat.max_l, Nat.min_r by lia. done. }
  assert (object (if (oa <? ob)%nat then proxy s rb else proxy s ra)
          = oid (later oa ob A B)
          /\ object (if (oa <? ob)%nat then proxy s ra else proxy s rb)
             = oid (earlier oa ob A B))
    as [Hlater Hearlier].
  { unfold later, earlier. by destruct (oa <? ob)%nat. }
  unfold s'. rewrite Htog. cbv zeta. rewrite Hlater, Hearlier.
  rewrite (flag_land_test f d Hf Hd). rewrite negb_involutive.
  unfold u8_set. destruct (Z.ltb_spec (flagIndex (objectCount s) (Z.of_nat hi) (Z.of_nat lo)) 0)
    as [Hneg|_]; [rewrite Hcount in Hneg; lia|].
  destruct (Z.testbit f (Z.of_nat d)) eqn:Hbit.
  - destruct (flag_clear f d Hf Hd) as (Hr & Hb & Hother).
    refine (ex_intro _ _ (conj Hr (conj Hb (conj Hother (conj _ _))))).
    + by destruct (f =? 7).
    + destruct (Z.eqb_spec f 7) as [->|Hf7]; [done|]. simpl.
      match goal with |- _ = if ?c then _ else _ => destruct c eqn:Hc end; [|done].
      exfalso. apply Z.eqb_eq in Hc.
      pose proof (proj1 (flag_seven _ Hr) Hc d Hd). congruence.
  - destruct (flag_set f d Hf Hd) as (Hr & Hb & Hother).
    assert (Z.lor f (Z.shiftl 1 (Z.of_nat d)) mod 256 = Z.lor f (Z.shiftl 1 (Z.of_nat d)))
      as Hmod.
    { clear -Hf Hd. apply flag_cases in Hf. apply dim_cases in Hd.
      destruct Hf as [->|[->|[->|[->|[->|[->|[->| ->]]]]]]];
        destruct Hd as [->|[->| ->]]; reflexivity. }
    rewrite Hmod in *.
    refine (ex_intro _ _ (conj Hr (conj Hb (conj Hother (conj _ _))))).
    + by destruct (Z.lor f (Z.shiftl 1 (Z.of_nat d)) =? 7).
    + destruct (Z.eqb_spec f 7) as [->|Hf7].
      { pose proof (proj1 (flag_seven 7 Hf) eq_refl d Hd). congruence. }
      by destruct (Z.lor f (Z.shiftl 1 (Z.of_nat d)) =? 7).
Qed.

(** *** Overlap in list order across an adjacent swap *)

Lemma pos_overlap_sym (l : list nat) (d a b : nat) :
  pos_overlap l d a b <-> pos_overlap l d b a.
Proof. unfold pos_overlap. tauto. Qed.

Lemma eligible_sym (a b : BroadphaseObject) : eligible a b = eligible b a.
Proof.
  unfold eligible, js_and. by rewrite Z.land_comm, orb_comm.
Qed.

Lemma before_xy (l : list nat) (j x y : nat) :
  l !! j = Some x -> l !! S j = Some y -> before l x y.
Proof. intros Hx Hy. exists j, (S j). split_and!; [done | done | lia]. Qed.

Lemma before_left (l : list nat) (j x y a : nat) :
  NoDup l -> l !! j = Some x -> l !! S j = Some y ->
  before l a y -> a <> x -> before l a x.
Proof.
  intros Hnd Hx Hy (i & i' & Hi & Hi' & Hlt) Hax.
  pose proof (NoDup_lookup _ _ _ _ Hnd Hi' Hy) as ->.
  assert (i <> j) by (intros ->; congruence).
  exists i, j. split_and!; [done | done | lia].
Qed.

Lemma before_swap_minmax (l : list nat) (d j ox oy : nat) (mx my : bool) (o1 o2 : nat) :
  (d < 3)%nat -> NoDup l ->
  l !! j = Some (ref_of ox mx d) -> l !! S j = Some (ref_of oy my d) ->
  before (swap_adj l j) (min_ref o1 d) (max_ref o2 d) <->
  (my = true /\ mx = false /\ o1 = oy /\ o2 = ox)
  \/ (before l (min_ref o1 d) (max_ref o2 d)
      /\ ¬ (mx = true /\ my = false /\ o1 = ox /\ o2 = oy)).
Proof.
  intros Hd Hnd Hx Hy.
  rewrite (before_swap l j _ _ _ _ Hnd Hx Hy).
  change (min_ref o1 d) with (ref_of o1 true d).
  change (max_ref o2 d) with (ref_of o2 false d).
  split.
  - intros [[H1 H2]|[Hb Hn]].
    + apply ref_of_inj in H1 as [-> <-]; [|done].
      apply ref_of_inj in H2 as [-> <-]; [|done]. by left.
    + right. split; [done|]. intros (-> & -> & -> & ->). by apply Hn.
  - intros [(-> & -> & -> & ->)|[Hb Hn]].
    + by left.
    + right. split; [done|]. intros [H1 H2].
      apply ref_of_inj in H1 as [-> <-]; [|done].
      apply ref_of_inj in H2 as [-> <-]; [|done]. by apply Hn.
Qed.

(** An object's min proxy stays before its max proxy. *)
Lemma swap_keeps_pos (l : list nat) (d j ox oy : nat) (mx my : bool) (o : nat) :
  (d < 3)%nat -> NoDup l ->
  l !! j = Some (ref_of ox mx d) -> l !! S j = Some (ref_of oy my d) ->
  ox <> oy ->
  before l (min_ref o d) (max_ref o d) ->
  before (swap_adj l j) (min_ref o d) (max_ref o d).
Proof.
  intros Hd Hnd Hx Hy Hne Hb.
  apply (before_swap_minmax l d j ox oy mx my o o Hd Hnd Hx Hy).
  right. split; [done|]. intros (_ & _ & -> & ->). done.
Qed.

(** Pairs other than the swapped one keep their overlap. *)
Lemma pos_overlap_swap_other (l : list nat) (d j ox oy : nat) (mx my : bool)
  (lo hi : nat) :
  (d < 3)%nat -> NoDup l ->
  l !! j = Some (ref_of ox mx d) -> l !! S j = Some (ref_of oy my d) ->
  mx = my \/ ¬ ((lo = ox /\ hi = oy) \/ (lo = oy /\ hi = ox)) ->
  (pos_overlap (swap_adj l j) d lo hi <-> pos_overlap l d lo hi).
Proof.
  intros Hd Hnd Hx Hy Hcase. unfold pos_overlap.
  rewrite !(before_swap_minmax l d j ox oy mx my _ _ Hd Hnd Hx Hy).
  destruct mx, my; destruct Hcase as [Heq|Hpair]; try discriminate Heq; naive_solver.
Qed.

(** The swapped pair: a min proxy moving below a max proxy starts the
    overlap, a max proxy moving below a min proxy ends it. *)
Lemma pos_overlap_swap_pair (l : list nat) (d j ox oy : nat) (mx my : bool) :
  (d < 3)%nat -> NoDup l ->
  l !! j = Some (ref_of ox mx d) -> l !! S j = Some (ref_of oy my d) ->
  ox <> oy ->
  before l (min_ref ox d) (max_ref ox d) ->
  before l (min_ref oy d) (max_ref oy d) ->
  mx <> my ->
  (pos_overlap l d ox oy <-> my = false)
  /\ (pos_overlap (swap_adj l j) d ox oy <-> my = true).
Proof.
  intros Hd Hnd Hx Hy Hne Hposx Hposy Hm.
  pose proof (before_xy l j _ _ Hx Hy) as Hxy.
  pose proof (fun a => before_left l j _ _ a Hnd Hx Hy) as Hleft.
  pose proof (fun o1 o2 => before_swap_minmax l d j ox oy mx my o1 o2 Hd Hnd Hx Hy)
    as Hswap.
  unfold pos_overlap. rewrite !Hswap. clear Hswap.
  destruct mx, my; try done; clear Hm; simpl in *.
  - (* x is the min proxy of ox, y the max proxy of oy: the overlap ends *)
    assert (before l (min_ref oy d) (max_ref ox d)) as H2.
    { eapply before_trans; [done | | exact Hposx].
      apply Hleft; [exact Hposy|]. unfold min_ref. lia. }
    split; [naive_solver|]. split; [|done].
    intros [[[? _]|[_ Hn]] _]; [done|]. exfalso. by apply Hn.
  - (* x is the max proxy of ox, y the min proxy of oy: the overlap starts *)
    assert (before l (min_ref ox d) (max_ref oy d)) as H1.
    { eapply before_trans; [done | exact Hposx |].
      eapply before_trans; [done | exact Hxy | exact Hposy]. }
    split.
    + split; [|done]. intros [_ Hyx]. exfalso.
      by eapply (before_irrefl_pair l (max_ref ox d) (min_ref oy d)).
    + split; [done|]. intros _. split; [right; split; [done | naive_solver] | left; done].
Qed.

(** *** One turn of the inner loop of [sort] *)

(** The state after the swap and the two writes of [index], before the
    flags are looked at. *)
Definition swapped (d j : nat) (s : Broadphase) : Broadphase :=
  let l' := swap_adj (list_at d s) j in
  write_index (ref_at l' (S j)) (Z.of_nat (S j))
    (write_index (ref_at l' j) (Z.of_nat j)
       (set_lists (<[d := l']> (lists s)) s)).

Lemma swap_step_eq (d j : nat) (s : Broadphase) :
  swap_step d j s
  = toggle d (ref_at (swap_adj (list_at d s) j) j)
      (ref_at (swap_adj (list_at d s) j) (S j)) (swapped d j s).
Proof. reflexivity. Qed.

Lemma proxy_heap (s s' : Broadphase) (r : nat) :
  heap s' = heap s -> proxy s' r = proxy s r.
Proof. unfold proxy. by intros ->. Qed.

Lemma list_at_lists (s s' : Broadphase) (d : nat) :
  lists s' = lists s -> list_at d s' = list_at d s.
Proof. unfold list_at. by intros ->. Qed.

Lemma swapped_facts (d j : nat) (s : Broadphase) :
  (d < length (lists s))%nat ->
  let s1 := swapped d j s in
  (forall d', list_at d' s1
              = if decide (d' = d) then swap_adj (list_at d s) j else list_at d' s)
  /\ length (lists s1) = length (lists s)
  /\ length (heap s1) = length (heap s)
  /\ (forall r, same_static (proxy s1 r) (proxy s r))
  /\ flags s1 = flags s
  /\ intersections s1 = intersections s
  /\ objectCount s1 = objectCount s
  /\ objectToProxies s1 = objectToProxies s
  /\ needsSort s1 = needsSort s.
Proof.
  intros Hd s1. unfold s1, swapped. split_and!; try done.
  - intros d'. unfold write_index, list_at. simpl.
    destruct (decide (d' = d)) as [->|Hne].
    + by rewrite list_lookup_insert_eq.
    + by rewrite list_lookup_insert_ne.
  - simpl. by rewrite length_insert.
  - simpl. by rewrite !length_insert.
  - intros r. eapply same_static_trans; [apply proxy_write_index|].
    eapply same_static_trans; [apply proxy_write_index|].
    apply same_static_refl.
Qed.

Lemma proxy_of_static (o : nat) (obj : BroadphaseObject) (m : bool) (d : nat)
  (p q : ObjectProxy) :
  same_static p q -> proxy_of o obj m d q -> proxy_of o obj m d p.
Proof.
  unfold same_static, proxy_of.
  intros (?&?&?&?&?&?) (?&?&?&?&?&?). split_and!; congruence.
Qed.

(** A reference met in the list of axis [d] is the min or the max proxy of
    an inserted object. *)
Lemma Inv_ref (objs : list BroadphaseObject) (s : Broadphase) (d r : nat) :
  Inv objs s -> (d < 3)%nat -> r ∈ list_at d s ->
  exists o m obj,
    r = ref_of o m d /\ objs !! o = Some obj /\ proxy_of o obj m d (proxy s r).
Proof.
  intros HInv Hd Hr.
  rewrite (inv_perm _ _ HInv d Hd) in Hr.
  apply elem_of_refs_of_dim in Hr as (o & m & Ho & ->).
  destruct (lookup_lt_is_Some_2 objs o Ho) as [obj Hobj].
  exists o, m, obj. split_and!; [done | done |]. by apply (inv_heap _ _ HInv).
Qed.

Lemma Inv_NoDup (objs : list BroadphaseObject) (s : Broadphase) (d : nat) :
  Inv objs s -> (d < 3)%nat -> NoDup (list_at d s).
Proof.
  intros HInv Hd. rewrite (inv_perm _ _ HInv d Hd). by apply NoDup_refs_of_dim.
Qed.

Lemma Inv_length (objs : list BroadphaseObject) (s : Broadphase) (d : nat) :
  Inv objs s -> (d < 3)%nat -> length (list_at d s) = (2 * length objs)%nat.
Proof.
  intros HInv Hd. rewrite (inv_perm _ _ HInv d Hd). apply length_refs_of_dim.
Qed.

(** Two proxies out of order belong to different objects: the box of an
    object is not inverted, and its min proxy stands before its max proxy. *)
Lemma out_of_order_objects (objs : list BroadphaseObject) (s : Broadphase)
  (d j ox oy : nat) (mx my : bool) (X Y : BroadphaseObject) :
  Inv objs s -> (d < 3)%nat ->
  list_at d s !! j = Some (ref_of ox mx d) ->
  list_at d s !! S j = Some (ref_of oy my d) ->
  objs !! ox = Some X -> objs !! oy = Some Y ->
  value (proxy s (ref_of ox mx d)) > value (proxy s (ref_of oy my d)) ->
  ox <> oy.
Proof.
  intros HInv Hd Hx Hy HX HY Hgt ->.
  assert (X = Y) as -> by congruence.
  pose proof (Inv_NoDup _ _ _ HInv Hd) as Hnd.
  destruct (inv_heap _ _ HInv oy Y d mx HY Hd) as (_ & _ & _ & Hvx & _).
  destruct (inv_heap _ _ HInv oy Y d my HY Hd) as (_ & _ & _ & Hvy & _).
  pose proof (inv_boxes _ _ HInv) as Hboxes.
  rewrite Forall_forall in Hboxes.
  specialize (Hboxes Y (list_elem_of_lookup_2 _ _ _ HY) d Hd).
  destruct mx, my.
  - pose proof (NoDup_lookup _ _ _ _ Hnd Hx Hy). lia.
  - rewrite Hvx, Hvy in Hgt. lia.
  - apply (before_irrefl_pair (list_at d s) (min_ref oy d) (max_ref oy d)); [done | |].
    + apply (inv_pos _ _ HInv); [done|]. by eapply lookup_lt_Some.
    + exists j, (S j). split_and!; [done | done | lia].
  - pose proof (NoDup_lookup _ _ _ _ Hnd Hx Hy). lia.
Qed.

Lemma flag_of_insert (objs : list BroadphaseObject) (s s' : Broadphase)
  (hi_t lo_t : nat) (f' : Z) (hi lo : nat) :
  objectCount s = Z.of_nat (length objs) ->
  objectCount s' = objectCount s ->
  Z.of_nat (length (flags s))
  = Z.of_nat (length objs) * (Z.of_nat (length objs) - 1) / 2 ->
  flags s'
  = <[Z.to_nat (flagIndex (objectCount s) (Z.of_nat hi_t) (Z.of_nat lo_t)) := f']> (flags s) ->
  (lo_t < hi_t)%nat -> (hi_t < length objs)%nat ->
  (lo < hi)%nat -> (hi < length objs)%nat ->
  flag_of s' hi lo
  = if decide (hi = hi_t /\ lo = lo_t) then f' else flag_of s hi lo.
Proof.
  intros Hc Hc' Hlen Hfl Hlt_t Hhi_t Hlt Hhi.
  unfold flag_of, u8_get. rewrite Hc', Hfl, Hc.
  pose proof (flagIndex_bounds (Z.of_nat (length objs)) (Z.of_nat hi_t) (Z.of_nat lo_t)
                ltac:(lia) ltac:(lia)) as Hb_t.
  pose proof (flagIndex_bounds (Z.of_nat (length objs)) (Z.of_nat hi) (Z.of_nat lo)
                ltac:(lia) ltac:(lia)) as Hb.
  destruct (Z.ltb_spec (flagIndex (Z.of_nat (length objs)) (Z.of_nat hi) (Z.of_nat lo)) 0);
    [lia|].
  destruct (decide (hi = hi_t /\ lo = lo_t)) as [[-> ->]|Hne].
  - rewrite list_lookup_insert_eq by lia. done.
  - rewrite list_lookup_insert_ne; [done|].
    intros Heq. apply Hne.
    assert (flagIndex (Z.of_nat (length objs)) (Z.of_nat hi_t) (Z.of_nat lo_t)
            = flagIndex (Z.of_nat (length objs)) (Z.of_nat hi) (Z.of_nat lo)) as Heq' by lia.
    apply flagIndex_inj in Heq'; lia.
Qed.

(** The pair of an entry of the intersections array determines the two
    objects. *)
Lemma oid_pair_inj (objs : list BroadphaseObject) (lo hi lo' hi' : nat)
  (a b a' b' : BroadphaseObject) :
  NoDup (map oid objs) ->
  objs !! lo = Some a -> objs !! hi = Some b ->
  objs !! lo' = Some a' -> objs !! hi' = Some b' ->
  oid b = oid b' -> oid a = oid a' -> hi = hi' /\ lo = lo'.
Proof.
  intros Hnd Ha Hb Ha' Hb' Hob Hoa. split.
  - eapply (NoDup_lookup (map oid objs)); [done | |].
    + rewrite list_lookup_fmap, Hb. done.
    + rewrite list_lookup_fmap, Hb'. simpl. by rewrite Hob.
  - eapply (NoDup_lookup (map oid objs)); [done | |].
    + rewrite list_lookup_fmap, Ha. done.
    + rewrite list_lookup_fmap, Ha'. simpl. by rewrite Hoa.
Qed.

Lemma swap_step_Inv (objs : list BroadphaseObject) (s : Broadphase) (d j x y : nat) :
  Inv objs s -> (d < 3)%nat ->
  list_at d s !! j = Some x -> list_at d s !! S j = Some y ->
  value (proxy s x) > value (proxy s y) ->
  let s' := swap_step d j s in
  Inv objs s'
  /\ (forall d', list_at d' s'
                 = if decide (d' = d) then swap_adj (list_at d s) j else list_at d' s)
  /\ (forall r, same_static (proxy s' r) (proxy s r))
  /\ needsSort s' = needsSort s.
Proof.
  intros HInv Hd Hx Hy Hgt s'.
  destruct (Inv_ref objs s d x HInv Hd (list_elem_of_lookup_2 _ _ _ Hx))
    as (ox & mx & X & -> & HX & HpX).
  destruct (Inv_ref objs s d y HInv Hd (list_elem_of_lookup_2 _ _ _ Hy))
    as (oy & my & Y & -> & HY & HpY).
  pose proof (out_of_order_objects objs s d j ox oy mx my X Y HInv Hd Hx Hy HX HY Hgt)
    as Hne.
  pose proof (Inv_NoDup _ _ _ HInv Hd) as Hnd.
  set (l := list_at d s) in *. set (l' := swap_adj l j).
  assert (ref_at l' j = ref_of oy my d) as Hra.
  { unfold ref_at, l'. rewrite (swap_adj_lookup l j _ _ j Hx Hy).
    by rewrite decide_True. }
  assert (ref_at l' (S j) = ref_of ox mx d) as Hrb.
  { unfold ref_at, l'. rewrite (swap_adj_lookup l j _ _ (S j) Hx Hy).
    rewrite decide_False by lia. by rewrite decide_True. }
  unfold s'. rewrite swap_step_eq. fold l l'. rewrite Hra, Hrb.
  assert (d < length (lists s))%nat as Hdl by (rewrite (inv_lists _ _ HInv); lia).
  destruct (swapped_facts d j s Hdl)
    as (Hlist1 & Hll1 & Hhl1 & Hst1 & Hfl1 & Hin1 & Hoc1 & Hmap1 & Hns1).
  fold l l' in Hlist1.
  set (s1 := swapped d j s) in *.
  destruct (toggle_frame d (ref_of oy my d) (ref_of ox mx d) s1)
    as (Hheap & Hlists & Hmap & Hoc & Hns & _ & _).
  set (s2 := toggle d (ref_of oy my d) (ref_of ox mx d) s1) in *.
  assert (forall r, same_static (proxy s2 r) (proxy s r)) as Hst2.
  { intros r. rewrite (proxy_heap s1 s2 r Hheap). apply Hst1. }
  assert (forall d', list_at d' s2 = if decide (d' = d) then l' else list_at d' s)
    as Hlist2.
  { intros d'. rewrite (list_at_lists s1 s2 d' Hlists). apply Hlist1. }
  assert (ox < length objs)%nat as Hox by by eapply lookup_lt_Some.
  assert (oy < length objs)%nat as Hoy by by eapply lookup_lt_Some.
  pose proof (inv_pos _ _ HInv d ox Hd Hox) as Hposx.
  pose proof (inv_pos _ _ HInv d oy Hd Hoy) as Hposy. fold l in Hposx, Hposy.
  split_and!; [|done|done|congruence].
  (* the fields that do not depend on the flags *)
  assert (objectCount s2 = Z.of_nat (length objs)) as Hcount2
    by (rewrite Hoc, Hoc1; apply (inv_count _ _ HInv)).
  assert (forall d0, (d0 < 3)%nat -> list_at d0 s2 ≡ₚ refs_of_dim (length objs) d0)
    as Hperm2.
  { intros d0 Hd0. rewrite Hlist2. destruct (decide (d0 = d)) as [->|_].
    - unfold l'. rewrite (swap_adj_perm l j _ _ Hx Hy). by apply (inv_perm _ _ HInv).
    - by apply (inv_perm _ _ HInv). }
  assert (forall d0 o, (d0 < 3)%nat -> (o < length objs)%nat ->
                       before (list_at d0 s2) (min_ref o d0) (max_ref o d0)) as Hpos2.
  { intros d0 o Hd0 Ho. rewrite Hlist2. destruct (decide (d0 = d)) as [->|_].
    - apply (swap_keeps_pos l d j ox oy mx my o Hd Hnd Hx Hy Hne).
      by apply (inv_pos _ _ HInv).
    - by apply (inv_pos _ _ HInv). }
  (* how the overlap in list order changes *)
  assert (forall d0 lo hi, (d0 < 3)%nat ->
            (d0 <> d \/ mx = my \/ ¬ ((lo = ox /\ hi = oy) \/ (lo = oy /\ hi = ox))) ->
            (pos_overlap (list_at d0 s2) d0 lo hi
             <-> pos_overlap (list_at d0 s) d0 lo hi)) as Hother.
  { intros d0 lo hi Hd0 Hcase. rewrite Hlist2.
    destruct (decide (d0 = d)) as [->|Hdd]; [|done].
    apply (pos_overlap_swap_other l d j ox oy mx my lo hi Hd Hnd Hx Hy).
    destruct Hcase as [?|[?|?]]; [done | by left | by right]. }
  assert (HpY1 : proxy_of oy Y my d (proxy s1 (ref_of oy my d)))
    by (eapply proxy_of_static; [apply Hst1 | done]).
  assert (HpX1 : proxy_of ox X mx d (proxy s1 (ref_of ox mx d)))
    by (eapply proxy_of_static; [apply Hst1 | done]).
  assert (Hcount1 : objectCount s1 = Z.of_nat (length objs))
    by (rewrite Hoc1; apply (inv_count _ _ HInv)).
  destruct (decide (my <> mx /\ eligible Y X = true)) as [[Hm Hel]|Hno].
  - (* the pair is toggled *)
    assert (Hflen1 : Z.of_nat (length (flags s1))
                     = Z.of_nat (length objs) * (Z.of_nat (length objs) - 1) / 2)
      by (rewrite Hfl1; apply (inv_flags_len _ _ HInv)).
    assert (Hfr1 : forall k f, flags s1 !! k = Some f -> 0 <= f < 8)
      by (rewrite Hfl1; apply (inv_flags_range _ _ HInv)).
    destruct (toggle_some objs s1 d (ref_of oy my d) (ref_of ox mx d) oy ox my mx Y X
                Hd HY HX (not_eq_sym Hne) HpY1 HpX1 (inv_oids _ _ HInv)
                Hcount1 Hflen1 Hfr1 Hm Hel)
      as (f' & Hf'r & Hf'd & Hf'o & Hflags2 & Hinter2).
    fold s2 in Hflags2, Hinter2. clearbody s2. clearbody s1.
    set (lo_t := Nat.min oy ox) in *. set (hi_t := Nat.max oy ox) in *.
    assert (lo_t < hi_t)%nat as Hlt_t by (unfold lo_t, hi_t; lia).
    assert (hi_t < length objs)%nat as Hhi_t by (unfold hi_t; lia).
    assert (flag_of s1 hi_t lo_t = flag_of s hi_t lo_t) as Hf1
      by (unfold flag_of; by rewrite Hfl1, Hoc1).
    rewrite Hf1 in Hf'd, Hf'o, Hinter2.
    set (f := flag_of s hi_t lo_t) in *.
    assert (forall hi lo, (lo < hi)%nat -> (hi < length objs)%nat ->
              flag_of s2 hi lo
              = if decide (hi = hi_t /\ lo = lo_t) then f' else flag_of s hi lo) as Hflag2.
    { intros hi lo Hlt Hhi.
      rewrite (flag_of_insert objs s1 s2 hi_t lo_t f' hi lo) by done.
      destruct (decide _); [done|]. unfold flag_of. by rewrite Hfl1, Hoc1. }
    (* the objects of the toggled pair *)
    set (Lo := earlier oy ox Y X). set (Hi := later oy ox Y X).
    assert (objs !! lo_t = Some Lo /\ objs !! hi_t = Some Hi) as [HLo HHi].
    { unfold Lo, Hi, earlier, later, lo_t, hi_t.
      destruct (Nat.ltb_spec oy ox).
      - rewrite Nat.min_l, Nat.max_r by lia. done.
      - rewrite Nat.min_r, Nat.max_l by lia. done. }
    assert (eligible Lo Hi = true) as HelLH.
    { unfold Lo, Hi, earlier, later. destruct (oy <? ox)%nat; [done|].
      by rewrite eligible_sym. }
    (* the overlap of the toggled pair before and after *)
    destruct (pos_overlap_swap_pair l d j ox oy mx my Hd Hnd Hx Hy Hne Hposx Hposy
                (not_eq_sym Hm)) as [Hbefore Hafter].
    fold l' in Hafter.
    assert ((pos_overlap l d lo_t hi_t <-> my = false)
            /\ (pos_overlap l' d lo_t hi_t <-> my = true)) as [Hbefore_t Hafter_t].
    { unfold lo_t, hi_t. destruct (Nat.ltb_spec oy ox).
      - rewrite Nat.min_l, Nat.max_r by lia.
        rewrite (pos_overlap_sym l), (pos_overlap_sym l'). done.
      - rewrite Nat.min_r, Nat.max_l by lia. done. }
    assert (Z.testbit f (Z.of_nat d) = true <-> my = false) as Hfbit.
    { unfold f. rewrite (inv_flags _ _ HInv lo_t hi_t Lo Hi d Hlt_t HLo HHi Hd).
      fold l. rewrite Hbefore_t. tauto. }
    assert (f = flag_of s hi_t lo_t) as Hfdef by reflexivity.
    clearbody f.
    constructor.
    + done.
    + apply (inv_oids _ _ HInv).
    + apply (inv_boxes _ _ HInv).
    + rewrite Hlists, Hll1. apply (inv_lists _ _ HInv).
    + rewrite Hheap, Hhl1. apply (inv_heap_len _ _ HInv).
    + intros o obj d0 m Ho Hd0. eapply proxy_of_static; [apply Hst2|].
      by apply (inv_heap _ _ HInv).
    + intros o obj Ho. rewrite Hmap, Hmap1. by apply (inv_map _ _ HInv).
    + done.
    + done.
    + rewrite Hflags2, length_insert, Hfl1. apply (inv_flags_len _ _ HInv).
    + intros k g. rewrite Hflags2.
      destruct (decide (k = Z.to_nat
                  (flagIndex (objectCount s1) (Z.of_nat hi_t) (Z.of_nat lo_t))))
        as [->|Hk].
      * destruct (decide (Z.to_nat
                    (flagIndex (objectCount s1) (Z.of_nat hi_t) (Z.of_nat lo_t))
                  < length (flags s1))%nat).
        -- rewrite list_lookup_insert_eq by done. by intros [= <-].
        -- rewrite list_insert_ge by lia. apply Hfr1.
      * rewrite list_lookup_insert_ne by done. apply Hfr1.
    + intros lo hi a b d0 Hlt Ha Hb Hd0.
      assert (hi < length objs)%nat as Hhi by by eapply lookup_lt_Some.
      rewrite (Hflag2 hi lo Hlt Hhi).
      destruct (decide (hi = hi_t /\ lo = lo_t)) as [[-> ->]|Hpair].
      * assert (a = Lo) as -> by congruence. assert (b = Hi) as -> by congruence.
        destruct (decide (d0 = d)) as [->|Hdd].
        -- rewrite Hlist2, decide_True by done. rewrite Hafter_t, Hf'd.
           rewrite negb_true_iff. destruct (Z.testbit f (Z.of_nat d)), my;
             naive_solver.
        -- rewrite (Hf'o d0 Hd0 Hdd). rewrite (Hother d0 lo_t hi_t Hd0 (or_introl Hdd)).
           rewrite Hfdef. by apply (inv_flags _ _ HInv).
      * rewrite (Hother d0 lo hi Hd0).
        -- by apply (inv_flags _ _ HInv).
        -- right. right. intros [[-> ->]|[-> ->]]; apply Hpair; unfold hi_t, lo_t; lia.
    + (* the intersections array *)
      destruct (inv_inter _ _ HInv) as (ps & Hps & Hnd_ps & Hin_ps).
      assert ((oid Hi, oid Lo) ∈ ps <-> f = 7) as Hin_t.
      { rewrite Hin_ps, Hfdef. split.
        - intros (lo & hi & a & b & Hlt & Ha & Hb & Hob & Hoa & Hf7).
          destruct (oid_pair_inj objs lo hi lo_t hi_t a b Lo Hi (inv_oids _ _ HInv)
                      Ha Hb HLo HHi) as [-> ->]; [congruence | congruence | done].
        - intros Hf7. by exists lo_t, hi_t, Lo, Hi. }
      assert (forall x0 y0, (x0, y0) <> (oid Hi, oid Lo) ->
                ((exists lo hi a b,
                     (lo < hi)%nat /\ objs !! lo = Some a /\ objs !! hi = Some b
                     /\ x0 = oid b /\ y0 = oid a /\ flag_of s2 hi lo = 7)
                 <-> (x0, y0) ∈ ps)) as Hrest.
      { intros x0 y0 Hxy. rewrite Hin_ps. split.
        - intros (lo & hi & a & b & Hlt & Ha & Hb & -> & -> & Hf7).
          exists lo, hi, a, b. split_and!; try done.
          rewrite Hflag2 in Hf7; [|done|by eapply lookup_lt_Some].
          destruct (decide _) as [[-> ->]|]; [|done].
          exfalso. apply Hxy. congruence.
        - intros (lo & hi & a & b & Hlt & Ha & Hb & -> & -> & Hf7).
          exists lo, hi, a, b. split_and!; try done.
          rewrite Hflag2; [|done|by eapply lookup_lt_Some].
          destruct (decide _) as [[-> ->]|]; [|done].
          exfalso. apply Hxy. congruence. }
      assert ((exists lo hi a b,
                  (lo < hi)%nat /\ objs !! lo = Some a /\ objs !! hi = Some b
                  /\ oid Hi = oid b /\ oid Lo = oid a /\ flag_of s2 hi lo = 7)
              <-> f' = 7) as Hnew.
      { split.
        - intros (lo & hi & a & b & Hlt & Ha & Hb & Hob & Hoa & Hf7).
          destruct (oid_pair_inj objs lo hi lo_t hi_t a b Lo Hi (inv_oids _ _ HInv)
                      Ha Hb HLo HHi) as [-> ->]; [congruence | congruence |].
          rewrite Hflag2 in Hf7 by done. by rewrite decide_True in Hf7.
        - intros Hf7. exists lo_t, hi_t, Lo, Hi. split_and!; try done.
          rewrite Hflag2 by done. by rewrite decide_True. }
      rewrite Hin1, Hps in Hinter2. fold Hi Lo in Hinter2.
      destruct (Z.eqb_spec f 7) as [Hf7|Hf7].
      * (* the pair leaves the array *)
        assert (f' <> 7) as Hf'7.
        { intros ->. assert (Z.testbit f (Z.of_nat d) = true)
            by (rewrite Hf7; apply dim_cases in Hd; by destruct Hd as [->|[->| ->]]).
          rewrite H in Hf'd. apply dim_cases in Hd.
          destruct Hd as [->|[->| ->]]; discriminate Hf'd. }
        exists (remove_first (oid Hi, oid Lo) ps). split_and!.
        -- by rewrite Hinter2, remove_pair_unpairs.
        -- by apply remove_first_NoDup.
        -- intros x0 y0. rewrite remove_first_elem by done.
           destruct (decide ((x0, y0) = (oid Hi, oid Lo))) as [[= -> ->]|Hxy].
           ++ rewrite Hnew. naive_solver.
           ++ rewrite (Hrest x0 y0 Hxy). naive_solver.
      * destruct (Z.eqb_spec f' 7) as [Hf'7|Hf'7].
        -- (* the pair enters the array *)
           exists (ps ++ [(oid Hi, oid Lo)]). split_and!.
           ++ by rewrite Hinter2, unpairs_snoc.
           ++ apply NoDup_app. split_and!; [done | | apply NoDup_singleton].
              intros p Hp ->%list_elem_of_singleton. by apply Hf7, Hin_t.
           ++ intros x0 y0. rewrite elem_of_app, list_elem_of_singleton.
              destruct (decide ((x0, y0) = (oid Hi, oid Lo))) as [[= -> ->]|Hxy].
              ** rewrite Hnew. naive_solver.
              ** rewrite (Hrest x0 y0 Hxy). naive_solver.
        -- exists ps. split_and!; [done | done |].
           intros x0 y0.
           destruct (decide ((x0, y0) = (oid Hi, oid Lo))) as [[= -> ->]|Hxy].
           ++ rewrite Hnew, Hin_t. naive_solver.
           ++ by rewrite (Hrest x0 y0 Hxy).
  - (* nothing is toggled *)
    assert (s2 = s1) as Hs2.
    { unfold s2. eapply (toggle_none s1 d _ _ oy ox my mx Y X); try done.
      destruct (decide (my = mx)) as [|Hm]; [by left | right].
      destruct (eligible Y X) eqn:Hel; [|done]. exfalso. by apply Hno. }
    clearbody s2. clearbody s1.
    assert (flags s2 = flags s) as Hflags2 by (rewrite Hs2; done).
    assert (forall hi lo, flag_of s2 hi lo = flag_of s hi lo) as Hflag2.
    { intros hi lo. unfold flag_of. by rewrite Hflags2, Hoc, Hoc1. }
    constructor.
    + done.
    + apply (inv_oids _ _ HInv).
    + apply (inv_boxes _ _ HInv).
    + rewrite Hlists, Hll1. apply (inv_lists _ _ HInv).
    + rewrite Hheap, Hhl1. apply (inv_heap_len _ _ HInv).
    + intros o obj d0 m Ho Hd0. eapply proxy_of_static; [apply Hst2|].
      by apply (inv_heap _ _ HInv).
    + intros o obj Ho. rewrite Hmap, Hmap1. by apply (inv_map _ _ HInv).
    + done.
    + done.
    + rewrite Hflags2. apply (inv_flags_len _ _ HInv).
    + rewrite Hflags2. apply (inv_flags_range _ _ HInv).
    + intros lo hi a b d0 Hlt Ha Hb Hd0. rewrite Hflag2.
      destruct (decide (d0 <> d \/ mx = my
                        \/ ¬ ((lo = ox /\ hi = oy) \/ (lo = oy /\ hi = ox))))
        as [Hcase|Hcase].
      * rewrite (Hother d0 lo hi Hd0 Hcase). by apply (inv_flags _ _ HInv).
      * (* the swapped pair does not pass the test of the masks *)
        assert (eligible a b = false) as Hel.
        { destruct (decide (mx = my)) as [|Hm]; [exfalso; apply Hcase; tauto|].
          assert (eligible Y X = false) as HelYX.
          { destruct (eligible Y X) eqn:Hel; [|done]. exfalso. apply Hno.
            split; [congruence | done]. }
          destruct (decide ((lo = ox /\ hi = oy) \/ (lo = oy /\ hi = ox)))
            as [[[-> ->]|[-> ->]]|Hn]; [| |exfalso; apply Hcase; tauto].
          - assert (a = X) as -> by congruence. assert (b = Y) as -> by congruence.
            by rewrite eligible_sym.
          - assert (a = Y) as -> by congruence. assert (b = X) as -> by congruence.
            done. }
        rewrite (inv_flags _ _ HInv lo hi a b d0 Hlt Ha Hb Hd0). rewrite Hel.
        naive_solver.
    + destruct (inv_inter _ _ HInv) as (ps & Hps & Hnd_ps & Hin_ps).
      exists ps. split_and!; [by rewrite Hs2, Hin1 | done |].
      intros x0 y0. rewrite Hin_ps.
      split; intros (lo & hi & a & b & H); exists lo, hi, a, b;
        [rewrite Hflag2 | rewrite Hflag2 in H]; done.
Qed.

(** *** The insertion sort *)

(** The list of axis [d] is in order of value up to position [i]. *)
Definition sorted_upto (s : Broadphase) (d i : nat) : Prop :=
  forall p q a b,
    (p < q <= i)%nat ->
    list_at d s !! p = Some a -> list_at d s !! q = Some b ->
    value (proxy s a) <= value (proxy s b).

Definition sorted_dim (s : Broadphase) (d : nat) : Prop :=
  forall p q a b,
    (p < q)%nat ->
    list_at d s !! p = Some a -> list_at d s !! q = Some b ->
    value (proxy s a) <= value (proxy s b).

Lemma sort_inner_spec (objs : list BroadphaseObject) (d i : nat) :
  (d < 3)%nat ->
  forall j s,
    Inv objs s -> (j <= i)%nat -> (i < length (list_at d s))%nat ->
    (forall p q a b,
        (p < q <= i)%nat -> p <> j -> q <> j ->
        list_at d s !! p = Some a -> list_at d s !! q = Some b ->
        value (proxy s a) <= value (proxy s b)) ->
    (forall q a b,
        (j < q <= i)%nat ->
        list_at d s !! j = Some a -> list_at d s !! q = Some b ->
        value (proxy s a) < value (proxy s b)) ->
    let s' := sort_inner d 0 j s in
    Inv objs s'
    /\ sorted_upto s' d i
    /\ (forall d', d' <> d -> list_at d' s' = list_at d' s)
    /\ (forall r, same_static (proxy s' r) (proxy s r))
    /\ needsSort s' = needsSort s.
Proof.
  intros Hd. induction j as [|j IH]; intros s HInv Hji Hi P1 P2 s'.
  - unfold s'. simpl. split_and!; try done; try (by intros; apply same_static_refl).
    intros p q a b Hpq Hp Hq. destruct (decide (p = 0%nat)) as [->|Hp0].
    + apply Z.lt_le_incl. eapply P2; [|done|done]. lia.
    + eapply (P1 p q); [lia | lia | lia | done | done].
  - unfold s'. cbn [sort_inner].
    destruct (lookup_lt_is_Some_2 (list_at d s) j ltac:(lia)) as [x Hx].
    destruct (lookup_lt_is_Some_2 (list_at d s) (S j) ltac:(lia)) as [y Hy].
    assert (out_of_order d 0 (S j) s = (value (proxy s x) >? value (proxy s y))) as ->.
    { unfold out_of_order, ref_at. replace (S j - 1)%nat with j by lia.
      rewrite Hx, Hy. simpl default.
      destruct (Z.gtb_spec (Z.of_nat (S j)) 0) as [_|]; [done | lia]. }
    destruct (Z.gtb_spec (value (proxy s x)) (value (proxy s y))) as [Hgt|Hle].
    + (* the two proxies are swapped *)
      destruct (swap_step_Inv objs s d j x y HInv Hd Hx Hy ltac:(lia))
        as (HInv1 & Hlist1 & Hst1 & Hns1).
      set (s1 := swap_step d j s) in *.
      assert (forall r, value (proxy s1 r) = value (proxy s r)) as Hval.
      { intros r. by destruct (Hst1 r) as (_ & _ & _ & ? & _). }
      assert (forall k, list_at d s1 !! k
                        = if decide (k = j) then Some y
                          else if decide (k = S j) then Some x
                               else list_at d s !! k) as Hlook.
      { intros k. rewrite Hlist1, decide_True by done.
        by apply swap_adj_lookup. }
      destruct (IH s1 HInv1 ltac:(lia)) as (HInv' & Hsorted' & Hlist' & Hst' & Hns').
      * rewrite Hlist1, decide_True by done. by rewrite swap_adj_length.
      * intros p q a b Hpq Hpj Hqj. rewrite !Hlook, !Hval.
        rewrite (decide_False (P := p = j)) by done.
        rewrite (decide_False (P := q = j)) by done.
        destruct (decide (p = S j)) as [->|Hp]; destruct (decide (q = S j)) as [->|Hq];
          try lia.
        -- intros [= <-] Hb. apply (P1 j q x b); [lia | lia | lia | done | done].
        -- intros Ha [= <-]. apply (P1 p j a x); [lia | lia | lia | done | done].
        -- intros Ha Hb. apply (P1 p q a b); [lia | lia | lia | done | done].
      * intros q a b Hq. rewrite !Hlook, !Hval. rewrite decide_True by done.
        rewrite (decide_False (P := q = j)) by lia.
        intros [= <-]. destruct (decide (q = S j)) as [->|Hqs].
        -- intros [= <-]. lia.
        -- intros Hb. apply (P2 q y b); [lia | done | done].
      * split_and!; [done | done | | | congruence].
        -- intros d' Hd'. rewrite Hlist' by done. rewrite Hlist1.
           by rewrite decide_False.
        -- intros r. eapply same_static_trans; [apply Hst' | apply Hst1].
    + (* the proxy at [j] has found its place *)
      split_and!; try done; try (by intros; apply same_static_refl).
      intros p q a b Hpq Hp Hq.
      destruct (decide (q = S j)) as [->|Hqj].
      * assert (b = y) as -> by congruence.
        destruct (decide (p = j)) as [->|Hpj]; [assert (a = x) as -> by congruence; lia|].
        etrans; [apply (P1 p j a x); [lia | lia | lia | done | done] | lia].
      * destruct (decide (p = S j)) as [->|Hpj].
        -- assert (a = y) as -> by congruence.
           apply Z.lt_le_incl. apply (P2 q y b); [lia | done | done].
        -- apply (P1 p q a b); [lia | lia | lia | done | done].
Qed.

(** [Inv] does not look at the sort window nor at [needsSort]. *)
Lemma Inv_window (objs : list BroadphaseObject) (s s' : Broadphase) :
  lists s' = lists s -> heap s' = heap s -> objectToProxies s' = objectToProxies s ->
  objectCount s' = objectCount s -> flags s' = flags s ->
  intersections s' = intersections s ->
  Inv objs s -> Inv objs s'.
Proof.
  intros Hl Hh Hm Hc Hf Hi HInv.
  assert (forall d, list_at d s' = list_at d s) as Hlist
    by (intros; unfold list_at; by rewrite Hl).
  assert (forall r, proxy s' r = proxy s r) as Hproxy
    by (intros; unfold proxy; by rewrite Hh).
  assert (forall hi lo, flag_of s' hi lo = flag_of s hi lo) as Hflag
    by (intros; unfold flag_of; by rewrite Hf, Hc).
  constructor.
  - rewrite Hc. apply (inv_count _ _ HInv).
  - apply (inv_oids _ _ HInv).
  - apply (inv_boxes _ _ HInv).
  - rewrite Hl. apply (inv_lists _ _ HInv).
  - rewrite Hh. apply (inv_heap_len _ _ HInv).
  - intros. rewrite Hproxy. by apply (inv_heap _ _ HInv).
  - intros. rewrite Hm. by apply (inv_map _ _ HInv).
  - intros. rewrite Hlist. by apply (inv_perm _ _ HInv).
  - intros. rewrite Hlist. by apply (inv_pos _ _ HInv).
  - rewrite Hf. apply (inv_flags_len _ _ HInv).
  - rewrite Hf. apply (inv_flags_range _ _ HInv).
  - intros. rewrite Hflag, Hlist. by apply (inv_flags _ _ HInv).
  - destruct (inv_inter _ _ HInv) as (ps & Hps & Hnd & Hin). exists ps.
    split_and!; [congruence | done |].
    intros x y. rewrite Hin. by setoid_rewrite Hflag.
Qed.

Lemma sort_outer_spec (objs : list BroadphaseObject) (d : nat) :
  (d < 3)%nat ->
  forall m i0 s,
    Inv objs s -> (i0 + m < length (list_at d s))%nat -> sorted_upto s d i0 ->
    let s' := fold_left (fun s i => sort_inner d 0 (Z.to_nat i) s)
                (map (fun k => 1 + Z.of_nat k) (seq i0 m)) s in
    Inv objs s'
    /\ sorted_upto s' d (i0 + m)
    /\ (forall d', d' <> d -> list_at d' s' = list_at d' s)
    /\ (forall r, same_static (proxy s' r) (proxy s r))
    /\ needsSort s' = needsSort s.
Proof.
  intros Hd. induction m as [|m IH]; intros i0 s HInv Hlen Hsorted s'.
  - unfold s'. simpl. rewrite Nat.add_0_r.
    split_and!; try done; try (by intros; apply same_static_refl).
  - unfold s'. cbn [seq map fold_left].
    replace (Z.to_nat (1 + Z.of_nat i0)) with (S i0) by lia.
    destruct (sort_inner_spec objs d (S i0) Hd (S i0) s HInv ltac:(lia) ltac:(lia))
      as (HInv1 & Hsorted1 & Hlist1 & Hst1 & Hns1).
    { intros p q a b Hpq Hp Hq. apply Hsorted. lia. }
    { intros q a b Hq. lia. }
    set (s1 := sort_inner d 0 (S i0) s) in *.
    assert (length (list_at d s1) = length (list_at d s)) as Hlen1.
    { rewrite (Inv_length objs s1 d HInv1 Hd), (Inv_length objs s d HInv Hd). done. }
    destruct (IH (S i0) s1 HInv1 ltac:(lia) Hsorted1)
      as (HInv' & Hsorted' & Hlist' & Hst' & Hns').
    replace (i0 + S m)%nat with (S i0 + m)%nat by lia.
    split_and!; [done | done | | | congruence].
    + intros d' Hd'. rewrite Hlist' by done. by apply Hlist1.
    + intros r. eapply same_static_trans; [apply Hst' | apply Hst1].
Qed.

Lemma sorted_dim_transfer (s s' : Broadphase) (d : nat) :
  list_at d s' = list_at d s ->
  (forall r, same_static (proxy s' r) (proxy s r)) ->
  sorted_dim s d -> sorted_dim s' d.
Proof.
  intros Hl Hst Hs p q a b Hpq. rewrite Hl. intros Ha Hb.
  destruct (Hst a) as (_ & _ & _ & -> & _). destruct (Hst b) as (_ & _ & _ & -> & _).
  by eapply Hs.
Qed.

(** [sort] keeps the invariant, puts its axis in order and leaves the
    other axes as they are. *)
Lemma sort_spec (objs : list BroadphaseObject) (d : nat) (s : Broadphase) :
  (d < 3)%nat -> Inv objs s ->
  let s' := sort d s in
  Inv objs s'
  /\ sorted_dim s' d
  /\ (forall d', d' <> d -> list_at d' s' = list_at d' s)
  /\ (forall r, same_static (proxy s' r) (proxy s r))
  /\ needsSort s' = needsSort s.
Proof.
  intros Hd HInv s'.
  set (last := Z.of_nat (length (list_at 0 s)) - 1).
  set (s0 := set_sortEnds [Fin last; Fin last; Fin last]
               (set_sortStarts [Fin 0; Fin 0; Fin 0] s)).
  assert (Inv objs s0) as HInv0 by (by apply (Inv_window objs s s0)).
  assert (length (list_at d s) = length (list_at 0 s)) as Hlen.
  { rewrite !(Inv_length objs s) by (done || lia). done. }
  set (loop := fold_left (fun s i => sort_inner d 0 (Z.to_nat i) s)
                 (range (0 + 1) (last + 1)) s0).
  assert (s' = set_sortEnds (<[d := NegInf]> (sortEnds loop))
                 (set_sortStarts (<[d := PosInf]> (sortStarts loop)) loop)) as Hs'.
  { unfold s', sort. fold last. fold s0.
    assert (sortStarts s0 !! d = Some (Fin 0)) as ->.
    { apply dim_cases in Hd. by destruct Hd as [->|[->| ->]]. }
    assert (sortEnds s0 !! d = Some (Fin last)) as ->.
    { apply dim_cases in Hd. by destruct Hd as [->|[->| ->]]. }
    done. }
  assert (range (0 + 1) (last + 1)
          = map (fun k => 1 + Z.of_nat k) (seq 0 (length (list_at d s) - 1))) as Hrange.
  { unfold range. f_equal. f_equal. unfold last. lia. }
  destruct (decide (length (list_at d s) = 0%nat)) as [Hzero|Hpos].
  - (* no proxy at all *)
    assert (loop = s0) as Hloop.
    { unfold loop. rewrite Hrange, Hzero. done. }
    rewrite Hs', Hloop. split_and!; try done;
      try (by intros; apply same_static_refl).
    + by apply (Inv_window objs s0).
    + intros p q a b Hpq Ha. apply lookup_lt_Some in Ha.
      change (p < length (list_at d s))%nat in Ha. lia.
  - destruct (sort_outer_spec objs d Hd (length (list_at d s) - 1) 0 s0 HInv0)
      as (HInvL & HsortedL & HlistL & HstL & HnsL).
    { change (list_at d s0) with (list_at d s). lia. }
    { intros p q a b Hpq. lia. }
    rewrite <- Hrange in *. fold loop in HInvL, HsortedL, HlistL, HstL, HnsL.
    rewrite Hs'. split_and!.
    + by apply (Inv_window objs loop).
    + intros p q a b Hpq Ha Hb.
      apply (HsortedL p q a b); [|done|done].
      apply lookup_lt_Some in Hb.
      change (q < length (list_at d loop))%nat in Hb.
      rewrite (Inv_length objs loop d HInvL Hd) in Hb.
      rewrite (Inv_length objs s d HInv Hd). lia.
    + intros d' Hd'. by apply (HlistL d').
    + intros r. apply HstL.
    + done.
Qed.

(** After [recompute] the three axes are in order. *)
Lemma recompute_spec (objs : list BroadphaseObject) (s : Broadphase) :
  Inv objs s ->
  (needsSort s = false -> forall d, (d < 3)%nat -> sorted_dim s d) ->
  let s' := recompute s in
  Inv objs s'
  /\ needsSort s' = false
  /\ (forall d, (d < 3)%nat -> sorted_dim s' d)
  /\ (forall r, same_static (proxy s' r) (proxy s r)).
Proof.
  intros HInv Hsorted s'. unfold s', recompute.
  destruct (needsSort s) eqn:Hns.
  - cbn [fold_left].
    destruct (sort_spec objs 0 s ltac:(lia) HInv) as (HInv0 & Hs0 & Hl0 & Hst0 & _).
    revert HInv0 Hs0 Hl0 Hst0. generalize (sort 0 s). intros s0 HInv0 Hs0 Hl0 Hst0.
    destruct (sort_spec objs 1 s0 ltac:(lia) HInv0) as (HInv1 & Hs1 & Hl1 & Hst1 & _).
    revert HInv1 Hs1 Hl1 Hst1. generalize (sort 1 s0). intros s1 HInv1 Hs1 Hl1 Hst1.
    destruct (sort_spec objs 2 s1 ltac:(lia) HInv1) as (HInv2 & Hs2 & Hl2 & Hst2 & _).
    revert HInv2 Hs2 Hl2 Hst2. generalize (sort 2 s1). intros s2 HInv2 Hs2 Hl2 Hst2.
    split_and!.
    + by apply (Inv_window objs s2).
    + done.
    + intros d Hd. apply (sorted_dim_transfer s2); [done | intros; apply same_static_refl |].
      apply dim_cases in Hd. destruct Hd as [->|[->| ->]].
      * apply (sorted_dim_transfer s1); [by apply Hl2 | done |].
        apply (sorted_dim_transfer s0); [by apply Hl1 | done | done].
      * apply (sorted_dim_transfer s1); [by apply Hl2 | done | done].
      * done.
    + intros r. change (proxy (set_needsSort false s2) r) with (proxy s2 r).
      eapply same_static_trans; [apply Hst2|].
      eapply same_static_trans; [apply Hst1 | apply Hst0].
  - split_and!; [done | done | by apply Hsorted | by intros; apply same_static_refl].
Qed.

(** *** Moving an object: update *)

(** The same JS object, possibly with another bounding box. *)
Definition same_identity (a b : BroadphaseObject) : Prop :=
  oid a = oid b
  /\ collisionDetectionMask a = collisionDetectionMask b
  /\ o_dynamic a = o_dynamic b.

Lemma eligible_identity (a a' b b' : BroadphaseObject) :
  same_identity a a' -> same_identity b b' -> eligible a b = eligible a' b'.
Proof. intros (_ & Hm & Hd) (_ & Hm' & Hd'). unfold eligible. congruence. Qed.

(** The invariant carries over to a state that differs in the values of
    the proxies only, for objects that differ in their boxes only. *)
Lemma Inv_transfer (objs objs' : list BroadphaseObject) (s s' : Broadphase) :
  Forall2 same_identity objs objs' ->
  Forall valid_box objs' ->
  lists s' = lists s -> length (heap s') = length (heap s) ->
  objectToProxies s' = objectToProxies s ->
  objectCount s' = objectCount s -> flags s' = flags s ->
  intersections s' = intersections s ->
  (forall o obj d m, objs' !! o = Some obj -> (d < 3)%nat ->
                     proxy_of o obj m d (proxy s' (ref_of o m d))) ->
  Inv objs s -> Inv objs' s'.
Proof.
  intros Hobjs Hboxes Hl Hh Hm Hc Hf Hi Hheap HInv.
  assert (forall d, list_at d s' = list_at d s) as Hlist
    by (intros; unfold list_at; by rewrite Hl).
  assert (forall hi lo, flag_of s' hi lo = flag_of s hi lo) as Hflag
    by (intros; unfold flag_of; by rewrite Hf, Hc).
  pose proof (Forall2_length _ _ _ Hobjs) as Hlen.
  assert (forall o b, objs' !! o = Some b ->
            exists a, objs !! o = Some a /\ same_identity a b) as Hback.
  { intros o b Hb. destruct (Forall2_lookup_r _ _ _ _ _ Hobjs Hb) as (a & Ha & Hab).
    by exists a. }
  assert (forall o a, objs !! o = Some a ->
            exists b, objs' !! o = Some b /\ same_identity a b) as Hforth.
  { intros o a Ha. destruct (Forall2_lookup_l _ _ _ _ _ Hobjs Ha) as (b & Hb & Hab).
    by exists b. }
  assert (map oid objs' = map oid objs) as Hoids.
  { clear -Hobjs. induction Hobjs as [|a b l l' (Ho & _) _ IH]; simpl; [done|].
    by rewrite IH, Ho. }
  constructor.
  - rewrite Hc, <- Hlen. apply (inv_count _ _ HInv).
  - rewrite Hoids. apply (inv_oids _ _ HInv).
  - done.
  - rewrite Hl. apply (inv_lists _ _ HInv).
  - rewrite Hh, <- Hlen. apply (inv_heap_len _ _ HInv).
  - done.
  - intros o b Hb. destruct (Hback o b Hb) as (a & Ha & (Ho & _)).
    rewrite Hm, <- Ho. by apply (inv_map _ _ HInv).
  - intros d Hd. rewrite Hlist, <- Hlen. by apply (inv_perm _ _ HInv).
  - intros d o Hd Ho. rewrite Hlist. apply (inv_pos _ _ HInv); [done | lia].
  - rewrite Hf, <- Hlen. apply (inv_flags_len _ _ HInv).
  - rewrite Hf. apply (inv_flags_range _ _ HInv).
  - intros lo hi a' b' d Hlt Ha' Hb' Hd.
    destruct (Hback lo a' Ha') as (a & Ha & Haa).
    destruct (Hback hi b' Hb') as (b & Hb & Hbb).
    rewrite Hflag, Hlist, <- (eligible_identity a a' b b' Haa Hbb).
    by apply (inv_flags _ _ HInv).
  - destruct (inv_inter _ _ HInv) as (ps & Hps & Hnd & Hin). exists ps.
    split_and!; [congruence | done |].
    intros x y. rewrite Hin. split.
    + intros (lo & hi & a & b & Hlt & Ha & Hb & -> & -> & Hf7).
      destruct (Hforth lo a Ha) as (a' & Ha' & (Hoa & _)).
      destruct (Hforth hi b Hb) as (b' & Hb' & (Hob & _)).
      exists lo, hi, a', b'. rewrite Hflag. by split_and!.
    + intros (lo & hi & a' & b' & Hlt & Ha' & Hb' & -> & -> & Hf7).
      destruct (Hback lo a' Ha') as (a & Ha & (Hoa & _)).
      destruct (Hback hi b' Hb') as (b & Hb & (Hob & _)).
      exists lo, hi, a, b. rewrite Hflag in Hf7. by split_and!.
Qed.

Lemma proxy_write_value (r : nat) (v : Z) (s : Broadphase) (a : nat) :
  (r < length (heap s))%nat ->
  proxy (write_value r v s) a
  = if decide (a = r) then set_value v (proxy s r) else proxy s a.
Proof.
  intros Hr. unfold write_value, proxy. simpl.
  destruct (decide (a = r)) as [->|Hne].
  - by rewrite list_lookup_insert_eq.
  - by rewrite list_lookup_insert_ne.
Qed.

Lemma update_dim_facts (obj : BroadphaseObject) (o : nat) (s : Broadphase) (dim : nat) :
  (dim < 3)%nat -> (6 * o + 5 < length (heap s))%nat ->
  let s' := update_dim obj (seq (6 * o) 6) s dim in
  lists s' = lists s /\ length (heap s') = length (heap s)
  /\ objectToProxies s' = objectToProxies s /\ objectCount s' = objectCount s
  /\ flags s' = flags s /\ intersections s' = intersections s
  /\ forall a,
       proxy s' a
       = if decide (a = max_ref o dim)
         then set_value (getComponent (box_max (boundingBox obj)) dim) (proxy s a)
         else if decide (a = min_ref o dim)
              then set_value (getComponent (box_min (boundingBox obj)) dim) (proxy s a)
              else proxy s a.
Proof.
  intros Hdim Hlen s'.
  assert (ref_at (seq (6 * o) 6) (dim + 0) = min_ref o dim
          /\ ref_at (seq (6 * o) 6) (dim + 3) = max_ref o dim) as [Hmin Hmax].
  { unfold ref_at, min_ref, max_ref. rewrite !lookup_seq_lt by lia. simpl. lia. }
  unfold s', update_dim. rewrite Hmin, Hmax.
  split_and!; try done.
  - simpl. by rewrite !length_insert.
  - intros a.
    transitivity
      (proxy (write_value (max_ref o dim)
                (getComponent (box_max (boundingBox obj)) dim)
                (write_value (min_ref o dim)
                   (getComponent (box_min (boundingBox obj)) dim) s)) a);
      [reflexivity|].
    rewrite proxy_write_value.
    2: { unfold write_value. simpl. rewrite length_insert. unfold max_ref. lia. }
    rewrite !proxy_write_value by (unfold min_ref; lia).
    destruct (decide (a = max_ref o dim)) as [->|Hmaxa].
    + rewrite decide_False; [done|]. unfold min_ref, max_ref. lia.
    + by destruct (decide (a = min_ref o dim)) as [->|Hmina].
Qed.

Lemma update_spec (objs : list BroadphaseObject) (s : Broadphase)
  (obj old : BroadphaseObject) (o : nat) :
  Inv objs s -> objs !! o = Some old -> same_identity old obj -> valid_box obj ->
  let s' := update obj s in
  Inv (<[o := obj]> objs) s' /\ needsSort s' = true.
Proof.
  intros HInv Hold Hsame Hbox s'.
  pose proof (lookup_lt_Some _ _ _ Hold) as Ho.
  pose proof (inv_heap_len _ _ HInv) as Hhl.
  assert (s' = set_needsSort true
                 (fold_left (update_dim obj (seq (6 * o) 6)) [0; 1; 2]%nat s)) as ->.
  { unfold s', update. destruct Hsame as (Hoid & _). rewrite <- Hoid.
    by rewrite (inv_map _ _ HInv o old Hold). }
  split; [|done]. cbn [fold_left].
  destruct (update_dim_facts obj o s 0 ltac:(lia) ltac:(lia))
    as (Hl0 & Hh0 & Hm0 & Hc0 & Hf0 & Hi0 & Hp0).
  revert Hl0 Hh0 Hm0 Hc0 Hf0 Hi0 Hp0.
  generalize (update_dim obj (seq (6 * o) 6) s 0).
  intros s0 Hl0 Hh0 Hm0 Hc0 Hf0 Hi0 Hp0.
  destruct (update_dim_facts obj o s0 1 ltac:(lia) ltac:(lia))
    as (Hl1 & Hh1 & Hm1 & Hc1 & Hf1 & Hi1 & Hp1).
  revert Hl1 Hh1 Hm1 Hc1 Hf1 Hi1 Hp1.
  generalize (update_dim obj (seq (6 * o) 6) s0 1).
  intros s1 Hl1 Hh1 Hm1 Hc1 Hf1 Hi1 Hp1.
  destruct (update_dim_facts obj o s1 2 ltac:(lia) ltac:(lia))
    as (Hl2 & Hh2 & Hm2 & Hc2 & Hf2 & Hi2 & Hp2).
  revert Hl2 Hh2 Hm2 Hc2 Hf2 Hi2 Hp2.
  generalize (update_dim obj (seq (6 * o) 6) s1 2).
  intros s2 Hl2 Hh2 Hm2 Hc2 Hf2 Hi2 Hp2.
  apply (Inv_transfer objs (<[o := obj]> objs) s);
    [ | | change (lists s2 = lists s); congruence
      | change (length (heap s2) = length (heap s)); congruence
      | change (objectToProxies s2 = objectToProxies s); congruence
      | change (objectCount s2 = objectCount s); congruence
      | change (flags s2 = flags s); congruence
      | change (intersections s2 = intersections s); congruence
      | | done ].
  - apply Forall2_same_length_lookup_2; [by rewrite length_insert|].
    intros k a b Ha Hb. destruct (decide (k = o)) as [->|Hk].
    + rewrite list_lookup_insert_eq in Hb by done. congruence.
    + rewrite list_lookup_insert_ne in Hb by done.
      assert (a = b) as -> by congruence. by repeat split.
  - apply Forall_insert; [apply (inv_boxes _ _ HInv) | done].
  - intros o' obj' d m Hobj' Hd.
    change (proxy (set_needsSort true s2) (ref_of o' m d)) with (proxy s2 (ref_of o' m d)).
    rewrite Hp2, Hp1, Hp0.
    destruct (decide (o' = o)) as [->|Hne].
    + rewrite list_lookup_insert_eq in Hobj' by done. injection Hobj' as <-.
      destruct (inv_heap _ _ HInv o old d m Hold Hd) as (H1 & H2 & H3 & _ & H5 & H6).
      destruct Hsame as (Hso & Hsm & Hsd).
      apply dim_cases in Hd.
      unfold ref_of, min_ref, max_ref in *.
      destruct m, Hd as [->|[->| ->]];
        repeat (match goal with
                | |- context [decide (?a = ?b)] =>
                    first [ rewrite (decide_True (P := a = b)) by lia
                          | rewrite (decide_False (P := a = b)) by lia ]
                end);
        (split_and!; cbn [objectIndex object min value mask dynamic set_value];
         congruence).
    + rewrite list_lookup_insert_ne in Hobj' by done.
      assert (forall d', (d' < 3)%nat ->
                ref_of o' m d <> max_ref o d' /\ ref_of o' m d <> min_ref o d') as Hdiff.
      { intros d' Hd'. unfold ref_of, min_ref, max_ref. destruct m; lia. }
      rewrite !decide_False by (apply Hdiff; lia).
      by apply (inv_heap _ _ HInv).
Qed.

(** *** Inserting objects into a broadphase that has not sorted yet *)

(** The state between the inserts and the first sort: no flag is set and
    the lists hold the proxies in the order of insertion. *)
Definition Fresh (objs : list BroadphaseObject) (s : Broadphase) : Prop :=
  Inv objs s
  /\ anyFlagSet s = false
  /\ intersections s = []
  /\ (forall k f, flags s !! k = Some f -> f = 0)
  /\ (forall d, (d < 3)%nat -> list_at d s = refs_of_dim (length objs) d)
  /\ (needsSort s = false -> objs = []).

Lemma refs_of_dim_S (n d : nat) :
  refs_of_dim (S n) d = refs_of_dim n d ++ [min_ref n d; max_ref n d].
Proof. unfold refs_of_dim. by rewrite seq_S, flat_map_app. Qed.

Lemma refs_of_dim_lookup (n d o : nat) :
  (o < n)%nat ->
  refs_of_dim n d !! (2 * o)%nat = Some (min_ref o d)
  /\ refs_of_dim n d !! (2 * o + 1)%nat = Some (max_ref o d).
Proof.
  induction n as [|n IH]; [lia|]. intros Ho. rewrite refs_of_dim_S.
  pose proof (length_refs_of_dim n d) as Hlen.
  destruct (decide (o = n)) as [->|Hne].
  - rewrite !lookup_app_r by lia. rewrite Hlen.
    replace (2 * n - 2 * n)%nat with 0%nat by lia.
    replace (2 * n + 1 - 2 * n)%nat with 1%nat by lia. done.
  - destruct (IH ltac:(lia)) as [H1 H2].
    rewrite !lookup_app_l by lia. done.
Qed.

Lemma fresh_pos (n d o : nat) :
  (o < n)%nat -> before (refs_of_dim n d) (min_ref o d) (max_ref o d).
Proof.
  intros Ho. destruct (refs_of_dim_lookup n d o Ho) as [H1 H2].
  exists (2 * o)%nat, (2 * o + 1)%nat. split_and!; [done | done | lia].
Qed.

Lemma fresh_no_overlap (n d lo hi : nat) :
  (d < 3)%nat -> (lo < hi)%nat -> (hi < n)%nat ->
  ¬ pos_overlap (refs_of_dim n d) d lo hi.
Proof.
  intros Hd Hlt Hhi [_ (i & j & Hi & Hj & Hij)].
  pose proof (NoDup_refs_of_dim n d Hd) as Hnd.
  destruct (refs_of_dim_lookup n d hi Hhi) as [H1 _].
  destruct (refs_of_dim_lookup n d lo ltac:(lia)) as [_ H2].
  pose proof (NoDup_lookup _ _ _ _ Hnd Hi H1).
  pose proof (NoDup_lookup _ _ _ _ Hnd Hj H2). lia.
Qed.

Lemma new_proxies_eq (k : Z) (obj : BroadphaseObject) :
  new_proxies k obj
  = [new_proxy k obj 0 0; new_proxy k obj 0 1; new_proxy k obj 0 2;
     new_proxy k obj 1 0; new_proxy k obj 1 1; new_proxy k obj 1 2].
Proof. reflexivity. Qed.

Lemma push_proxy_facts (s : Broadphase) (i ref : nat) :
  (length (lists s) = 3)%nat ->
  let s' := push_proxy s (i, ref) in
  (forall d', list_at d' s'
              = if decide (d' = i mod 3)%nat then list_at d' s ++ [ref] else list_at d' s)
  /\ length (lists s') = length (lists s)
  /\ length (heap s') = length (heap s)
  /\ (forall r, same_static (proxy s' r) (proxy s r))
  /\ flags s' = flags s /\ intersections s' = intersections s
  /\ objectCount s' = objectCount s /\ objectToProxies s' = objectToProxies s
  /\ anyFlagSet s' = anyFlagSet s.
Proof.
  intros Hl s'. unfold s', push_proxy.
  assert (i mod 3 < length (lists s))%nat as Hi.
  { rewrite Hl. apply Nat.mod_upper_bound. lia. }
  split_and!; try done.
  - intros d'.
    transitivity (list_at d' (set_lists (<[(i mod 3)%nat := list_at (i mod 3) s ++ [ref]]>
                                           (lists s)) s)); [reflexivity|].
    rewrite list_at_set_lists by done. by destruct (decide _) as [->|].
  - cbn [write_index set_heap set_lists lists]. by rewrite length_insert.
  - cbn [write_index set_heap set_lists heap]. by rewrite length_insert.
  - intros r. eapply same_static_trans; [apply proxy_write_index|].
    apply same_static_refl.
Qed.

Lemma push_six (s : Broadphase) (b : nat) :
  (length (lists s) = 3)%nat ->
  let s' := fold_left push_proxy (zip (seq 0 6) (seq b 6)) s in
  (forall d, (d < 3)%nat ->
             list_at d s' = list_at d s ++ [(b + d)%nat; (b + 3 + d)%nat])
  /\ length (lists s') = 3%nat
  /\ length (heap s') = length (heap s)
  /\ (forall r, same_static (proxy s' r) (proxy s r))
  /\ flags s' = flags s /\ intersections s' = intersections s
  /\ objectCount s' = objectCount s /\ objectToProxies s' = objectToProxies s
  /\ anyFlagSet s' = anyFlagSet s.
Proof.
  intros Hl s'. unfold s'. cbn [seq zip zip_with fold_left].
  destruct (push_proxy_facts s 0 b Hl) as (L0 & Hl0 & Hh0 & S0 & F0 & I0 & K0 & M0 & A0).
  set (s0 := push_proxy s (0%nat, b)) in *.
  destruct (push_proxy_facts s0 1 (S b) ltac:(congruence))
    as (L1 & Hl1 & Hh1 & S1 & F1 & I1 & K1 & M1 & A1).
  set (s1 := push_proxy s0 (1%nat, S b)) in *.
  destruct (push_proxy_facts s1 2 (S (S b)) ltac:(congruence))
    as (L2 & Hl2 & Hh2 & S2 & F2 & I2 & K2 & M2 & A2).
  set (s2 := push_proxy s1 (2%nat, S (S b))) in *.
  destruct (push_proxy_facts s2 3 (S (S (S b))) ltac:(congruence))
    as (L3 & Hl3 & Hh3 & S3 & F3 & I3 & K3 & M3 & A3).
  set (s3 := push_proxy s2 (3%nat, S (S (S b)))) in *.
  destruct (push_proxy_facts s3 4 (S (S (S (S b)))) ltac:(congruence))
    as (L4 & Hl4 & Hh4 & S4 & F4 & I4 & K4 & M4 & A4).
  set (s4 := push_proxy s3 (4%nat, S (S (S (S b))))) in *.
  destruct (push_proxy_facts s4 5 (S (S (S (S (S b))))) ltac:(congruence))
    as (L5 & Hl5 & Hh5 & S5 & F5 & I5 & K5 & M5 & A5).
  set (s5 := push_proxy s4 (5%nat, S (S (S (S (S b)))))) in *.
  split_and!; try congruence.
  - intros d Hd. rewrite L5, L4, L3, L2, L1, L0.
    apply dim_cases in Hd. destruct Hd as [->|[->| ->]]; simpl;
      rewrite <- ?app_assoc; simpl; repeat f_equal; lia.
  - intros r.
    eapply same_static_trans; [apply S5|]. eapply same_static_trans; [apply S4|].
    eapply same_static_trans; [apply S3|]. eapply same_static_trans; [apply S2|].
    eapply same_static_trans; [apply S1|]. apply S0.
Qed.

Lemma allocate_facts (obj : BroadphaseObject) (s : Broadphase) :
  (length (lists s) = 3)%nat ->
  let s' := allocate obj s in
  let b := length (heap s) in
  let k := objectCount s in
  (forall d, (d < 3)%nat ->
             list_at d s' = list_at d s ++ [(b + d)%nat; (b + 3 + d)%nat])
  /\ length (lists s') = 3%nat
  /\ length (heap s') = (b + 6)%nat
  /\ (forall r, same_static (proxy s' r)
                  (default no_proxy ((heap s ++ new_proxies k obj) !! r)))
  /\ flags s' = flags s
  /\ intersections s' = intersections s
  /\ objectCount s' = k + 1
  /\ objectToProxies s' = <[oid obj := seq b 6]> (objectToProxies s)
  /\ anyFlagSet s' = anyFlagSet s
  /\ needsSort s' = needsSort s.
Proof.
  intros Hl s' b k.
  set (sc := set_objectToProxies (<[oid obj := seq b 6]> (objectToProxies s))
               (set_heap (heap s ++ new_proxies (k + 1 - 1) obj)
                  (set_objectCount (k + 1) s))).
  assert (s' = fold_left push_proxy (zip (seq 0 6) (seq b 6)) sc) as -> by reflexivity.
  destruct (push_six sc b Hl) as (L & Hl' & Hh & S & F & I & C & M & A).
  set (sd := fold_left push_proxy (zip (seq 0 6) (seq b 6)) sc) in *.
  split_and!; try done.
  - rewrite Hh. unfold sc. cbn [heap set_objectToProxies set_heap]. rewrite length_app.
    rewrite new_proxies_eq. done.
  - intros r. replace k with (k + 1 - 1) at 1 by lia. apply S.
Qed.

(** The second half of [insert], on the state that the first half leaves. *)
Lemma insert_finish_facts (sd : Broadphase) (starts ends : list num) :
  anyFlagSet sd = false ->
  let k := objectCount sd - 1 in
  let s' := set_sortEnds ends
              (set_sortStarts starts (set_needsSort true (grow_flags sd))) in
  lists s' = lists sd
  /\ heap s' = heap sd
  /\ flags s' = replicate (Z.to_nat ((k * k + k) / 2)) 0
  /\ intersections s' = intersections sd
  /\ objectCount s' = objectCount sd
  /\ objectToProxies s' = objectToProxies sd
  /\ anyFlagSet s' = false
  /\ needsSort s' = true.
Proof.
  intros A k s'.
  assert (grow_flags sd = set_flags (replicate (Z.to_nat ((k * k + k) / 2)) 0) sd) as Hg.
  { unfold grow_flags. cbv zeta.
    change (anyFlagSet (set_flags _ sd)) with (anyFlagSet sd). by rewrite A. }
  unfold s'. rewrite Hg. by split_and!.
Qed.

Lemma insert_facts (obj : BroadphaseObject) (s : Broadphase) :
  (length (lists s) = 3)%nat -> anyFlagSet s = false ->
  let s' := insert obj s in
  let b := length (heap s) in
  let k := objectCount s in
  (forall d, (d < 3)%nat ->
             list_at d s' = list_at d s ++ [(b + d)%nat; (b + 3 + d)%nat])
  /\ length (lists s') = 3%nat
  /\ length (heap s') = (b + 6)%nat
  /\ (forall r, same_static (proxy s' r)
                  (default no_proxy ((heap s ++ new_proxies k obj) !! r)))
  /\ flags s' = replicate (Z.to_nat ((k * k + k) / 2)) 0
  /\ intersections s' = intersections s
  /\ objectCount s' = k + 1
  /\ objectToProxies s' = <[oid obj := seq b 6]> (objectToProxies s)
  /\ anyFlagSet s' = false
  /\ needsSort s' = true.
Proof.
  intros Hl Hany s' b k.
  destruct (allocate_facts obj s Hl) as (L & Hl' & Hh & Hst & F & I & C & M & A & _).
  fold b k in L, Hh, Hst, C, M. rewrite Hany in A.
  unfold s', insert. clear s'. cbv zeta.
  match goal with |- context [set_sortEnds ?ends (set_sortStarts ?starts _)] =>
    destruct (insert_finish_facts (allocate obj s) starts ends A)
      as (L1 & H1 & F1 & I1 & K1 & M1 & A1 & N1);
    generalize dependent (set_sortEnds ends
                            (set_sortStarts starts
                               (set_needsSort true (grow_flags (allocate obj s)))))
  end.
  generalize dependent (allocate obj s). intros sd L Hl' Hh Hst F I C M A s' L1 H1 F1 I1 K1 M1 A1 N1.
  unfold list_at, proxy. rewrite L1, H1, F1, I1, K1, M1, A1, N1.
  split_and!; try done.
  rewrite C. by replace (k + 1 - 1) with k by lia.
Qed.

Lemma Fresh_empty : Fresh [] empty.
Proof.
  split_and!; try done.
  - constructor; try done.
    + constructor.
    + intros d Hd. apply dim_cases in Hd. by destruct Hd as [->|[->| ->]].
    + simpl. lia.
    + exists []. split_and!; [done | constructor |].
      intros x y. split; [by intros ?%elem_of_nil|].
      by intros (lo & hi & a & b & _ & Ha & _).
  - intros d Hd. apply dim_cases in Hd. by destruct Hd as [->|[->| ->]].
Qed.

Lemma u8_get_zero (fl : list Z) (i : Z) :
  (forall k f, fl !! k = Some f -> f = 0) -> u8_get fl i = 0.
Proof.
  intros Hfl. unfold u8_get. destruct (i <? 0); [done|].
  destruct (fl !! Z.to_nat i) as [f|] eqn:Hf; simpl; [by eapply Hfl | done].
Qed.

Lemma new_proxy_lookup (k : Z) (obj : BroadphaseObject) (m : bool) (d : nat) :
  (d < 3)%nat ->
  new_proxies k obj !! (if m then d else 3 + d)%nat
  = Some (new_proxy k obj (if m then 0 else 1) d).
Proof.
  intros Hd. apply dim_cases in Hd. by destruct m, Hd as [->|[->| ->]].
Qed.

Lemma insert_Fresh (objs : list BroadphaseObject) (s : Broadphase)
  (obj : BroadphaseObject) :
  Fresh objs s -> oid obj ∉ map oid objs -> valid_box obj ->
  Fresh (objs ++ [obj]) (insert obj s).
Proof.
  intros (HInv & Hany & Hinter & Hzero & Horder & _) Hnew Hbox.
  pose proof (inv_lists _ _ HInv) as Hl.
  pose proof (inv_heap_len _ _ HInv) as Hhl.
  pose proof (inv_count _ _ HInv) as Hcount.
  destruct (insert_facts obj s Hl Hany)
    as (L & Hl' & Hh & Hst & F & I & C & M & A & Hns).
  set (s' := insert obj s) in *. set (n := length objs) in *.
  rewrite Hhl in L, Hh, M. rewrite Hcount in Hst, F, C. cbv zeta in *.
  assert (forall d, (d < 3)%nat -> list_at d s' = refs_of_dim (S n) d) as Horder'.
  { intros d Hd. rewrite (L d Hd), (Horder d Hd), refs_of_dim_S.
    unfold min_ref, max_ref. done. }
  assert (forall k f, flags s' !! k = Some f -> f = 0) as Hzero'.
  { intros k f. rewrite F. intros Hf. by apply lookup_replicate in Hf as [-> _]. }
  assert (forall hi lo, flag_of s' hi lo = 0) as Hflag'.
  { intros. by apply u8_get_zero. }
  refine (conj _ (conj A (conj _ (conj Hzero' (conj _ _))))).
  2: { by rewrite I. }
  2: { intros d Hd. rewrite length_app. simpl. rewrite Nat.add_1_r. by apply Horder'. }
  2: { intros Hns'. congruence. }
  constructor.
  - rewrite C, length_app. simpl. lia.
  - rewrite map_app. simpl. apply NoDup_app. split_and!.
    + apply (inv_oids _ _ HInv).
    + intros x Hx ->%list_elem_of_singleton. done.
    + apply NoDup_singleton.
  - apply Forall_app. split; [apply (inv_boxes _ _ HInv) | by constructor].
  - done.
  - rewrite Hh, length_app. simpl. lia.
  - intros o obj' d m Hobj' Hd.
    eapply proxy_of_static; [apply Hst|].
    destruct (decide (o < n)%nat) as [Ho|Ho].
    + rewrite lookup_app_l in Hobj' by done.
      rewrite lookup_app_l by (rewrite Hhl; unfold ref_of, min_ref, max_ref; destruct m; lia).
      by apply (inv_heap _ _ HInv).
    + assert (o = n) as ->.
      { apply lookup_lt_Some in Hobj'. rewrite length_app in Hobj'. simpl in Hobj'. lia. }
      rewrite lookup_app_r in Hobj' by done. rewrite Nat.sub_diag in Hobj'.
      injection Hobj' as <-.
      rewrite lookup_app_r by (rewrite Hhl; unfold ref_of, min_ref, max_ref; destruct m; lia).
      rewrite Hhl.
      replace (ref_of n m d - 6 * n)%nat with (if m then d else 3 + d)%nat
        by (unfold ref_of, min_ref, max_ref; destruct m; lia).
      rewrite (new_proxy_lookup _ obj m d Hd). simpl default.
      unfold proxy_of, new_proxy. destruct m; simpl; by split_and!.
  - intros o obj' Hobj'. rewrite M.
    destruct (decide (o < n)%nat) as [Ho|Ho].
    + rewrite lookup_app_l in Hobj' by done.
      rewrite lookup_insert_ne; [by apply (inv_map _ _ HInv)|].
      intros Heq. apply Hnew. rewrite Heq.
      apply list_elem_of_fmap_2. by eapply list_elem_of_lookup_2.
    + assert (o = n) as ->.
      { apply lookup_lt_Some in Hobj'. rewrite length_app in Hobj'. simpl in Hobj'. lia. }
      rewrite lookup_app_r in Hobj' by done. rewrite Nat.sub_diag in Hobj'.
      injection Hobj' as <-. by rewrite lookup_insert_eq.
  - intros d Hd. rewrite length_app. simpl. rewrite Nat.add_1_r. by rewrite Horder'.
  - intros d o Hd Ho. rewrite length_app in Ho. simpl in Ho.
    rewrite Horder' by done. apply fresh_pos. lia.
  - rewrite F, length_replicate, length_app. simpl.
    rewrite Z2Nat.id.
    + f_equal. lia.
    + apply Z.div_pos; lia.
  - intros k f Hf. rewrite (Hzero' k f Hf). lia.
  - intros lo hi a b d Hlt Ha Hb Hd. rewrite Hflag'. rewrite Horder' by done.
    assert (hi < S n)%nat as Hhi.
    { apply lookup_lt_Some in Hb. rewrite length_app in Hb. simpl in Hb. lia. }
    split; [rewrite Z.bits_0; done|].
    intros [_ Hov]. exfalso. by eapply (fresh_no_overlap (S n) d lo hi).
  - exists []. split_and!; [by rewrite I, Hinter | constructor |].
    intros x y. split; [by intros ?%elem_of_nil|].
    intros (lo & hi & a & b & _ & _ & _ & _ & _ & Hf7). by rewrite Hflag' in Hf7.
Qed.

(** *** Runs of the broadphase and the brute-force test *)

Inductive call : Type :=
| Update (object : BroadphaseObject)
| Recompute.

Definition run_call (s : Broadphase) (c : call) : Broadphase :=
  match c with
  | Update object => update object s
  | Recompute => recompute s
  end.

Definition run (calls : list call) (s : Broadphase) : Broadphase :=
  fold_left run_call calls s.

Definition inserts (objects : list BroadphaseObject) (s : Broadphase) : Broadphase :=
  fold_left (fun s object => insert object s) objects s.

(** The objects as the caller sees them: an update is called for an object
    whose bounding box has changed. *)
Definition move (objs : list BroadphaseObject) (object : BroadphaseObject)
  : list BroadphaseObject :=
  map (fun o => if Nat.eqb (oid o) (oid object) then object else o) objs.

Definition world (objs : list BroadphaseObject) (calls : list call)
  : list BroadphaseObject :=
  fold_left (fun objs c => match c with Update object => move objs object
                                     | Recompute => objs end) calls objs.

(** An update is called for an object that was inserted (the same object:
    same identity, mask and dynamic flag), with a box that is not inverted. *)
Definition update_ok (inserted : list BroadphaseObject) (c : call) : Prop :=
  match c with
  | Update object =>
      valid_box object /\ exists old, old ∈ inserted /\ same_identity old object
  | Recompute => True
  end.

(** The boxes overlap on the three axes: touching counts for the first test
    (as for [Box3.intersectsBox]) and does not for the second. *)
Definition boxes_intersect (a b : BroadphaseObject) : bool :=
  forallb (fun d =>
             (getComponent (box_min (boundingBox a)) d
              <=? getComponent (box_max (boundingBox b)) d)
             && (getComponent (box_min (boundingBox b)) d
                 <=? getComponent (box_max (boundingBox a)) d))
    [0; 1; 2]%nat.

Definition boxes_overlap_strictly (a b : BroadphaseObject) : bool :=
  forallb (fun d =>
             (getComponent (box_min (boundingBox a)) d
              <? getComponent (box_max (boundingBox b)) d)
             && (getComponent (box_min (boundingBox b)) d
                 <? getComponent (box_max (boundingBox a)) d))
    [0; 1; 2]%nat.

(** The all-pairs test: the pairs (later object, earlier object) that pass
    [test] and the test of the masks. *)
Fixpoint brute_force (test : BroadphaseObject -> BroadphaseObject -> bool)
  (objs : list BroadphaseObject) : list (nat * nat) :=
  match objs with
  | [] => []
  | a :: rest =>
      map (fun b => (oid b, oid a)) (filter (fun b => eligible a b && test a b = true) rest)
      ++ brute_force test rest
  end.

(** The pairs the broadphase reports. *)
Definition reported (s : Broadphase) : list (nat * nat) :=
  pairs_of (intersections s).

(** That after [recompute] the reported pairs are exactly those of the
    all-pairs test [test]. *)
Definition reports_brute_force
  (test : BroadphaseObject -> BroadphaseObject -> bool) : Prop :=
  forall inserted calls,
    NoDup (map oid inserted) -> Forall valid_box inserted ->
    Forall (update_ok inserted) calls ->
    forall p,
      p ∈ reported (recompute (run calls (inserts inserted empty)))
      <-> p ∈ brute_force test (world inserted calls).

(** *** The states the calls reach *)

Definition Settled (objs : list BroadphaseObject) (s : Broadphase) : Prop :=
  Inv objs s /\ (needsSort s = false -> forall d, (d < 3)%nat -> sorted_dim s d).

Lemma Fresh_Settled (objs : list BroadphaseObject) (s : Broadphase) :
  Fresh objs s -> Settled objs s.
Proof.
  intros (HInv & _ & _ & _ & Horder & Hns). split; [done|].
  intros Hfalse d Hd p q a b Hpq Ha. rewrite (Horder d Hd), (Hns Hfalse) in Ha.
  by destruct p.
Qed.

Lemma inserts_Fresh (objects objs : list BroadphaseObject) (s : Broadphase) :
  Fresh objs s -> NoDup (map oid (objs ++ objects)) -> Forall valid_box objects ->
  Fresh (objs ++ objects) (inserts objects s).
Proof.
  revert objs s. induction objects as [|obj objects IH]; intros objs s HF Hnd Hboxes.
  - by rewrite app_nil_r.
  - simpl. apply Forall_cons in Hboxes as [Hbox Hboxes].
    replace (objs ++ obj :: objects) with ((objs ++ [obj]) ++ objects) in *
      by (by rewrite <- app_assoc).
    apply IH; [|done|done].
    apply insert_Fresh; [done | | done].
    rewrite !map_app in Hnd. apply NoDup_app in Hnd as [Hnd _].
    apply NoDup_app in Hnd as (_ & Hnd & _). intros Hin. apply (Hnd _ Hin). set_solver.
Qed.

Lemma move_insert (objs : list BroadphaseObject) (o : nat) (cur obj : BroadphaseObject) :
  NoDup (map oid objs) -> objs !! o = Some cur -> oid cur = oid obj ->
  move objs obj = <[o := obj]> objs.
Proof.
  intros Hnd Hcur Hoid. apply list_eq. intros k. unfold move.
  rewrite list_lookup_fmap. destruct (decide (k = o)) as [->|Hne].
  - rewrite list_lookup_insert_eq by (by eapply lookup_lt_Some).
    rewrite Hcur. simpl. by rewrite Hoid, Nat.eqb_refl.
  - rewrite list_lookup_insert_ne by done.
    destruct (objs !! k) as [c|] eqn:Hc; [|done]. simpl.
    destruct (Nat.eqb_spec (oid c) (oid obj)) as [Heq|]; [|done].
    exfalso. apply Hne. eapply (NoDup_lookup (map oid objs)); [done | |].
    + rewrite list_lookup_fmap, Hc. done.
    + rewrite list_lookup_fmap, Hcur. simpl. congruence.
Qed.

Lemma same_identity_trans (a b c : BroadphaseObject) :
  same_identity a b -> same_identity b c -> same_identity a c.
Proof. unfold same_identity. intros (?&?&?) (?&?&?). split_and!; congruence. Qed.

Lemma same_identity_sym (a b : BroadphaseObject) :
  same_identity a b -> same_identity b a.
Proof. unfold same_identity. intros (?&?&?). by split_and!. Qed.

Lemma run_Settled (inserted : list BroadphaseObject) (calls : list call) :
  Forall (update_ok inserted) calls ->
  forall objs s,
    Settled objs s -> Forall2 same_identity inserted objs ->
    Settled (world objs calls) (run calls s)
    /\ Forall2 same_identity inserted (world objs calls).
Proof.
  induction 1 as [|c calls Hc _ IH]; intros objs s [HInv Hsorted] Hid; [done|].
  change (run (c :: calls) s) with (run calls (run_call s c)).
  destruct c as [obj|]; unfold world; cbn [fold_left run_call];
    [fold (world (move objs obj) calls) | fold (world objs calls)].
  - destruct Hc as (Hbox & old & Hold & Hsame).
    apply list_elem_of_lookup in Hold as [o Hold].
    destruct (Forall2_lookup_l _ _ _ _ _ Hid Hold) as (cur & Hcur & Hoc).
    assert (same_identity cur obj) as Hco
      by (eapply same_identity_trans; [by apply same_identity_sym | done]).
    rewrite (move_insert objs o cur obj (inv_oids _ _ HInv) Hcur (proj1 Hco)).
    destruct (update_spec objs s obj cur o HInv Hcur Hco Hbox) as [HInv' Hns'].
    apply IH.
    + split; [done|]. intros Hfalse. rewrite Hfalse in Hns'. done.
    + apply Forall2_same_length_lookup_2.
      { rewrite length_insert. by eapply Forall2_length. }
      intros k a b Ha Hb. destruct (decide (k = o)) as [->|Hne].
      * rewrite list_lookup_insert_eq in Hb by (by eapply lookup_lt_Some).
        assert (a = old) as -> by congruence. by injection Hb as <-.
      * rewrite list_lookup_insert_ne in Hb by done.
        by eapply (Forall2_lookup_lr _ _ _ _ _ _ Hid).
  - destruct (recompute_spec objs s HInv Hsorted) as (HInv' & Hns' & Hsorted' & _).
    apply IH; [|done]. split; [done|]. intros _. done.
Qed.

(** *** What a settled, sorted broadphase reports *)

Lemma forallb_dims (f : nat -> bool) :
  forallb f [0; 1; 2]%nat = true <-> forall d, (d < 3)%nat -> f d = true.
Proof.
  simpl. rewrite !andb_true_iff. split.
  - intros (H0 & H1 & H2 & _) d Hd. apply dim_cases in Hd.
    by destruct Hd as [->|[->| ->]].
  - intros H. split_and!; try done; apply H; lia.
Qed.

Lemma sorted_reports (objs : list BroadphaseObject) (s : Broadphase)
  (lo hi : nat) (a b : BroadphaseObject) :
  Inv objs s -> (forall d, (d < 3)%nat -> sorted_dim s d) ->
  (lo < hi)%nat -> objs !! lo = Some a -> objs !! hi = Some b ->
  ((oid b, oid a) ∈ reported s -> eligible a b = true /\ boxes_intersect a b = true)
  /\ (eligible a b = true -> boxes_overlap_strictly a b = true ->
      (oid b, oid a) ∈ reported s).
Proof.
  intros HInv Hsorted Hlt Ha Hb.
  destruct (inv_inter _ _ HInv) as (ps & Hps & Hnd & Hin).
  assert (reported s = ps) as -> by (unfold reported; by rewrite Hps, pairs_of_unpairs).
  assert ((oid b, oid a) ∈ ps <-> flag_of s hi lo = 7) as ->.
  { rewrite Hin. split.
    - intros (lo' & hi' & a' & b' & Hlt' & Ha' & Hb' & Hob & Hoa & Hf7).
      destruct (oid_pair_inj objs lo' hi' lo hi a' b' a b (inv_oids _ _ HInv)
                  Ha' Hb' Ha Hb) as [-> ->]; [congruence | congruence | done].
    - intros Hf7. by exists lo, hi, a, b. }
  rewrite (flag_seven (flag_of s hi lo))
    by (apply u8_get_range, (inv_flags_range _ _ HInv)).
  assert (lo < length objs)%nat as Hlo by by eapply lookup_lt_Some.
  assert (hi < length objs)%nat as Hhi by by eapply lookup_lt_Some.
  (* the values of the four proxies on an axis *)
  assert (forall d o obj m, (d < 3)%nat -> objs !! o = Some obj ->
            ref_of o m d ∈ list_at d s
            /\ value (proxy s (ref_of o m d))
               = getComponent (if m then box_min (boundingBox obj)
                               else box_max (boundingBox obj)) d) as Href.
  { intros d o obj m Hd Hobj. split.
    - rewrite (inv_perm _ _ HInv d Hd). apply elem_of_refs_of_dim.
      exists o, m. split; [by eapply lookup_lt_Some | done].
    - by destruct (inv_heap _ _ HInv o obj d m Hobj Hd) as (_ & _ & _ & ? & _). }
  assert (forall d x y, (d < 3)%nat -> before (list_at d s) x y ->
            value (proxy s x) <= value (proxy s y)) as Hle.
  { intros d x y Hd (i & j & Hi & Hj & Hij). by eapply (Hsorted d Hd i j). }
  assert (forall d x y, (d < 3)%nat -> x ∈ list_at d s -> y ∈ list_at d s ->
            value (proxy s x) < value (proxy s y) -> before (list_at d s) x y) as Hlt'.
  { intros d x y Hd Hx Hy Hxy.
    destruct (before_total (list_at d s) x y Hx Hy) as [?|Hyx]; [|done|].
    - intros ->. lia.
    - specialize (Hle d y x Hd Hyx). lia. }
  split.
  - intros Hbits.
    assert (eligible a b = true) as Hel.
    { assert (0 < 3)%nat as H0 by lia.
      by destruct (proj1 (inv_flags _ _ HInv lo hi a b 0%nat Hlt Ha Hb H0)
                     (Hbits 0%nat H0)) as [? _]. }
    split; [done|]. apply forallb_dims. intros d Hd.
    destruct (proj1 (inv_flags _ _ HInv lo hi a b d Hlt Ha Hb Hd) (Hbits d Hd))
      as [_ [H1 H2]].
    apply (Hle d _ _ Hd) in H1, H2.
    change (min_ref lo d) with (ref_of lo true d) in H1.
    change (max_ref hi d) with (ref_of hi false d) in H1.
    change (min_ref hi d) with (ref_of hi true d) in H2.
    change (max_ref lo d) with (ref_of lo false d) in H2.
    rewrite !(proj2 (Href d _ _ _ Hd Ha)), !(proj2 (Href d _ _ _ Hd Hb)) in *.
    apply andb_true_iff. split; apply Z.leb_le; done.
  - intros Hel Hstrict d Hd.
    apply (inv_flags _ _ HInv lo hi a b d Hlt Ha Hb Hd). split; [done|].
    pose proof (proj1 (forallb_dims _) Hstrict d Hd) as Hov.
    apply andb_true_iff in Hov as [H1%Z.ltb_lt H2%Z.ltb_lt].
    split.
    + change (min_ref lo d) with (ref_of lo true d).
      change (max_ref hi d) with (ref_of hi false d).
      apply (Hlt' d); [done | by apply (Href d lo a) | by apply (Href d hi b) |].
      by rewrite (proj2 (Href d _ _ true Hd Ha)), (proj2 (Href d _ _ false Hd Hb)).
    + change (min_ref hi d) with (ref_of hi true d).
      change (max_ref lo d) with (ref_of lo false d).
      apply (Hlt' d); [done | by apply (Href d hi b) | by apply (Href d lo a) |].
      by rewrite (proj2 (Href d _ _ true Hd Hb)), (proj2 (Href d _ _ false Hd Ha)).
Qed.

Lemma elem_of_brute_force (test : BroadphaseObject -> BroadphaseObject -> bool)
  (objs : list BroadphaseObject) (x y : nat) :
  (x, y) ∈ brute_force test objs
  <-> exists lo hi a b,
        (lo < hi)%nat /\ objs !! lo = Some a /\ objs !! hi = Some b
        /\ x = oid b /\ y = oid a /\ eligible a b = true /\ test a b = true.
Proof.
  induction objs as [|a0 rest IH]; cbn [brute_force].
  - split; [by intros ?%elem_of_nil | by intros (lo & hi & a & b & _ & ? & _)].
  - rewrite elem_of_app, IH. split.
    + intros [Hhead | (lo & hi & a & b & Hlt & Ha & Hb & Hx & Hy & Hel & Htest)].
      * apply list_elem_of_fmap in Hhead as (b & Hxy & Hb).
        apply list_elem_of_filter in Hb as [Htest Hb].
        apply andb_true_iff in Htest as [Hel Htest].
        apply list_elem_of_lookup in Hb as [k Hb].
        injection Hxy as -> ->.
        exists 0%nat, (S k), a0, b. split_and!; try done. lia.
      * exists (S lo), (S hi), a, b. split_and!; try done. lia.
    + intros (lo & hi & a & b & Hlt & Ha & Hb & -> & -> & Hel & Htest).
      destruct hi as [|hi]; [lia|]. destruct lo as [|lo].
      * left. injection Ha as ->. apply list_elem_of_fmap. exists b. split; [done|].
        apply list_elem_of_filter. split.
        -- by rewrite Hel, Htest.
        -- by eapply list_elem_of_lookup_2.
      * right. exists lo, hi, a, b. split_and!; try done. lia.
Qed.

Lemma same_identity_refl (a : BroadphaseObject) : same_identity a a.
Proof. by unfold same_identity. Qed.

Lemma run_reaches (inserted : list BroadphaseObject) (calls : list call) :
  NoDup (map oid inserted) -> Forall valid_box inserted ->
  Forall (update_ok inserted) calls ->
  Settled (world inserted calls) (run calls (inserts inserted empty))
  /\ Forall2 same_identity inserted (world inserted calls).
Proof.
  intros Hnd Hboxes Hcalls.
  apply (run_Settled inserted calls Hcalls).
  - apply Fresh_Settled. apply (inserts_Fresh inserted [] empty); [apply Fresh_empty|done..].
  - apply Forall2_same_length_lookup_2; [done|].
    intros k a b Ha Hb. assert (a = b) as -> by congruence. apply same_identity_refl.
Qed.

(** *** The window of [sort] *)







(** A dynamic cube with mask 1 from [(lo, lo, lo)] to [(hi, hi, hi)]. *)
Definition cube (id : nat) (lo hi : Z) : BroadphaseObject :=
  mkObject id (mkBox3 (mkVector3 lo lo lo) (mkVector3 hi hi hi)) 1 true.

Lemma cube_valid (id : nat) (lo hi : Z) : lo <= hi -> valid_box (cube id lo hi).
Proof.
  intros Hle d Hd. apply dim_cases in Hd. by destruct Hd as [->|[->| ->]].
Qed.

(** *** What [recompute] reports *)

Lemma pair_ok (a b : BroadphaseObject) :
  oid a <> oid b -> NoDup (map oid [a; b]).
Proof.
  intros Hne. cbn [map]. apply NoDup_cons. split; [|apply NoDup_singleton].
  by intros Hin%list_elem_of_singleton.
Qed.

(** C1 (amended).  For objects of distinct identities with boxes that are
    not inverted, inserted and then moved by updates (with recomputes in
    between or not), the list that [recompute] leaves is a list of pairs
    without repetition, each pair in one order only; every pair it holds
    passes the all-pairs test in which touching boxes count, and it holds
    every pair that passes the all-pairs test in which they do not. *)
Theorem recompute_reports_overlaps
  (inserted : list BroadphaseObject) (calls : list call) :
  NoDup (map oid inserted) -> Forall valid_box inserted ->
  Forall (update_ok inserted) calls ->
  let s := recompute (run calls (inserts inserted empty)) in
  let objs := world inserted calls in
  intersections s = unpairs (reported s)
  /\ NoDup (reported s)
  /\ (forall x y, (x, y) ∈ reported s -> (y, x) ∉ reported s)
  /\ (forall p, p ∈ reported s -> p ∈ brute_force boxes_intersect objs)
  /\ (forall p, p ∈ brute_force boxes_overlap_strictly objs -> p ∈ reported s).
Proof.
  intros Hnd Hboxes Hcalls s objs.
  destruct (run_reaches inserted calls Hnd Hboxes Hcalls) as [[HInv0 Hsorted0] _].
  destruct (recompute_spec _ _ HInv0 Hsorted0) as (HInv & _ & Hsorted & _).
  fold s in HInv, Hsorted. fold objs in HInv.
  destruct (inv_inter _ _ HInv) as (ps & Hps & Hndps & Hin).
  assert (reported s = ps) as Hrep by (unfold reported; by rewrite Hps, pairs_of_unpairs).
  assert (forall x y, (x, y) ∈ reported s ->
            exists lo hi a b, (lo < hi)%nat /\ objs !! lo = Some a /\ objs !! hi = Some b
                              /\ x = oid b /\ y = oid a) as Hshape.
  { intros x y Hxy. rewrite Hrep in Hxy.
    apply Hin in Hxy as (lo & hi & a & b & ? & ? & ? & ? & ? & _). by exists lo, hi, a, b. }
  split_and!.
  - by rewrite Hrep.
  - by rewrite Hrep.
  - intros x y (lo & hi & a & b & Hlt & Ha & Hb & -> & ->)%Hshape
      (lo2 & hi2 & a2 & b2 & Hlt2 & Ha2 & Hb2 & Hx & Hy)%Hshape.
    destruct (oid_pair_inj objs lo hi hi2 lo2 a b b2 a2 (inv_oids _ _ HInv)
                Ha Hb Hb2 Ha2) as [-> ->]; [congruence | congruence | lia].
  - intros [x y] Hxy.
    destruct (Hshape x y Hxy) as (lo & hi & a & b & Hlt & Ha & Hb & -> & ->).
    destruct (sorted_reports objs s lo hi a b HInv Hsorted Hlt Ha Hb) as [Hsound _].
    destruct (Hsound Hxy) as [Hel Hbox].
    apply elem_of_brute_force. by exists lo, hi, a, b.
  - intros [x y] (lo & hi & a & b & Hlt & Ha & Hb & -> & -> & Hel & Hbox)%elem_of_brute_force.
    by apply (sorted_reports objs s lo hi a b HInv Hsorted Hlt Ha Hb).
Qed.

Definition three_cubes : list BroadphaseObject :=
  [cube 10 0 2; cube 11 1 3; cube 12 7 8].

Definition three_cubes_calls : list call :=
  [Update (cube 12 2 4); Recompute; Update (cube 10 5 6)].

Lemma three_cubes_ok :
  NoDup (map oid three_cubes) /\ Forall valid_box three_cubes
  /\ Forall (update_ok three_cubes) three_cubes_calls.
Proof.
  split_and!.
  - vm_compute. repeat constructor; set_solver.
  - repeat constructor; apply cube_valid; lia.
  - repeat constructor.
    + apply cube_valid; lia.
    + exists (cube 12 7 8). split; [set_solver | done].
    + apply cube_valid; lia.
    + exists (cube 10 0 2). split; [set_solver | done].
Qed.

Lemma recompute_reports_overlaps_witness :
  (NoDup (map oid three_cubes) /\ Forall valid_box three_cubes
   /\ Forall (update_ok three_cubes) three_cubes_calls)
  /\ let s := recompute (run three_cubes_calls (inserts three_cubes empty)) in
     let objs := world three_cubes three_cubes_calls in
     intersections s = unpairs (reported s)
     /\ NoDup (reported s)
     /\ (forall x y, (x, y) ∈ reported s -> (y, x) ∉ reported s)
     /\ (forall p, p ∈ reported s -> p ∈ brute_force boxes_intersect objs)
     /\ (forall p, p ∈ brute_force boxes_overlap_strictly objs -> p ∈ reported s).
Proof.
  split; [exact three_cubes_ok|].
  apply (recompute_reports_overlaps three_cubes three_cubes_calls);
    apply three_cubes_ok.
Defined.

(** C1 as worded does not hold for boxes that touch: the cubes from 0 to 1
    and from 1 to 2 are reported or not according to the order of their
    insertion, so the reported pairs are those of neither all-pairs test. *)
Lemma touching_boxes_counterexample :
  ~ reports_brute_force boxes_intersect
  /\ ~ reports_brute_force boxes_overlap_strictly.
Proof.
  assert (forall a b, valid_box a -> valid_box b -> Forall valid_box [a; b]) as Hvalid
    by (intros a b Ha Hb; by repeat constructor).
  split; intros H.
  - specialize (H [cube 0 0 1; cube 1 1 2] []).
    assert (reported (recompute (run [] (inserts [cube 0 0 1; cube 1 1 2] empty))) = [])
      as Hrep by (vm_compute; reflexivity).
    assert (brute_force boxes_intersect (world [cube 0 0 1; cube 1 1 2] []) = [(1, 0)%nat])
      as Hbf by (vm_compute; reflexivity).
    rewrite Hrep, Hbf in H.
    assert ((1, 0)%nat ∈ @nil (nat * nat)) as Hin.
    { apply H; [by apply pair_ok | | constructor | by left].
      apply Hvalid; apply cube_valid; lia. }
    by apply elem_of_nil in Hin.
  - specialize (H [cube 1 1 2; cube 0 0 1] []).
    assert (reported (recompute (run [] (inserts [cube 1 1 2; cube 0 0 1] empty)))
            = [(0, 1)%nat]) as Hrep by (vm_compute; reflexivity).
    assert (brute_force boxes_overlap_strictly (world [cube 1 1 2; cube 0 0 1] []) = [])
      as Hbf by (vm_compute; reflexivity).
    rewrite Hrep, Hbf in H.
    assert ((0, 1)%nat ∈ @nil (nat * nat)) as Hin.
    { apply H; [by apply pair_ok | | constructor | by left].
      apply Hvalid; apply cube_valid; lia. }
    by apply elem_of_nil in Hin.
Qed.

(** *** The window of [sort] *)






(** *** An insert after a sort *)

Definition overlapping_then_third : Broadphase :=
  recompute (insert (cube 12 7 8)
               (recompute (insert (cube 11 1 3) (insert (cube 10 0 2) empty)))).

(** C7 does not hold after an insert that follows a sort.  The cubes 10 and
    11 overlap and are reported with flag 7; the insert of a third cube
    makes a flag array of zeros and its loops copy no flag, so that the
    pair is still in the list while its flag is 0, also after the next
    sort. *)
Theorem insert_forgets_flags :
  let sorted := recompute (insert (cube 11 1 3) (insert (cube 10 0 2) empty)) in
  let inserted := insert (cube 12 7 8) sorted in
  (reported sorted = [(11, 10)%nat] /\ flag_of sorted 1 0 = 7)
  /\ (reported inserted = [(11, 10)%nat] /\ flag_of inserted 1 0 = 0)
  /\ (reported overlapping_then_third = [(11, 10)%nat]
      /\ flag_of overlapping_then_third 1 0 = 0
      /\ flags overlapping_then_third = [0; 0; 0]).
Proof. vm_compute. split_and!; reflexivity. Qed.

(** *** The list of intersections and the flags *)

(** The states of a broadphase in use: the objects are inserted, then moved
    by updates and recomputes; [sort] may be called, and its loop goes from
    state to state by swaps of two neighbours that are out of order. *)
Inductive in_use : list BroadphaseObject -> Broadphase -> Prop :=
| in_use_run inserted calls :
    NoDup (map oid inserted) -> Forall valid_box inserted ->
    Forall (update_ok inserted) calls ->
    in_use (world inserted calls) (run calls (inserts inserted empty))
| in_use_swap objs s d j :
    in_use objs s -> (d < 3)%nat ->
    out_of_order d 0 (S j) s = true -> (S j < length (list_at d s))%nat ->
    in_use objs (swap_step d j s)
| in_use_sort objs s d :
    in_use objs s -> (d < 3)%nat -> in_use objs (sort d s).

Lemma in_use_Inv (objs : list BroadphaseObject) (s : Broadphase) :
  in_use objs s -> Inv objs s.
Proof.
  induction 1 as [inserted calls Hnd Hboxes Hcalls|objs s d j _ HInv Hd Hout Hj
                 |objs s d _ HInv Hd].
  - by destruct (run_reaches inserted calls Hnd Hboxes Hcalls) as [[HInv _] _].
  - destruct (lookup_lt_is_Some_2 (list_at d s) (S j) Hj) as [y Hy].
    destruct (lookup_lt_is_Some_2 (list_at d s) j ltac:(lia)) as [x Hx].
    apply (swap_step_Inv objs s d j x y HInv Hd Hx Hy).
    unfold out_of_order in Hout. apply andb_true_iff in Hout as [_ Hout].
    replace (S j - 1)%nat with j in Hout by lia.
    unfold ref_at in Hout. rewrite Hx, Hy in Hout. simpl in Hout. lia.
  - by destruct (sort_spec objs d s Hd HInv) as [HInv' _].
Qed.

(** In every state of a broadphase in use the list of intersections is a
    list of pairs without repetition, and it holds the pair of two objects,
    the later inserted first, exactly when the flag of the pair is 7. *)
Theorem intersections_iff_flag_seven (objs : list BroadphaseObject) (s : Broadphase) :
  in_use objs s ->
  intersections s = unpairs (reported s)
  /\ NoDup (reported s)
  /\ (forall x y, (x, y) ∈ reported s ->
        exists lo hi a b, (lo < hi)%nat /\ objs !! lo = Some a /\ objs !! hi = Some b
                          /\ x = oid b /\ y = oid a)
  /\ (forall lo hi a b,
        (lo < hi)%nat -> objs !! lo = Some a -> objs !! hi = Some b ->
        ((oid b, oid a) ∈ reported s <-> flag_of s hi lo = 7)).
Proof.
  intros HInv%in_use_Inv.
  destruct (inv_inter _ _ HInv) as (ps & Hps & Hnd & Hin).
  assert (reported s = ps) as -> by (unfold reported; by rewrite Hps, pairs_of_unpairs).
  split_and!; [done | done | |].
  - intros x y (lo & hi & a & b & ? & ? & ? & ? & ? & _)%Hin. by exists lo, hi, a, b.
  - intros lo hi a b Hlt Ha Hb. rewrite Hin. split.
    + intros (lo' & hi' & a' & b' & Hlt' & Ha' & Hb' & Hob & Hoa & Hf7).
      destruct (oid_pair_inj objs lo' hi' lo hi a' b' a b (inv_oids _ _ HInv)
                  Ha' Hb' Ha Hb) as [-> ->]; [congruence | congruence | done].
    + intros Hf7. by exists lo, hi, a, b.
Qed.

Lemma three_cubes_in_use :
  in_use (world three_cubes three_cubes_calls)
    (sort 1 (run three_cubes_calls (inserts three_cubes empty))).
Proof.
  apply in_use_sort; [|lia].
  apply in_use_run; apply three_cubes_ok.
Qed.

Lemma intersections_iff_flag_seven_witness :
  let objs := world three_cubes three_cubes_calls in
  let s := sort 1 (run three_cubes_calls (inserts three_cubes empty)) in
  in_use objs s
  /\ intersections s = unpairs (reported s)
  /\ NoDup (reported s)
  /\ (forall x y, (x, y) ∈ reported s ->
        exists lo hi a b, (lo < hi)%nat /\ objs !! lo = Some a /\ objs !! hi = Some b
                          /\ x = oid b /\ y = oid a)
  /\ (forall lo hi a b,
        (lo < hi)%nat -> objs !! lo = Some a -> objs !! hi = Some b ->
        ((oid b, oid a) ∈ reported s <-> flag_of s hi lo = 7)).
Proof.
  split; [exact three_cubes_in_use|].
  exact (intersections_iff_flag_seven _ _ three_cubes_in_use).
Defined.

(** *** The index of a pair in the flag array *)

(** For [n] objects the pairs [i2 < i1] get distinct cells of the array of
    [n (n - 1) / 2] flags that [insert] allocates. *)
Theorem flagIndex_cells (n i1 i2 j1 j2 : Z) :
  0 <= i2 < i1 -> i1 < n -> 0 <= j2 < j1 -> j1 < n ->
  0 <= flagIndex n i1 i2 < ((n - 1) * (n - 1) + (n - 1)) / 2
  /\ (flagIndex n i1 i2 = flagIndex n j1 j2 <-> i1 = j1 /\ i2 = j2).
Proof.
  intros Hi2 Hi1 Hj2 Hj1. split.
  - replace ((n - 1) * (n - 1) + (n - 1)) with (n * (n - 1)) by ring.
    by apply flagIndex_bounds.
  - split; [by apply flagIndex_inj | by intros [-> ->]].
Qed.

Lemma flagIndex_cells_witness :
  0 <= flagIndex 4 3 1 < ((4 - 1) * (4 - 1) + (4 - 1)) / 2
  /\ (flagIndex 4 3 1 = flagIndex 4 2 0 <-> 3 = 2 /\ 1 = 0).
Proof. apply (flagIndex_cells 4 3 1 2 0); lia. Defined.

(** *** Removing a pair from the list *)

Lemma remove_first_absent (p : nat * nat) (ps : list (nat * nat)) :
  p ∉ ps -> remove_first p ps = ps.
Proof.
  induction ps as [|q ps IH]; [done|]. intros Hnot. simpl.
  apply not_elem_of_cons in Hnot as [Hne Hnot].
  rewrite decide_False by done. by rewrite IH.
Qed.

(** On a list of pairs, the loop that removes a pair removes its first
    occurrence and nothing else; a list that does not hold the pair is left
    as it is. *)
Theorem remove_pair_spec (a b : nat) (ps : list (nat * nat)) :
  pairs_of (remove_pair a b (unpairs ps)) = remove_first (a, b) ps
  /\ remove_pair a b (unpairs ps) = unpairs (remove_first (a, b) ps)
  /\ ((a, b) ∉ ps -> remove_pair a b (unpairs ps) = unpairs ps)
  /\ (NoDup ps ->
      forall q, q ∈ pairs_of (remove_pair a b (unpairs ps)) <-> q ∈ ps /\ q <> (a, b)).
Proof.
  assert (remove_pair a b (unpairs ps) = unpairs (remove_first (a, b) ps)) as Heq
    by apply remove_pair_unpairs.
  split_and!.
  - by rewrite Heq, pairs_of_unpairs.
  - done.
  - intros Hnot. by rewrite Heq, remove_first_absent.
  - intros Hnd q. rewrite Heq, pairs_of_unpairs. by apply remove_first_elem.
Qed.

(** *** recompute *)

(** After [recompute] nothing needs a sort, a second [recompute] changes
    nothing, and a broadphase that needs no sort is left as it is. *)
Theorem recompute_idempotent (s : Broadphase) :
  needsSort (recompute s) = false
  /\ recompute (recompute s) = recompute s
  /\ (needsSort s = false -> recompute s = s).
Proof.
  unfold recompute. destruct (needsSort s) eqn:Hns.
  - generalize (fold_left (fun s i => sort i s) [0; 1; 2]%nat s). intros sorted.
    by split_and!.
  - rewrite Hns. by split_and!.
Qed.

(** *** insert *)

Lemma push_proxy_frame (s : Broadphase) (ir : nat * nat) :
  flags (push_proxy s ir) = flags s
  /\ intersections (push_proxy s ir) = intersections s
  /\ objectCount (push_proxy s ir) = objectCount s
  /\ anyFlagSet (push_proxy s ir) = anyFlagSet s.
Proof. by destruct ir. Qed.

Lemma push_proxies_frame (l : list (nat * nat)) (s : Broadphase) :
  flags (fold_left push_proxy l s) = flags s
  /\ intersections (fold_left push_proxy l s) = intersections s
  /\ objectCount (fold_left push_proxy l s) = objectCount s
  /\ anyFlagSet (fold_left push_proxy l s) = anyFlagSet s.
Proof.
  revert s. induction l as [|ir l IH]; intros s; [done|].
  cbn [fold_left]. destruct (IH (push_proxy s ir)) as (-> & -> & -> & ->).
  apply push_proxy_frame.
Qed.

Lemma allocate_frame (obj : BroadphaseObject) (s : Broadphase) :
  flags (allocate obj s) = flags s
  /\ intersections (allocate obj s) = intersections s
  /\ objectCount (allocate obj s) = objectCount s + 1
  /\ anyFlagSet (allocate obj s) = anyFlagSet s.
Proof.
  unfold allocate. cbv zeta.
  match goal with |- context [fold_left push_proxy ?l ?s0] =>
    destruct (push_proxies_frame l s0) as (-> & -> & -> & ->) end.
  done.
Qed.

Lemma range_lower (lo hi : Z) : Forall (fun k => lo <= k) (range lo hi).
Proof.
  unfold range. apply Forall_forall. intros k (i & -> & _)%list_elem_of_fmap. lia.
Qed.

(** The loops that copy the flags do nothing for fewer than four objects. *)
Lemma copy_flags_small (oldFlags newFlags : list Z) (count : Z) :
  count <= 3 -> copy_flags oldFlags count newFlags = newFlags.
Proof.
  intros Hcount. unfold copy_flags.
  assert ((o1 ← range 0 (count - 1); o2 ← range (o1 + 1) (count - 2); [(o1, o2)])
          = @nil (Z * Z)) as ->; [|done].
  pose proof (range_lower 0 (count - 1)) as Hlow.
  induction Hlow as [|o1 l Ho1 _ IH]; [done|].
  rewrite bind_cons, IH, app_nil_r.
  unfold range. by replace (Z.to_nat (count - 2 - (o1 + 1))) with 0%nat by lia.
Qed.

Lemma grow_flags_frame (s : Broadphase) :
  intersections (grow_flags s) = intersections s
  /\ lists (grow_flags s) = lists s
  /\ heap (grow_flags s) = heap s
  /\ objectCount (grow_flags s) = objectCount s
  /\ objectToProxies (grow_flags s) = objectToProxies s
  /\ anyFlagSet (grow_flags s) = anyFlagSet s.
Proof.
  unfold grow_flags. cbv zeta.
  change (anyFlagSet (set_flags _ s)) with (anyFlagSet s).
  destruct (anyFlagSet s) eqn:Hany; split_and!; try done; exact Hany.
Qed.

Lemma grow_flags_zero (s : Broadphase) :
  let n := objectCount s - 1 in
  anyFlagSet s = false \/ objectCount s <= 3 ->
  flags (grow_flags s) = replicate (Z.to_nat ((n * n + n) / 2)) 0.
Proof.
  intros n Hcase. unfold grow_flags. cbv zeta.
  change (anyFlagSet (set_flags _ s)) with (anyFlagSet s).
  destruct (anyFlagSet s) eqn:Hany; [|done].
  destruct Hcase as [?|Hcount]; [done|].
  cbn [flags set_flags objectCount]. by rewrite copy_flags_small.
Qed.

(** The end of [insert], on the state that its first part leaves. *)
Lemma insert_finish_frame (sd : Broadphase) (starts ends : list num) :
  let s' := set_sortEnds ends (set_sortStarts starts (set_needsSort true sd)) in
  lists s' = lists sd
  /\ intersections s' = intersections sd
  /\ flags s' = flags sd
  /\ objectCount s' = objectCount sd
  /\ anyFlagSet s' = anyFlagSet sd
  /\ needsSort s' = true
  /\ sortStarts s' = starts
  /\ sortEnds s' = ends.
Proof. by split_and!. Qed.

Lemma list_at_insert_finish (d : nat) (sd : Broadphase) (starts : list num) :
  list_at d (set_sortStarts starts (set_needsSort true sd)) = list_at d sd.
Proof. reflexivity. Qed.

Lemma insert_frame (obj : BroadphaseObject) (s : Broadphase) :
  lists (insert obj s) = lists (grow_flags (allocate obj s))
  /\ intersections (insert obj s) = intersections (grow_flags (allocate obj s))
  /\ flags (insert obj s) = flags (grow_flags (allocate obj s))
  /\ objectCount (insert obj s) = objectCount (grow_flags (allocate obj s))
  /\ anyFlagSet (insert obj s) = anyFlagSet (grow_flags (allocate obj s))
  /\ needsSort (insert obj s) = true
  /\ sortStarts (insert obj s) = [Fin 0; Fin 0; Fin 0]
  /\ sortEnds (insert obj s)
     = [Fin (Z.of_nat (length (list_at 0 (grow_flags (allocate obj s)))) - 1);
        Fin (Z.of_nat (length (list_at 0 (grow_flags (allocate obj s)))) - 1);
        Fin (Z.of_nat (length (list_at 0 (grow_flags (allocate obj s)))) - 1)].
Proof.
  unfold insert. cbv zeta.
  match goal with |- context [set_sortEnds ?ends (set_sortStarts ?starts _)] =>
    destruct (insert_finish_frame (grow_flags (allocate obj s)) starts ends)
      as (-> & -> & -> & -> & -> & -> & -> & ->)
  end.
  rewrite list_at_insert_finish. by split_and!.
Qed.

(** [insert] never changes the list of intersections and never sets
    [anyFlagSet]; when no flag has been set, or when at most two objects
    are there, the flags it leaves are all 0, whatever they were, so that a
    pair in the list stays there with a flag that is not 7. *)
Theorem insert_keeps_intersections (obj : BroadphaseObject) (s : Broadphase) :
  let n := objectCount s in
  intersections (insert obj s) = intersections s
  /\ anyFlagSet (insert obj s) = anyFlagSet s
  /\ objectCount (insert obj s) = n + 1
  /\ (anyFlagSet s = false \/ n <= 2 ->
      flags (insert obj s) = replicate (Z.to_nat ((n * n + n) / 2)) 0).
Proof.
  intros n.
  destruct (insert_frame obj s) as (_ & -> & -> & -> & -> & _).
  destruct (grow_flags_frame (allocate obj s)) as (-> & _ & _ & -> & _ & ->).
  destruct (allocate_frame obj s) as (_ & -> & HC & HA).
  split_and!; try done.
  intros Hcase. rewrite grow_flags_zero.
  - rewrite HC. fold n. by replace (n + 1 - 1) with n by lia.
  - rewrite HA, HC. fold n. destruct Hcase; [by left | right; lia].
Qed.



(** *** update *)

(** [update] of a registered object, when the six proxies of the object
    number [o] are the proxies [6 o .. 6 o + 5]. *)
Lemma update_facts (obj : BroadphaseObject) (o : nat) (s : Broadphase) :
  objectToProxies s !! oid obj = Some (seq (6 * o) 6) ->
  (6 * o + 5 < length (heap s))%nat ->
  let s' := update obj s in
  lists s' = lists s /\ objectToProxies s' = objectToProxies s
  /\ objectCount s' = objectCount s
  /\ flags s' = flags s /\ intersections s' = intersections s
  /\ needsSort s' = true
  /\ (forall m d, (d < 3)%nat ->
        proxy s' (ref_of o m d)
        = set_value (getComponent (if m then box_min (boundingBox obj)
                                   else box_max (boundingBox obj)) d)
            (proxy s (ref_of o m d)))
  /\ (forall a, (forall m d, (d < 3)%nat -> a <> ref_of o m d) -> proxy s' a = proxy s a).
Proof.
  intros Hmap Hlen s'.
  assert (s' = set_needsSort true
                 (fold_left (update_dim obj (seq (6 * o) 6)) [0; 1; 2]%nat s)) as ->.
  { unfold s', update. by rewrite Hmap. }
  cbn [fold_left].
  destruct (update_dim_facts obj o s 0 ltac:(lia) ltac:(lia))
    as (Hl0 & Hh0 & Hm0 & Hc0 & Hf0 & Hi0 & Hp0).
  revert Hl0 Hh0 Hm0 Hc0 Hf0 Hi0 Hp0.
  generalize (update_dim obj (seq (6 * o) 6) s 0).
  intros s0 Hl0 Hh0 Hm0 Hc0 Hf0 Hi0 Hp0.
  destruct (update_dim_facts obj o s0 1 ltac:(lia) ltac:(lia))
    as (Hl1 & Hh1 & Hm1 & Hc1 & Hf1 & Hi1 & Hp1).
  revert Hl1 Hh1 Hm1 Hc1 Hf1 Hi1 Hp1.
  generalize (update_dim obj (seq (6 * o) 6) s0 1).
  intros s1 Hl1 Hh1 Hm1 Hc1 Hf1 Hi1 Hp1.
  destruct (update_dim_facts obj o s1 2 ltac:(lia) ltac:(lia))
    as (Hl2 & Hh2 & Hm2 & Hc2 & Hf2 & Hi2 & Hp2).
  revert Hl2 Hh2 Hm2 Hc2 Hf2 Hi2 Hp2.
  generalize (update_dim obj (seq (6 * o) 6) s1 2).
  intros s2 Hl2 Hh2 Hm2 Hc2 Hf2 Hi2 Hp2.
  split_and!.
  - change (lists s2 = lists s). congruence.
  - change (objectToProxies s2 = objectToProxies s). congruence.
  - change (objectCount s2 = objectCount s). congruence.
  - change (flags s2 = flags s). congruence.
  - change (intersections s2 = intersections s). congruence.
  - done.
  - intros m d Hd.
    change (proxy (set_needsSort true s2) (ref_of o m d)) with (proxy s2 (ref_of o m d)).
    rewrite Hp2, Hp1, Hp0. apply dim_cases in Hd.
    unfold ref_of, min_ref, max_ref.
    destruct m, Hd as [->|[->| ->]];
      repeat (match goal with
              | |- context [decide (?x = ?y)] =>
                  first [ rewrite (decide_True (P := x = y)) by lia
                        | rewrite (decide_False (P := x = y)) by lia ]
              end); done.
  - intros a Hother.
    change (proxy (set_needsSort true s2) a) with (proxy s2 a).
    rewrite Hp2, Hp1, Hp0.
    rewrite !decide_False;
      first [ done
            | apply (Hother true); lia
            | apply (Hother false); lia ].
Qed.

(** In a broadphase in use, [update] of an object that was inserted changes
    neither the lists nor the flags nor the list of intersections: it sets
    the value of each of the six proxies of the object to the coordinate of
    its box on the axis of the proxy, leaves every other proxy as it is,
    and asks for a sort. *)
Theorem update_moves_only_values
  (objs : list BroadphaseObject) (s : Broadphase) (obj cur : BroadphaseObject) (o : nat) :
  in_use objs s -> objs !! o = Some cur -> oid cur = oid obj ->
  let s' := update obj s in
  lists s' = lists s
  /\ flags s' = flags s
  /\ intersections s' = intersections s
  /\ objectCount s' = objectCount s
  /\ objectToProxies s' = objectToProxies s
  /\ needsSort s' = true
  /\ (forall d r, (d < 3)%nat -> r ∈ list_at d s ->
        proxy s' r
        = if Nat.eqb (object (proxy s r)) (oid obj)
          then set_value
                 (getComponent (if min (proxy s r) then box_min (boundingBox obj)
                                else box_max (boundingBox obj)) d)
                 (proxy s r)
          else proxy s r).
Proof.
  intros HInv%in_use_Inv Hcur Hoid.
  pose proof (lookup_lt_Some _ _ _ Hcur) as Ho.
  pose proof (inv_heap_len _ _ HInv) as Hhl.
  pose proof (inv_map _ _ HInv o cur Hcur) as Hmap. rewrite Hoid in Hmap.
  destruct (update_facts obj o s Hmap ltac:(lia)) as (L & M & K & F & I & N & Pobj & Pother).
  cbv zeta. revert L M K F I N Pobj Pother. generalize (update obj s).
  intros s' L M K F I N Pobj Pother.
  split_and!; try done.
  intros d r Hd Hr.
  destruct (Inv_ref objs s d r HInv Hd Hr) as (o' & m & X & -> & HX & HpX).
  destruct HpX as (_ & Hobject & Hmin & _). rewrite Hobject, Hmin.
  destruct (decide (o' = o)) as [->|Hne].
  - assert (X = cur) as -> by congruence.
    rewrite Hoid, Nat.eqb_refl. by apply Pobj.
  - pose proof (oid_differ objs o' o X cur (inv_oids _ _ HInv) HX Hcur Hne) as Hdiff.
    rewrite Hoid in Hdiff. apply Nat.eqb_neq in Hdiff. rewrite Hdiff.
    apply Pother. intros m' d' Hd'. unfold ref_of, min_ref, max_ref.
    destruct m, m'; lia.
Qed.

Lemma update_moves_only_values_witness :
  let objs := world three_cubes three_cubes_calls in
  let s := sort 1 (run three_cubes_calls (inserts three_cubes empty)) in
  let obj := cube 10 0 1 in
  let s' := update obj s in
  (in_use objs s /\ objs !! 0%nat = Some (cube 10 5 6) /\ oid (cube 10 5 6) = oid obj)
  /\ lists s' = lists s
  /\ flags s' = flags s
  /\ intersections s' = intersections s
  /\ objectCount s' = objectCount s
  /\ objectToProxies s' = objectToProxies s
  /\ needsSort s' = true
  /\ (forall d r, (d < 3)%nat -> r ∈ list_at d s ->
        proxy s' r
        = if Nat.eqb (object (proxy s r)) (oid obj)
          then set_value
                 (getComponent (if min (proxy s r) then box_min (boundingBox obj)
                                else box_max (boundingBox obj)) d)
                 (proxy s r)
          else proxy s r).
Proof.
  split; [split_and!; [exact three_cubes_in_use | reflexivity | reflexivity]|].
  apply (update_moves_only_values (world three_cubes three_cubes_calls)
           (sort 1 (run three_cubes_calls (inserts three_cubes empty)))
           (cube 10 0 1) (cube 10 5 6) 0);
    [exact three_cubes_in_use | reflexivity | reflexivity].
Defined.

(** After [recompute], for objects inserted and then moved by updates, each
    of the three lists is in the order of the values of its proxies, holds
    the proxies it held (the min and the max proxy of every object), and no
    proxy has changed but for its [index]; nothing is left to sort. *)
Theorem recompute_sorts_every_axis
  (inserted : list BroadphaseObject) (calls : list call) :
  NoDup (map oid inserted) -> Forall valid_box inserted ->
  Forall (update_ok inserted) calls ->
  let s := run calls (inserts inserted empty) in
  let s' := recompute s in
  needsSort s' = false
  /\ (forall r, same_static (proxy s' r) (proxy s r))
  /\ (forall d, (d < 3)%nat ->
        sorted_dim s' d
        /\ list_at d s' ≡ₚ list_at d s
        /\ length (list_at d s') = (2 * length inserted)%nat).
Proof.
  intros Hnd Hboxes Hcalls s s'.
  destruct (run_reaches inserted calls Hnd Hboxes Hcalls) as [[HInv Hsorted] Hid].
  fold s in HInv, Hsorted.
  destruct (recompute_spec _ s HInv Hsorted) as (HInv' & Hns & Hsorted' & Hst).
  fold s' in HInv', Hns, Hsorted', Hst.
  split_and!; [done | done |].
  intros d Hd. split_and!.
  - by apply Hsorted'.
  - by rewrite (inv_perm _ _ HInv' d Hd), (inv_perm _ _ HInv d Hd).
  - rewrite (inv_perm _ _ HInv' d Hd), length_refs_of_dim.
    by rewrite (Forall2_length _ _ _ Hid).
Qed.

Lemma recompute_sorts_every_axis_witness :
  (NoDup (map oid three_cubes) /\ Forall valid_box three_cubes
   /\ Forall (update_ok three_cubes) three_cubes_calls)
  /\ let s := run three_cubes_calls (inserts three_cubes empty) in
     let s' := recompute s in
     needsSort s' = false
     /\ (forall r, same_static (proxy s' r) (proxy s r))
     /\ (forall d, (d < 3)%nat ->
           sorted_dim s' d
           /\ list_at d s' ≡ₚ list_at d s
           /\ length (list_at d s') = (2 * length three_cubes)%nat).
Proof.
  split; [exact three_cubes_ok|].
  apply (recompute_sorts_every_axis three_cubes three_cubes_calls);
    apply three_cubes_ok.
Defined.

(** *** The index of a proxy is its position *)

(** [proxy.index] is the position of the proxy in the list of its axis. *)
Definition Indexed (s : Broadphase) : Prop :=
  forall d p r, (d < 3)%nat -> list_at d s !! p = Some r ->
                index (proxy s r) = Z.of_nat p.

(** The lists refer to proxies below [b], each proxy at one place. *)
Record Linked_below (s : Broadphase) (b : nat) : Prop := mkLinked {
  lk_lists : length (lists s) = 3%nat;
  lk_bound : forall d p r, (d < 3)%nat -> list_at d s !! p = Some r -> (r < b)%nat;
  lk_once : forall d d' p p' r,
      (d < 3)%nat -> (d' < 3)%nat ->
      list_at d s !! p = Some r -> list_at d' s !! p' = Some r -> d = d' /\ p = p';
  lk_index : Indexed s
}.

(** The three lists are as long as one another and refer to proxies of the
    heap. *)
Definition Linked (s : Broadphase) : Prop :=
  Linked_below s (length (heap s))
  /\ forall d, (d < 3)%nat -> length (list_at d s) = length (list_at 0 s).

Lemma index_write_index (r : nat) (v : Z) (s : Broadphase) (a : nat) :
  (r < length (heap s))%nat ->
  index (proxy (write_index r v s) a) = if decide (a = r) then v else index (proxy s a).
Proof.
  intros Hr. unfold write_index, proxy. cbn [heap set_heap].
  destruct (decide (a = r)) as [->|Hne].
  - by rewrite list_lookup_insert_eq.
  - by rewrite list_lookup_insert_ne.
Qed.

Lemma index_write_value (r : nat) (v : Z) (s : Broadphase) (a : nat) :
  index (proxy (write_value r v s) a) = index (proxy s a).
Proof.
  unfold write_value, proxy. cbn [heap set_heap].
  destruct (decide (a = r)) as [->|Hne].
  - destruct (heap s !! r) as [p|] eqn:Hp.
    + by rewrite list_lookup_insert_eq by (by eapply lookup_lt_Some).
    + rewrite list_insert_ge by (by apply lookup_ge_None). by rewrite Hp.
  - by rewrite list_lookup_insert_ne.
Qed.

(** A state with the same lists and the same indices. *)
Lemma Linked_below_transfer (s s' : Broadphase) (b : nat) :
  lists s' = lists s -> (forall a, index (proxy s' a) = index (proxy s a)) ->
  Linked_below s b -> Linked_below s' b.
Proof.
  intros Hl Hi [H1 H2 H3 H4].
  assert (forall d, list_at d s' = list_at d s) as Hlist
    by (intros; unfold list_at; by rewrite Hl).
  constructor.
  - by rewrite Hl.
  - intros d p r. rewrite Hlist. apply H2.
  - intros d d' p p' r. rewrite !Hlist. apply H3.
  - intros d p r Hd. rewrite Hlist, Hi. by apply H4.
Qed.

Lemma Linked_transfer (s s' : Broadphase) :
  lists s' = lists s -> length (heap s') = length (heap s) ->
  (forall a, index (proxy s' a) = index (proxy s a)) ->
  Linked s -> Linked s'.
Proof.
  intros Hl Hh Hi [Hb Hlen]. split.
  - rewrite Hh. by apply (Linked_below_transfer s).
  - intros d Hd. unfold list_at. rewrite Hl. by apply Hlen.
Qed.

Lemma Linked_below_weaken (s : Broadphase) (b b' : nat) :
  (b <= b')%nat -> Linked_below s b -> Linked_below s b'.
Proof.
  intros Hb [H1 H2 H3 H4]. constructor; try done.
  intros d p r Hd Hr. specialize (H2 d p r Hd Hr). lia.
Qed.

(** **** insert *)

Lemma push_proxy_index (s : Broadphase) (i ref a : nat) :
  (ref < length (heap s))%nat ->
  index (proxy (push_proxy s (i, ref)) a)
  = if decide (a = ref) then Z.of_nat (length (list_at (i mod 3) s))
    else index (proxy s a).
Proof.
  intros Href. unfold push_proxy. rewrite index_write_index by done.
  destruct (decide (a = ref)); [|done].
  rewrite length_app. simpl. lia.
Qed.

Lemma push_proxy_Linked (s : Broadphase) (i ref : nat) :
  (ref < length (heap s))%nat -> Linked_below s ref ->
  Linked_below (push_proxy s (i, ref)) (S ref).
Proof.
  intros Href [H1 H2 H3 H4].
  destruct (push_proxy_facts s i ref H1) as (L & Hl & _).
  assert (i mod 3 < 3)%nat as Hi by (apply Nat.mod_upper_bound; lia).
  revert L Hl. pose proof (push_proxy_index s i ref) as Hidx. revert Hidx.
  generalize (push_proxy s (i, ref)). intros s' Hidx L Hl.
  assert (forall d p r, (d < 3)%nat -> list_at d s' !! p = Some r ->
            (list_at d s !! p = Some r /\ r <> ref)
            \/ (d = (i mod 3)%nat /\ p = length (list_at d s) /\ r = ref)) as Hcases.
  { intros d p r Hd. rewrite L. destruct (decide (d = (i mod 3)%nat)) as [->|Hne].
    - intros Hr. apply lookup_app_Some in Hr as [Hr|[Hp Hr]].
      + left. split; [done|]. specialize (H2 _ _ _ Hi Hr). lia.
      + right. apply list_lookup_singleton_Some in Hr as [Hp' <-].
        split_and!; [done | lia | done].
    - intros Hr. left. split; [done|]. specialize (H2 _ _ _ Hd Hr). lia. }
  constructor.
  - congruence.
  - intros d p r Hd Hr. destruct (Hcases d p r Hd Hr) as [[Hr' _]|(_ & _ & ->)]; [|lia].
    specialize (H2 _ _ _ Hd Hr'). lia.
  - intros d d' p p' r Hd Hd' Hr Hr'.
    pose proof (Hcases d p r Hd Hr) as K1. pose proof (Hcases d' p' r Hd' Hr') as K2.
    destruct K1 as [[Hr1 Hne]|(E1 & E2 & E3)], K2 as [[Hr2 Hne']|(E1' & E2' & E3')];
      [by eapply H3 | done | done | by subst].
  - intros d p r Hd Hr. rewrite Hidx by done.
    destruct (Hcases d p r Hd Hr) as [[Hr1 Hne]|(E1 & E2 & E3)].
    + rewrite decide_False by done. exact (H4 d p r Hd Hr1).
    + rewrite decide_True by done. by rewrite E2, E1.
Qed.

Lemma push_proxy_heap_length (s : Broadphase) (ir : nat * nat) :
  length (heap (push_proxy s ir)) = length (heap s).
Proof.
  destruct ir as [i ref]. unfold push_proxy, write_index.
  cbn [heap set_heap set_lists]. by rewrite length_insert.
Qed.

Lemma push_proxies_Linked (k : nat) :
  forall i0 b s,
    (b + k <= length (heap s))%nat -> Linked_below s b ->
    Linked_below (fold_left push_proxy (zip (seq i0 k) (seq b k)) s) (b + k).
Proof.
  induction k as [|k IH]; intros i0 b s Hb Hs.
  - simpl. by rewrite Nat.add_0_r.
  - cbn [seq zip zip_with fold_left].
    replace (b + S k)%nat with (S b + k)%nat by lia.
    apply IH.
    + rewrite push_proxy_heap_length. lia.
    + apply push_proxy_Linked; [lia | done].
Qed.

Lemma allocate_Linked (obj : BroadphaseObject) (s : Broadphase) :
  Linked s -> Linked (allocate obj s).
Proof.
  intros [Hb Hlen].
  destruct (allocate_facts obj s (lk_lists _ _ Hb)) as (L & _ & Hh & _).
  split.
  - rewrite Hh. clear L Hh. unfold allocate. cbv zeta.
    rewrite new_proxies_eq. cbn [length].
    match goal with |- Linked_below (fold_left push_proxy _ ?sc) _ =>
      assert (Linked_below sc (length (heap s))) as Hsc;
      [|assert (length (heap s) + 6 <= length (heap sc))%nat as Hlen6;
        [|revert Hsc Hlen6; generalize sc; intros sc' Hsc Hlen6]]
    end.
    + destruct Hb as [H1 H2 H3 H4]. constructor; try done.
      intros d p r Hd Hr.
      transitivity (index (default no_proxy ((heap s ++ new_proxies
                           (objectCount s + 1 - 1) obj) !! r))); [reflexivity|].
      rewrite lookup_app_l by (by eapply H2). exact (H4 d p r Hd Hr).
    + cbn [heap set_heap set_objectToProxies set_objectCount].
      rewrite length_app. simpl. lia.
    + by apply (push_proxies_Linked 6 0 (length (heap s)) sc').
  - intros d Hd. rewrite (L d Hd), (L 0%nat ltac:(lia)), !length_app. cbn [length].
    rewrite (Hlen d Hd). done.
Qed.

Lemma insert_finish_heap (sd : Broadphase) (starts ends : list num) :
  heap (set_sortEnds ends (set_sortStarts starts (set_needsSort true sd))) = heap sd
  /\ lists (set_sortEnds ends (set_sortStarts starts (set_needsSort true sd)))
     = lists sd.
Proof. by split. Qed.

Lemma insert_Linked (obj : BroadphaseObject) (s : Broadphase) :
  Linked s -> Linked (insert obj s).
Proof.
  intros Hs%(allocate_Linked obj).
  destruct (grow_flags_frame (allocate obj s)) as (_ & Hl & Hh & _).
  unfold insert. cbv zeta.
  match goal with |- Linked (set_sortEnds ?ends (set_sortStarts ?starts _)) =>
    destruct (insert_finish_heap (grow_flags (allocate obj s)) starts ends) as [Hh' Hl'];
    revert Hh' Hl';
    generalize (set_sortEnds ends
                  (set_sortStarts starts (set_needsSort true (grow_flags (allocate obj s)))))
  end.
  intros s' Hh' Hl'. apply (Linked_transfer (allocate obj s)); [congruence | congruence | | done].
  intros a. unfold proxy. by rewrite Hh', Hh.
Qed.

(** **** sort *)

Lemma swapped_index (d j x y : nat) (s : Broadphase) (a : nat) :
  list_at d s !! j = Some x -> list_at d s !! S j = Some y ->
  (x < length (heap s))%nat -> (y < length (heap s))%nat -> x <> y ->
  index (proxy (swapped d j s) a)
  = if decide (a = x) then Z.of_nat (S j)
    else if decide (a = y) then Z.of_nat j else index (proxy s a).
Proof.
  intros Hx Hy Hxb Hyb Hne. unfold swapped. cbv zeta.
  assert (ref_at (swap_adj (list_at d s) j) j = y) as ->.
  { unfold ref_at. rewrite (swap_adj_lookup _ j x y j Hx Hy). by rewrite decide_True. }
  assert (ref_at (swap_adj (list_at d s) j) (S j) = x) as ->.
  { unfold ref_at. rewrite (swap_adj_lookup _ j x y (S j) Hx Hy).
    rewrite decide_False by lia. by rewrite decide_True. }
  rewrite index_write_index.
  2: { unfold write_index. cbn [heap set_heap set_lists]. by rewrite length_insert. }
  destruct (decide (a = x)); [done|].
  by rewrite index_write_index by done.
Qed.

Lemma swap_step_Linked (d j : nat) (s : Broadphase) :
  Linked s -> (d < 3)%nat -> (S j < length (list_at d s))%nat ->
  Linked (swap_step d j s)
  /\ forall d', length (list_at d' (swap_step d j s)) = length (list_at d' s).
Proof.
  intros [[H1 H2 H3 H4] Hlen] Hd Hj.
  destruct (lookup_lt_is_Some_2 (list_at d s) j ltac:(lia)) as [x Hx].
  destruct (lookup_lt_is_Some_2 (list_at d s) (S j) Hj) as [y Hy].
  pose proof (H2 d j x Hd Hx) as Hxb. pose proof (H2 d (S j) y Hd Hy) as Hyb.
  assert (x <> y) as Hxy.
  { intros ->. destruct (H3 d d j (S j) y Hd Hd Hx Hy) as [_ ?]. lia. }
  assert (d < length (lists s))%nat as Hdl by lia.
  destruct (swapped_facts d j s Hdl) as (L & Hl1 & Hh1 & _).
  pose proof (fun a => swapped_index d j x y s a Hx Hy Hxb Hyb Hxy) as Hidx.
  rewrite swap_step_eq.
  destruct (toggle_frame d (ref_at (swap_adj (list_at d s) j) j)
              (ref_at (swap_adj (list_at d s) j) (S j)) (swapped d j s))
    as (Hh2 & Hl2 & _).
  revert Hh2 Hl2. generalize (toggle d (ref_at (swap_adj (list_at d s) j) j)
                                (ref_at (swap_adj (list_at d s) j) (S j)) (swapped d j s)).
  revert L Hl1 Hh1 Hidx. generalize (swapped d j s).
  intros s1 L Hl1 Hh1 Hidx s2 Hh2 Hl2.
  (* where an entry of the new lists was *)
  set (back := fun (d' p : nat) =>
                 if decide (d' = d)
                 then if decide (p = j) then S j else if decide (p = S j) then j else p
                 else p).
  assert (forall d' p, list_at d' s1 !! p = list_at d' s !! back d' p) as Hback.
  { intros d' p. rewrite L. unfold back. destruct (decide (d' = d)) as [->|]; [|done].
    rewrite (swap_adj_lookup _ j x y p Hx Hy).
    destruct (decide (p = j)); [done|]. by destruct (decide (p = S j)). }
  assert (forall d' p p', back d' p = back d' p' -> p = p') as Hinj.
  { intros d' p p'. unfold back. destruct (decide (d' = d)); [|done].
    repeat destruct (decide _); lia. }
  assert (forall d', length (list_at d' s1) = length (list_at d' s)) as Hlens.
  { intros d'. rewrite L. destruct (decide (d' = d)) as [->|]; [|done].
    apply swap_adj_length. }
  assert (Linked s1) as Hs1.
  { split.
    - rewrite Hh1. constructor.
      + congruence.
      + intros d' p r Hd' Hr. rewrite Hback in Hr. by eapply H2.
      + intros d1 d2 p1 p2 r Hd1 Hd2 Hr1 Hr2. rewrite Hback in Hr1, Hr2.
        destruct (H3 _ _ _ _ _ Hd1 Hd2 Hr1 Hr2) as [-> Hp]. split; [done|].
        by eapply Hinj.
      + intros d' p r Hd' Hr. rewrite Hidx. rewrite Hback in Hr.
        destruct (decide (r = x)) as [->|Hrx].
        * destruct (H3 _ _ _ _ _ Hd' Hd Hr Hx) as [-> Hp].
          unfold back in Hp. rewrite decide_True in Hp by done.
          repeat destruct (decide _); lia.
        * destruct (decide (r = y)) as [->|Hry].
          -- destruct (H3 _ _ _ _ _ Hd' Hd Hr Hy) as [-> Hp].
             unfold back in Hp. rewrite decide_True in Hp by done.
             repeat destruct (decide _); lia.
          -- rewrite (H4 d' _ r Hd' Hr). unfold back in *.
             destruct (decide (d' = d)) as [->|]; [|done].
             destruct (decide (p = j)) as [->|]; [congruence|].
             destruct (decide (p = S j)) as [->|]; [congruence | done].
    - intros d' Hd'. rewrite !Hlens. by apply Hlen. }
  split.
  - apply (Linked_transfer s1); [done | by rewrite Hh2 | | done].
    intros a. unfold proxy. by rewrite Hh2.
  - intros d'. rewrite <- Hlens. unfold list_at. by rewrite Hl2.
Qed.

Lemma sort_inner_Linked (d : nat) (start : Z) (j : nat) :
  (d < 3)%nat ->
  forall s, Linked s -> (j < length (list_at d s))%nat ->
            Linked (sort_inner d start j s)
            /\ forall d', length (list_at d' (sort_inner d start j s))
                          = length (list_at d' s).
Proof.
  intros Hd. induction j as [|j IH]; intros s Hs Hj; [done|].
  cbn [sort_inner]. destruct (out_of_order d start (S j) s); [|done].
  destruct (swap_step_Linked d j s Hs Hd Hj) as [Hs1 Hlen1].
  destruct (IH (swap_step d j s) Hs1) as [Hs2 Hlen2]; [rewrite Hlen1; lia|].
  split; [done|]. intros d'. by rewrite Hlen2, Hlen1.
Qed.

Lemma sort_loop_Linked (d : nat) (start : Z) (l : list Z) :
  (d < 3)%nat ->
  forall s, Linked s ->
            Forall (fun i => (Z.to_nat i < length (list_at d s))%nat) l ->
            Linked (fold_left (fun s i => sort_inner d start (Z.to_nat i) s) l s).
Proof.
  intros Hd. induction l as [|i l IH]; intros s Hs Hl; [done|].
  cbn [fold_left]. apply Forall_cons in Hl as [Hi Hl].
  destruct (sort_inner_Linked d start (Z.to_nat i) Hd s Hs Hi) as [Hs1 Hlen1].
  apply IH; [done|]. eapply Forall_impl; [exact Hl|]. simpl. intros i'.
  by rewrite Hlen1.
Qed.

Lemma windows_frame (s : Broadphase) (starts ends : list num) :
  lists (set_sortEnds ends (set_sortStarts starts s)) = lists s
  /\ heap (set_sortEnds ends (set_sortStarts starts s)) = heap s.
Proof. by split. Qed.

Lemma windows_Linked (s : Broadphase) (starts ends : list num) :
  Linked s -> Linked (set_sortEnds ends (set_sortStarts starts s)).
Proof.
  intros Hs. destruct (windows_frame s starts ends) as [Hl Hh].
  revert Hl Hh. generalize (set_sortEnds ends (set_sortStarts starts s)).
  intros s' Hl Hh. apply (Linked_transfer s); [done | by rewrite Hh | | done].
  intros a. unfold proxy. by rewrite Hh.
Qed.

Lemma sort_Linked (d : nat) (s : Broadphase) :
  (d < 3)%nat -> Linked s -> Linked (sort d s).
Proof.
  intros Hd Hs. unfold sort. cbv zeta.
  set (last := Z.of_nat (length (list_at 0 s)) - 1).
  pose proof (windows_Linked s [Fin 0; Fin 0; Fin 0] [Fin last; Fin last; Fin last] Hs)
    as Hs0.
  assert (forall d', list_at d' (set_sortEnds [Fin last; Fin last; Fin last]
                                   (set_sortStarts [Fin 0; Fin 0; Fin 0] s))
                     = list_at d' s) as Hlist0 by done.
  assert (sortStarts (set_sortEnds [Fin last; Fin last; Fin last]
                        (set_sortStarts [Fin 0; Fin 0; Fin 0] s)) !! d = Some (Fin 0))
    as ->.
  { apply dim_cases in Hd. by destruct Hd as [->|[->| ->]]. }
  assert (sortEnds (set_sortEnds [Fin last; Fin last; Fin last]
                      (set_sortStarts [Fin 0; Fin 0; Fin 0] s)) !! d = Some (Fin last))
    as ->.
  { apply dim_cases in Hd. by destruct Hd as [->|[->| ->]]. }
  revert Hs0 Hlist0.
  generalize (set_sortEnds [Fin last; Fin last; Fin last]
                (set_sortStarts [Fin 0; Fin 0; Fin 0] s)).
  intros s0 Hs0 Hlist0.
  apply windows_Linked. apply sort_loop_Linked; [done | done |].
  apply Forall_forall. intros i (k & -> & Hk%elem_of_seq)%list_elem_of_fmap.
  rewrite Hlist0. destruct Hs as [_ Hlen]. rewrite (Hlen d Hd). unfold last in Hk. lia.
Qed.

Lemma recompute_Linked (s : Broadphase) : Linked s -> Linked (recompute s).
Proof.
  intros Hs. unfold recompute. destruct (needsSort s); [|done].
  cbn [fold_left].
  pose proof (sort_Linked 2 _ ltac:(lia)
                (sort_Linked 1 _ ltac:(lia) (sort_Linked 0 s ltac:(lia) Hs))) as Hs3.
  revert Hs3. generalize (sort 2 (sort 1 (sort 0 s))). intros s3 Hs3.
  apply (Linked_transfer s3); done.
Qed.

(** **** update *)

Lemma update_dim_frame (obj : BroadphaseObject) (proxies : list nat) (s : Broadphase)
  (dim : nat) :
  lists (update_dim obj proxies s dim) = lists s
  /\ length (heap (update_dim obj proxies s dim)) = length (heap s)
  /\ forall a, index (proxy (update_dim obj proxies s dim) a) = index (proxy s a).
Proof.
  unfold update_dim. cbv zeta.
  match goal with |- context [set_sortEnds ?ends (set_sortStarts ?starts ?w)] =>
    destruct (windows_frame w starts ends) as [Hl Hh];
    revert Hl Hh; generalize (set_sortEnds ends (set_sortStarts starts w));
    intros s' Hl Hh
  end.
  split_and!.
  - by rewrite Hl.
  - rewrite Hh. unfold write_value. cbn [heap set_heap]. by rewrite !length_insert.
  - intros a. unfold proxy at 1. rewrite Hh.
    match goal with |- index (default no_proxy (heap ?w !! a)) = _ =>
      change (index (proxy w a) = index (proxy s a)) end.
    by rewrite !index_write_value.
Qed.

Lemma update_Linked (obj : BroadphaseObject) (s : Broadphase) :
  Linked s -> Linked (update obj s).
Proof.
  intros Hs. unfold update.
  destruct (objectToProxies s !! oid obj) as [proxies|]; [|by apply insert_Linked].
  cbn [fold_left].
  destruct (update_dim_frame obj proxies s 0) as (L0 & H0 & I0).
  revert L0 H0 I0. generalize (update_dim obj proxies s 0). intros s0 L0 H0 I0.
  destruct (update_dim_frame obj proxies s0 1) as (L1 & H1 & I1).
  revert L1 H1 I1. generalize (update_dim obj proxies s0 1). intros s1 L1 H1 I1.
  destruct (update_dim_frame obj proxies s1 2) as (L2 & H2 & I2).
  revert L2 H2 I2. generalize (update_dim obj proxies s1 2). intros s2 L2 H2 I2.
  apply (Linked_transfer s); [| | |done].
  - change (lists s2 = lists s). congruence.
  - change (length (heap s2) = length (heap s)). congruence.
  - intros a. change (index (proxy s2 a) = index (proxy s a)). by rewrite I2, I1, I0.
Qed.

(** **** Every broadphase *)

(** The states that the methods make of the empty broadphase, called in
    any order and for any objects. *)
Inductive made : Broadphase -> Prop :=
| made_empty : made empty
| made_insert obj s : made s -> made (insert obj s)
| made_update obj s : made s -> made (update obj s)
| made_sort d s : made s -> (d < 3)%nat -> made (sort d s)
| made_recompute s : made s -> made (recompute s).

Lemma Linked_empty : Linked empty.
Proof.
  split; [constructor|]; try done.
  - intros d p r Hd Hr. apply dim_cases in Hd. by destruct Hd as [->|[->| ->]].
  - intros d d' p p' r Hd Hd' Hr. apply dim_cases in Hd. by destruct Hd as [->|[->| ->]].
  - intros d p r Hd Hr. apply dim_cases in Hd. by destruct Hd as [->|[->| ->]].
  - intros d Hd. apply dim_cases in Hd. by destruct Hd as [->|[->| ->]].
Qed.

Lemma made_Linked (s : Broadphase) : made s -> Linked s.
Proof.
  induction 1 as [|obj s _ IH|obj s _ IH|d s _ IH Hd|s _ IH].
  - apply Linked_empty.
  - by apply insert_Linked.
  - by apply update_Linked.
  - by apply sort_Linked.
  - by apply recompute_Linked.
Qed.

(** Whatever was inserted, updated and sorted, in whatever order: the
    [index] of every proxy in a list is its position in that list, a proxy
    is at one place of one list only, and the three lists have the same
    length (two entries for each insert). *)
Theorem index_is_position (s : Broadphase) :
  made s ->
  (forall d p r, (d < 3)%nat -> list_at d s !! p = Some r ->
                 index (proxy s r) = Z.of_nat p /\ (r < length (heap s))%nat)
  /\ (forall d d' p p' r, (d < 3)%nat -> (d' < 3)%nat ->
        list_at d s !! p = Some r -> list_at d' s !! p' = Some r -> d = d' /\ p = p')
  /\ (forall d, (d < 3)%nat -> length (list_at d s) = length (list_at 0 s)).
Proof.
  intros [[H1 H2 H3 H4] Hlen]%made_Linked. split_and!; [|done|done].
  intros d p r Hd Hr. split; [exact (H4 d p r Hd Hr) | by eapply H2].
Qed.

Definition sorted_after_insert : Broadphase :=
  insert (cube 12 0 9)
    (recompute (update (cube 10 4 8) (insert (cube 11 1 3) (insert (cube 10 0 2) empty)))).

Lemma sorted_after_insert_made : made sorted_after_insert.
Proof.
  unfold sorted_after_insert.
  apply made_insert, made_recompute, made_update, made_insert, made_insert, made_empty.
Qed.

Lemma index_is_position_witness :
  let s := sorted_after_insert in
  made s
  /\ (forall d p r, (d < 3)%nat -> list_at d s !! p = Some r ->
                    index (proxy s r) = Z.of_nat p /\ (r < length (heap s))%nat)
  /\ (forall d d' p p' r, (d < 3)%nat -> (d' < 3)%nat ->
        list_at d s !! p = Some r -> list_at d' s !! p' = Some r -> d = d' /\ p = p')
  /\ (forall d, (d < 3)%nat -> length (list_at d s) = length (list_at 0 s)).
Proof.
  split; [exact sorted_after_insert_made|].
  exact (index_is_position _ sorted_after_insert_made).
Defined.

End Broadphase.
